(** * spanner_orm: field descriptors and catalog reflection

    A shallow embedding of [spanner_orm/field.py] and
    [spanner_orm/admin/metadata.py].

    Python exceptions are modelled by the [result] type, class-level
    attributes of [SpannerMetadata] by an explicit [State] that is threaded
    through every accessor and survives a raised exception, and Python
    objects that are mutated after being shared ([Field] instances, model
    classes) by addresses into a store. *)

From Stdlib Require Import String Ascii ZArith List Bool Lia.
From Stdlib Require Import Permutation Sorted DecimalString SpecFloat.
From stdpp Require Import base list strings.

Import ListNotations.
Local Open Scope Z_scope.
Local Set Warnings "-register-all".

(** ** Exceptions *)

Inductive error : Type :=
| ValidationError     (* spanner_orm.error.ValidationError *)
| KeyError            (* dict.__getitem__ on a missing key *)
| IndexError          (* str.__getitem__ out of range *)
| SchemaError         (* no field type corresponds to a catalog type string *)
| CollaboratorError.  (* anything raised by code outside this module *)

Inductive result (A : Type) : Type :=
| Ok (a : A)
| Raise (e : error).
Arguments Ok {A} a.
Arguments Raise {A} e.

Definition rbind {A B} (r : result A) (k : A -> result B) : result B :=
  match r with
  | Ok a => k a
  | Raise e => Raise e
  end.

Declare Scope result_scope.
Delimit Scope result_scope with result.
Notation "'try' x <- r ; k" := (rbind r (fun x => k))
  (at level 10, x name, r at level 100, k at level 200) : result_scope.

(** ** Python strings *)

Module PyStr.

(** [s[0:n]] *)
Definition slice_to (n : nat) (s : string) : string := substring 0 n s.

(** [s[-n:]] for [n > 0] *)
Definition slice_last (n : nat) (s : string) : string :=
  substring (String.length s - n) n s.

(** [s[-1]] raises IndexError on the empty string. *)
Definition getitem_last (s : string) : result ascii :=
  match String.get (String.length s - 1) s with
  | Some c => Ok c
  | None => Raise IndexError
  end.

(** [s.startswith(p)] *)
Definition startswith (s p : string) : bool := String.prefix p s.

(** [s.replace(old, new)] for a non-empty [old]: occurrences are replaced
    left to right and do not overlap.  [skip] counts the characters of a
    replaced occurrence that are still to be dropped. *)
Fixpoint replace_from (old new : string) (skip : nat) (s : string) : string :=
  match s with
  | EmptyString => EmptyString
  | String c s' =>
      match skip with
      | S k => replace_from old new k s'
      | O =>
          if String.prefix old s
          then String.append new (replace_from old new (String.length old - 1) s')
          else String c (replace_from old new 0 s')
      end
  end.

Definition replace (s old new : string) : string := replace_from old new 0 s.

(** [str(z)] for an int: its decimal digits.  The interpreter refuses to
    print an int of more digits than [sys.get_int_max_str_digits()] (4300
    unless configured otherwise) and raises ValueError instead; [of_int] is
    the string that [str(z)] gives whenever it gives one. *)
Definition of_int (z : Z) : string := NilZero.string_of_int (Z.to_int z).

End PyStr.

(** ** Python values handed to validators *)

Inductive pyvalue : Type :=
| PyNone
| PyBool (b : bool)
| PyInt (z : Z)
| PyFloat (f : spec_float)
| PyStr (s : string)
| PyBytes (b : list Byte.byte)
| PyList (items : list pyvalue)
| PyDatetime (micros : Z)
| PyObject (id : nat).          (* an instance of any other class *)

(** The classes named in [isinstance] checks; [bool] is a subclass of [int]. *)
Inductive pyclass : Type := c_bool | c_int | c_float | c_str | c_bytes | c_list | c_datetime.

Definition isinstance (v : pyvalue) (c : pyclass) : bool :=
  match v, c with
  | PyBool _, c_bool => true
  | PyBool _, c_int => true
  | PyInt _, c_int => true
  | PyFloat _, c_float => true
  | PyStr _, c_str => true
  | PyBytes _, c_bytes => true
  | PyList _, c_list => true
  | PyDatetime _, c_datetime => true
  | _, _ => false
  end.

(** ** field.py: the field types *)

Inductive FieldType : Type :=
| Boolean | Integer | IntArray | Float | String_ | StringArray | Timestamp | BytesBase64.

Definition ALL_TYPES : list FieldType :=
  [Boolean; Integer; IntArray; Float; String_; StringArray; Timestamp; BytesBase64].

Module FieldTypes.

Definition ddl (t : FieldType) : string :=
  match t with
  | Boolean => "BOOL"
  | Integer => "INT64"
  | Float => "FLOAT64"
  | String_ => "STRING(MAX)"
  | StringArray => "ARRAY<STRING(MAX)>"
  | IntArray => "ARRAY<INT64>"
  | Timestamp => "TIMESTAMP"
  | BytesBase64 => "BYTES(MAX)"
  end.

Definition support_length (t : FieldType) : bool :=
  match t with
  | String_ | StringArray | BytesBase64 => true
  | _ => false
  end.

Definition support_commit_timestamp (t : FieldType) : bool :=
  match t with
  | Timestamp => true
  | _ => false
  end.

(** [a and b] where [b] may raise: [b] is evaluated only when [a] holds. *)
Definition and_then (a : bool) (b : result bool) : result bool :=
  if a then b else Ok false.

Definition last_is (s : string) (c : ascii) : result bool :=
  (try x <- PyStr.getitem_last s; Ok (Ascii.eqb x c))%result.

Definition matches (t : FieldType) (type : string) : result bool :=
  match t with
  | Boolean => Ok (String.eqb type "BOOL")
  | Integer => Ok (String.eqb type "INT64")
  | Float => Ok (String.eqb type "FLOAT64")
  | String_ =>
      and_then (String.eqb (PyStr.slice_to 7 type) "STRING(") (last_is type ")")
  | StringArray =>
      and_then (String.eqb (PyStr.slice_to 13 type) "ARRAY<STRING(")
               (Ok (String.eqb (PyStr.slice_last 2 type) ")>"))
  | IntArray => Ok (String.eqb type "ARRAY<INT64>")
  | Timestamp => Ok (PyStr.startswith type "TIMESTAMP")
  | BytesBase64 =>
      and_then (String.eqb (PyStr.slice_to 6 type) "BYTES(") (last_is type ")")
  end.

Section Validators.

(** [base64.b64decode(value, altchars=None, validate=True)] belongs to the
    Python standard library; only whether it raises [binascii.Error]
    matters here. *)
Variable b64decode_ok : list Byte.byte -> bool.

(** ['{} is not of type ...'.format(value)], the message of every
    rejection, is built before the exception is raised.  Formatting calls
    the value's own [__format__] and, for an int, is subject to the
    interpreter's limit on printed digits, so it can itself raise; only
    whether it raises, and what, matters here. *)
Variable format_value : pyvalue -> result string.

(** [if not ok: raise error.ValidationError('...'.format(value))] *)
Definition check (ok : bool) (value : pyvalue) : result unit :=
  if ok then Ok tt
  else (try _ <- format_value value; Raise ValidationError)%result.

(** The [for item in value] loops of the array validators. *)
Fixpoint each_item (c : pyclass) (items : list pyvalue) : result unit :=
  match items with
  | [] => Ok tt
  | item :: rest =>
      (try _ <- check (isinstance item c) item; each_item c rest)%result
  end.

Definition items_of (v : pyvalue) : list pyvalue :=
  match v with
  | PyList items => items
  | _ => []
  end.

Definition bytes_of (v : pyvalue) : list Byte.byte :=
  match v with
  | PyBytes b => b
  | _ => []
  end.

Definition validate_type (t : FieldType) (value : pyvalue) : result unit :=
  match t with
  | Boolean => check (isinstance value c_bool) value
  | Integer => check (isinstance value c_int) value
  | Float => check (isinstance value c_int || isinstance value c_float) value
  | String_ => check (isinstance value c_str) value
  | StringArray =>
      (try _ <- check (isinstance value c_list) value;
       each_item c_str (items_of value))%result
  | IntArray =>
      (try _ <- check (isinstance value c_list) value;
       each_item c_int (items_of value))%result
  | Timestamp => check (isinstance value c_datetime) value
  | BytesBase64 =>
      (try _ <- check (isinstance value c_bytes) value;
       check (b64decode_ok (bytes_of value)) value)%result
  end.

End Validators.

End FieldTypes.

(** ** field.py: [Field] *)

Record Field : Type := mkField {
  name : option string;            (* [None] until the owner sets it *)
  _type : FieldType;
  _nullable : bool;
  _primary_key : bool;
  _length : Z;
  _allow_commit_timestamp : bool;
  position : option Z              (* attribute added by the catalog reflection *)
}.

Module FieldM.

Import FieldTypes.

(** Truth value of an int. *)
Definition truthy (z : Z) : bool := negb (z =? 0).

(** [Field.__init__] *)
Definition init (field_type : FieldType) (nullable primary_key : bool)
           (length : Z) (allow_commit_timestamp : bool) : result Field :=
  if length <? 0 then Raise ValidationError
  else if negb (support_length field_type) && truthy length
  then Raise ValidationError
  else if negb (support_commit_timestamp field_type) && allow_commit_timestamp
  then Raise ValidationError
  else Ok {| name := None;
             _type := field_type;
             _nullable := nullable;
             _primary_key := primary_key;
             _length := length;
             _allow_commit_timestamp := allow_commit_timestamp;
             position := None |}.

(** [Field.ddl].  The f-string prints a non-zero length with [str], see
    [PyStr.of_int] for the lengths that the interpreter prints. *)
Definition ddl (self : Field) : string :=
  let base_ddl := FieldTypes.ddl (_type self) in
  let base_ddl :=
    if truthy (_length self)
    then PyStr.replace base_ddl "(MAX)"
           (String.append "(" (String.append (PyStr.of_int (_length self)) ")"))
    else base_ddl in
  let options :=
    if _allow_commit_timestamp self
    then " OPTIONS (allow_commit_timestamp=true)"%string
    else ""%string in
  if _nullable self
  then String.append base_ddl options
  else String.append base_ddl (String.append " NOT NULL" options).

Definition field_type (self : Field) : FieldType := _type self.
Definition nullable (self : Field) : bool := _nullable self.
Definition primary_key (self : Field) : bool := _primary_key self.

Definition validate (b64decode_ok : list Byte.byte -> bool)
           (format_value : pyvalue -> result string)
           (self : Field) (value : pyvalue) : result unit :=
  match value with
  | PyNone => if negb (_nullable self) then Raise ValidationError else Ok tt
  | _ => validate_type b64decode_ok format_value (_type self) value
  end.

End FieldM.

(** ** Python dicts

    A [dict] iterates in insertion order and assigning to an existing key
    keeps the key's place, so a dict is an association list without
    repeated keys, updated in place. *)

Module Dict.
Section Dict.
Context {K : Type} `{EqDecision K} {V : Type}.

Definition t : Type := list (K * V).

Definition empty : t := [].

Fixpoint get (k : K) (d : t) : option V :=
  match d with
  | [] => None
  | (k', v) :: d' => if decide (k = k') then Some v else get k d'
  end.

(** [d[k] = v] *)
Fixpoint setitem (k : K) (v : V) (d : t) : t :=
  match d with
  | [] => [(k, v)]
  | (k', v') :: d' =>
      if decide (k = k') then (k, v) :: d' else (k', v') :: setitem k v d'
  end.

(** [d[k]] on a plain dict *)
Definition getitem (k : K) (d : t) : result V :=
  match get k d with
  | Some v => Ok v
  | None => Raise KeyError
  end.

(** [d[k]] on a [collections.defaultdict]: a missing key is first
    inserted with the default value.  Returns the dict after the read. *)
Definition getitem_default (dflt : V) (k : K) (d : t) : t * V :=
  match get k d with
  | Some v => (d, v)
  | None => (setitem k dflt d, dflt)
  end.

Definition keys (d : t) : list K := map fst d.
Definition values (d : t) : list V := map snd d.
Definition items (d : t) : list (K * V) := d.

Definition wf (d : t) : Prop := List.NoDup (keys d).
End Dict.
Arguments t : clear implicits.
End Dict.

(** ** The entities of index.py and of the admin schema rows *)

(** Objects that are shared and mutated are held by address. *)
Abbreviation addr := nat (only parsing).

(** Modelled from the spec: [index.Index] (index.py is not part of the
    sources) is the structural container of section 3; its constructor keeps
    the key columns in the order given and the storing columns it is handed. *)
Module Index.
Record t : Type := mk {
  columns : list string;
  name : string;
  parent : option string;
  null_filtered : bool;
  unique : bool;
  storing_columns : list string
}.
End Index.

Module ColumnSchema.
Record t : Type := mk {
  table_name : string;
  column_name : string;
  ordinal_position : Z;
  spanner_type : string;
  nullable : bool              (* the value of the row's [nullable()] *)
}.

(** [first_match types type]: the first variant of [types] that matches. *)
Fixpoint first_match (types : list FieldType) (type : string) : result FieldType :=
  match types with
  | [] => Raise SchemaError
  | ft :: rest =>
      (try b <- FieldTypes.matches ft type;
       if b then Ok ft else first_match rest type)%result
  end.

(** Modelled from the spec: [ColumnSchema.field_type()] (admin/column.py is
    not part of the sources) iterates the fixed variant list in its
    declared order and returns the first variant whose [matches] succeeds;
    no match is an unrecoverable schema error. *)
Definition field_type (row : t) : result FieldType :=
  first_match ALL_TYPES (spanner_type row).
End ColumnSchema.

Module TableSchema.
Record t : Type := mk {
  table_name : string;
  parent_table_name : option string
}.
End TableSchema.

Module IndexColumnSchema.
Record t : Type := mk {
  table_name : string;
  index_name : string;
  column_name : string;
  ordinal_position : option Z
}.
End IndexColumnSchema.

Module IndexSchema.
Record t : Type := mk {
  table_name : string;
  index_name : string;
  parent_table_name : option string;
  is_null_filtered : bool;
  is_unique : bool
}.
End IndexSchema.

(** What [SpannerMetadata.tables()] stores per table: the dict with the keys
    ['parent_table'] and ['fields']; the fields are [Field] objects, held by
    address. *)
Module TableData.
Record t : Type := mk {
  parent_table : option string;
  fields : Dict.t string addr
}.
End TableData.

(** The [interleaved] attribute of a model's metadata: [None], a table name,
    or (after the second pass) a model class. *)
Inductive interleaved_t : Type :=
| NoParent
| ParentName (table_name : string)
| ParentClass (klass : addr).

Definition interleaved_of (parent_table : option string) : interleaved_t :=
  match parent_table with
  | None => NoParent
  | Some n => ParentName n
  end.

(** Modelled from the spec: [model.Metadata] (model.py is not part of the
    sources) is the model descriptor of section 3, holding what its
    constructor is given. *)
Module Metadata.
Record t : Type := mk {
  table : string;
  fields : Dict.t string addr;
  interleaved : interleaved_t;
  indexes : Dict.t string Index.t;
  model_class : addr
}.

Definition set_interleaved (i : interleaved_t) (m : t) : t :=
  {| table := table m; fields := fields m; interleaved := i;
     indexes := indexes m; model_class := model_class m |}.
End Metadata.

(** ** The row-fetch collaborator

    Each [where] call is a query.  Its answer may depend on when it is asked,
    so it is indexed by the number of queries issued before it; it may raise. *)
Record Collaborator : Type := {
  ColumnSchema_where : nat -> result (list ColumnSchema.t);
  TableSchema_where : nat -> result (list TableSchema.t);
  IndexColumnSchema_where : nat -> result (list IndexColumnSchema.t);
  IndexSchema_where : nat -> result (list IndexSchema.t)
}.

(** ** Process state: the class attributes of [SpannerMetadata], the objects
    they reach, and the number of queries issued so far. *)
Record State : Type := mkState {
  _models : option (Dict.t string addr);
  _tables : option (Dict.t string TableData.t);
  _indexes : option (Dict.t string (Dict.t string Index.t));
  field_store : list Field;
  class_store : list Metadata.t;
  queries : nat
}.

Definition init_state : State :=
  {| _models := None; _tables := None; _indexes := None;
     field_store := []; class_store := []; queries := 0 |}.

(** A computation that may change the state and may raise; the state changes
    made before an exception stay. *)
Definition M (A : Type) : Type := State -> State * result A.

Definition ret {A} (a : A) : M A := fun s => (s, Ok a).

Definition bind {A B} (m : M A) (k : A -> M B) : M B :=
  fun s =>
    match m s with
    | (s', Ok a) => k a s'
    | (s', Raise e) => (s', Raise e)
    end.

Definition lift {A} (r : result A) : M A := fun s => (s, r).

Declare Scope m_scope.
Delimit Scope m_scope with M.
Notation "'do' x <- m ; k" := (bind m (fun x => k))
  (at level 10, x name, m at level 100, k at level 200) : m_scope.
Notation "'do_' m ; k" := (bind m (fun _ => k))
  (at level 10, m at level 100, k at level 200) : m_scope.

Module Store.

Definition set_models (v : option (Dict.t string addr)) : M unit :=
  fun s => ({| _models := v; _tables := _tables s; _indexes := _indexes s;
               field_store := field_store s; class_store := class_store s;
               queries := queries s |}, Ok tt).

Definition set_tables (v : option (Dict.t string TableData.t)) : M unit :=
  fun s => ({| _models := _models s; _tables := v; _indexes := _indexes s;
               field_store := field_store s; class_store := class_store s;
               queries := queries s |}, Ok tt).

Definition set_indexes (v : option (Dict.t string (Dict.t string Index.t))) : M unit :=
  fun s => ({| _models := _models s; _tables := _tables s; _indexes := v;
               field_store := field_store s; class_store := class_store s;
               queries := queries s |}, Ok tt).

Definition put_fields (fs : list Field) (s : State) : State :=
  {| _models := _models s; _tables := _tables s; _indexes := _indexes s;
     field_store := fs; class_store := class_store s; queries := queries s |}.

Definition put_classes (cs : list Metadata.t) (s : State) : State :=
  {| _models := _models s; _tables := _tables s; _indexes := _indexes s;
     field_store := field_store s; class_store := cs; queries := queries s |}.

(** A new [Field] object. *)
Definition new_field (f : Field) : M addr :=
  fun s => (put_fields (field_store s ++ [f]) s, Ok (length (field_store s))).

(** Attribute assignment on the [Field] at [a]. *)
Definition update_field (a : addr) (g : Field -> Field) : M unit :=
  fun s => (put_fields (alter g a (field_store s)) s, Ok tt).

Definition new_class (m : addr -> Metadata.t) : M addr :=
  fun s => let a := length (class_store s) in
           (put_classes (class_store s ++ [m a]) s, Ok a).

Definition get_class (a : addr) : M Metadata.t :=
  fun s => match class_store s !! a with
           | Some m => (s, Ok m)
           | None => (s, Raise CollaboratorError)   (* no such object *)
           end.

Definition update_class (a : addr) (g : Metadata.t -> Metadata.t) : M unit :=
  fun s => (put_classes (alter g a (class_store s)) s, Ok tt).

(** One query to the row-fetch collaborator. *)
Definition query {R} (q : nat -> result (list R)) : M (list R) :=
  fun s => ({| _models := _models s; _tables := _tables s; _indexes := _indexes s;
               field_store := field_store s; class_store := class_store s;
               queries := S (queries s) |}, q (queries s)).

End Store.

(** ** admin/metadata.py: [SpannerMetadata] *)

Module SpannerMetadata.
Section Accessors.

Import Store.
Local Open Scope m_scope.

(** [index.Index.PRIMARY_INDEX]: the reserved index name (index.py is not
    part of the sources, so the constant is a parameter). *)
Variable PRIMARY_INDEX : string.

(** Modelled from the spec: [Metadata.finalize()] (model.py is not part of
    the sources) locks the descriptor and may perform consistency checks;
    it is a check of the descriptor at an address against the current
    state that either passes or raises. *)
Variable finalize : State -> addr -> result unit.

Variable db : Collaborator.

(** *** tables() *)

(** Lines 79-84: one [Field] per column row. *)
Fixpoint tables_columns (columns : list ColumnSchema.t)
         (column_data : Dict.t string (Dict.t string addr))
  : M (Dict.t string (Dict.t string addr)) :=
  match columns with
  | [] => ret column_data
  | column_row :: rest =>
      do field_type <- lift (ColumnSchema.field_type column_row);
      do new_field <- lift (FieldM.init field_type (ColumnSchema.nullable column_row)
                                        false 0 false);
      do a <- Store.new_field
                {| name := Some (ColumnSchema.column_name column_row);
                   _type := _type new_field;
                   _nullable := _nullable new_field;
                   _primary_key := _primary_key new_field;
                   _length := _length new_field;
                   _allow_commit_timestamp := _allow_commit_timestamp new_field;
                   position := Some (ColumnSchema.ordinal_position column_row) |};
      let '(column_data, of_table) :=
        Dict.getitem_default Dict.empty (ColumnSchema.table_name column_row)
                             column_data in
      tables_columns rest
        (Dict.setitem (ColumnSchema.table_name column_row)
                      (Dict.setitem (ColumnSchema.column_name column_row) a of_table)
                      column_data)
  end.

(** Lines 90-93: one entry per table row. *)
Fixpoint tables_rows (tables : list TableSchema.t)
         (column_data : Dict.t string (Dict.t string addr))
         (table_data : Dict.t string TableData.t) : Dict.t string TableData.t :=
  match tables with
  | [] => table_data
  | table_row :: rest =>
      let name := TableSchema.table_name table_row in
      let '(column_data, fields) :=
        Dict.getitem_default Dict.empty name column_data in
      tables_rows rest column_data
        (Dict.setitem name
           {| TableData.parent_table := TableSchema.parent_table_name table_row;
              TableData.fields := fields |}
           table_data)
  end.

Definition tables : M (Dict.t string TableData.t) :=
  fun s =>
    match _tables s with
    | Some cached => (s, Ok cached)
    | None =>
        (do columns <- query (ColumnSchema_where db);
         do column_data <- tables_columns columns Dict.empty;
         do tables <- query (TableSchema_where db);
         let table_data := tables_rows tables column_data Dict.empty in
         do_ set_tables (Some table_data);
         ret table_data) s
    end.

(** *** indexes() *)

Definition index_key : Type := string * string.

Definition append_to (key : index_key) (column_name : string)
           (d : Dict.t index_key (list string)) : Dict.t index_key (list string) :=
  let '(d, l) := Dict.getitem_default [] key d in
  Dict.setitem key (l ++ [column_name]) d.

(** Lines 111-116: key columns and storing columns per index. *)
Fixpoint indexes_columns (index_column_schemas : list IndexColumnSchema.t)
         (index_columns storing_columns : Dict.t index_key (list string))
  : Dict.t index_key (list string) * Dict.t index_key (list string) :=
  match index_column_schemas with
  | [] => (index_columns, storing_columns)
  | schema :: rest =>
      let key := (IndexColumnSchema.table_name schema,
                  IndexColumnSchema.index_name schema) in
      match IndexColumnSchema.ordinal_position schema with
      | Some _ =>
          indexes_columns rest
            (append_to key (IndexColumnSchema.column_name schema) index_columns)
            storing_columns
      | None =>
          indexes_columns rest index_columns
            (append_to key (IndexColumnSchema.column_name schema) storing_columns)
      end
  end.

(** Lines 122-130: one [Index] per index row. *)
Fixpoint indexes_rows (index_schemas : list IndexSchema.t)
         (index_columns storing_columns : Dict.t index_key (list string))
         (indexes : Dict.t string (Dict.t string Index.t))
  : Dict.t string (Dict.t string Index.t) :=
  match index_schemas with
  | [] => indexes
  | schema :: rest =>
      let key := (IndexSchema.table_name schema, IndexSchema.index_name schema) in
      let '(index_columns, cols) := Dict.getitem_default [] key index_columns in
      let '(storing_columns, storing) := Dict.getitem_default [] key storing_columns in
      let '(indexes, of_table) :=
        Dict.getitem_default Dict.empty (IndexSchema.table_name schema) indexes in
      indexes_rows rest index_columns storing_columns
        (Dict.setitem (IndexSchema.table_name schema)
           (Dict.setitem (IndexSchema.index_name schema)
              {| Index.columns := cols;
                 Index.name := IndexSchema.index_name schema;
                 Index.parent := IndexSchema.parent_table_name schema;
                 Index.null_filtered := IndexSchema.is_null_filtered schema;
                 Index.unique := IndexSchema.is_unique schema;
                 Index.storing_columns := storing |}
              of_table)
           indexes)
  end.

Definition indexes : M (Dict.t string (Dict.t string Index.t)) :=
  fun s =>
    match _indexes s with
    | Some cached => (s, Ok cached)
    | None =>
        (do index_column_schemas <- query (IndexColumnSchema_where db);
         let '(index_columns, storing_columns) :=
           indexes_columns index_column_schemas Dict.empty Dict.empty in
         do index_schemas <- query (IndexSchema_where db);
         let indexes := indexes_rows index_schemas index_columns storing_columns
                                     Dict.empty in
         do_ set_indexes (Some indexes);
         ret indexes) s
    end.

(** *** models() *)

(** [field.name in primary_keys] *)
Definition name_in (n : option string) (primary_keys : list string) : bool :=
  match n with
  | Some n => bool_decide (n ∈ primary_keys)
  | None => false
  end.

(** [field._primary_key = v] *)
Definition set_primary_key (v : bool) (field : Field) : Field :=
  {| name := name field;
     _type := _type field;
     _nullable := _nullable field;
     _primary_key := v;
     _length := _length field;
     _allow_commit_timestamp := _allow_commit_timestamp field;
     position := position field |}.

(** Line 49, on one field object. *)
Definition mark (primary_keys : list string) (field : Field) : Field :=
  set_primary_key (name_in (name field) primary_keys) field.

(** Lines 48-49: the [_primary_key] of every field object of the table. *)
Fixpoint mark_primary_keys (primary_keys : list string) (fields : list addr) : M unit :=
  match fields with
  | [] => ret tt
  | a :: rest =>
      do_ update_field a (mark primary_keys);
      mark_primary_keys primary_keys rest
  end.

(** [indexes[table_name]] in [models()]: [indexes] is the very
    defaultdict that [cls._indexes] holds, so a table without index rows
    gets an empty entry in the cached mapping. *)
Definition indexes_getitem (indexes : Dict.t string (Dict.t string Index.t))
           (table_name : string)
  : M (Dict.t string (Dict.t string Index.t) * Dict.t string Index.t) :=
  let '(indexes, of_table) := Dict.getitem_default Dict.empty table_name indexes in
  do_ set_indexes (Some indexes);
  ret (indexes, of_table).

(** Lines 44-57: the body of the first pass, for one table. *)
Definition models_pass1_body (table_name : string) (table_data : TableData.t)
           (indexes : Dict.t string (Dict.t string Index.t))
           (models : Dict.t string addr)
  : M (Dict.t string (Dict.t string Index.t) * Dict.t string addr) :=
  do r <- indexes_getitem indexes table_name;
  let '(indexes, of_table) := r in
  do primary_index <- lift (Dict.getitem PRIMARY_INDEX of_table);
  let primary_keys := Index.columns primary_index in
  do_ mark_primary_keys primary_keys (Dict.values (TableData.fields table_data));
  do klass <- new_class (fun klass =>
        {| Metadata.table := table_name;
           Metadata.fields := TableData.fields table_data;
           Metadata.interleaved := interleaved_of (TableData.parent_table table_data);
           Metadata.indexes := of_table;
           Metadata.model_class := klass |});
  ret (indexes, Dict.setitem table_name klass models).

(** Lines 43-57: the first pass. *)
Fixpoint models_pass1 (items : list (string * TableData.t))
         (indexes : Dict.t string (Dict.t string Index.t))
         (models : Dict.t string addr) : M (Dict.t string addr) :=
  match items with
  | [] => ret models
  | (table_name, table_data) :: rest =>
      do r <- models_pass1_body table_name table_data indexes models;
      models_pass1 rest (fst r) (snd r)
  end.

(** Truth value of [meta.interleaved]. *)
Definition interleaved_truthy (i : interleaved_t) : bool :=
  match i with
  | NoParent => false
  | ParentName n => negb (String.eqb n "")
  | ParentClass _ => true
  end.

(** [models[meta.interleaved]]: only table names are keys. *)
Definition models_getitem (models : Dict.t string addr) (i : interleaved_t)
  : result addr :=
  match i with
  | ParentName n => Dict.getitem n models
  | _ => Raise KeyError
  end.

(** Lines 60-62: the body of the second pass, for one model class. *)
Definition models_pass2_body (table_model : addr) (models : Dict.t string addr)
  : M unit :=
  do meta <- get_class table_model;
  do_ (if interleaved_truthy (Metadata.interleaved meta)
       then do parent <- lift (models_getitem models (Metadata.interleaved meta));
            update_class table_model (Metadata.set_interleaved (ParentClass parent))
       else ret tt);
  fun s => (s, finalize s table_model).

(** Lines 59-62: the second pass. *)
Fixpoint models_pass2 (values : list addr) (models : Dict.t string addr) : M unit :=
  match values with
  | [] => ret tt
  | table_model :: rest =>
      do_ models_pass2_body table_model models;
      models_pass2 rest models
  end.

Definition models : M (Dict.t string addr) :=
  fun s =>
    match _models s with
    | Some cached => (s, Ok cached)
    | None =>
        (do tables <- tables;
         do indexes <- indexes;
         do models <- models_pass1 (Dict.items tables) indexes Dict.empty;
         do_ models_pass2 (Dict.values models) models;
         do_ set_models (Some models);
         ret models) s
    end.

(** [model(table_name)]: [None] for an unknown table. *)
Definition model (table_name : string) : M (option addr) :=
  do models <- models;
  ret (Dict.get table_name models).

End Accessors.
End SpannerMetadata.

(** ** Auxiliary notions used by the statements below *)

(** The literal with which every type string matched by a variant begins. *)
Definition signature (t : FieldType) : string :=
  match t with
  | Boolean => "BOOL"
  | Integer => "INT64"
  | Float => "FLOAT64"
  | String_ => "STRING("
  | StringArray => "ARRAY<STRING("
  | IntArray => "ARRAY<INT64>"
  | Timestamp => "TIMESTAMP"
  | BytesBase64 => "BYTES("
  end.

(** [d.get(k, [])]: what a [defaultdict(list)] yields at [k]. *)
Definition lookup_list {K} `{EqDecision K} {V} (k : K) (d : Dict.t K (list V)) : list V :=
  default [] (Dict.get k d).

(** The index-column rows of one index, in fetch order: those with an
    ordinal position (key columns) and those without (storing columns). *)
Definition of_index (T IDX : string) (r : IndexColumnSchema.t) : bool :=
  bool_decide ((IndexColumnSchema.table_name r, IndexColumnSchema.index_name r) = (T, IDX)).

Definition has_ordinal (r : IndexColumnSchema.t) : bool :=
  match IndexColumnSchema.ordinal_position r with
  | Some _ => true
  | None => false
  end.

Definition key_rows (T IDX : string) (rows : list IndexColumnSchema.t)
  : list IndexColumnSchema.t :=
  List.filter (fun r => of_index T IDX r && has_ordinal r) rows.

Definition storing_rows (T IDX : string) (rows : list IndexColumnSchema.t)
  : list IndexColumnSchema.t :=
  List.filter (fun r => of_index T IDX r && negb (has_ordinal r)) rows.

(** Ascending order of ordinal positions, as the ORDER BY of the index-column
    query yields it; a null position is not compared. *)
Definition ordinal_le (r1 r2 : IndexColumnSchema.t) : Prop :=
  match IndexColumnSchema.ordinal_position r1, IndexColumnSchema.ordinal_position r2 with
  | Some a, Some b => a <= b
  | _, _ => True
  end.

(** The ordinal positions carried by a sequence of rows. *)
Definition ordinals (rows : list IndexColumnSchema.t) : list Z :=
  omap IndexColumnSchema.ordinal_position rows.

(** Every index of [D] has the key and storing columns that the
    accumulated per-index lists give it. *)
Definition built_from (index_columns storing_columns : Dict.t (string * string) (list string))
           (D : Dict.t string (Dict.t string Index.t)) : Prop :=
  forall T of_table IDX i,
    Dict.get T D = Some of_table -> Dict.get IDX of_table = Some i ->
    Index.columns i = lookup_list (T, IDX) index_columns
    /\ Index.storing_columns i = lookup_list (T, IDX) storing_columns
    /\ Index.name i = IDX.

(** ** Invariants of the process state *)

(** Addresses of the [Field] objects of one table. *)
Definition field_addrs (td : TableData.t) : list addr :=
  Dict.values (TableData.fields td).

(** The per-table column dicts hold existing field objects, and no field
    object is held under two table names. *)
Definition column_data_ok (n : nat) (cd : Dict.t string (Dict.t string addr)) : Prop :=
  (forall T d a, Dict.get T cd = Some d -> In a (Dict.values d) -> (a < n)%nat)
  /\ (forall T1 d1 T2 d2 a,
         Dict.get T1 cd = Some d1 -> Dict.get T2 cd = Some d2 ->
         In a (Dict.values d1) -> In a (Dict.values d2) -> T1 = T2).

(** The same for the mapping that [tables()] caches. *)
Definition tables_wf (fs : list Field) (tables : Dict.t string TableData.t) : Prop :=
  Dict.wf tables
  /\ (forall T td a, Dict.get T tables = Some td -> In a (field_addrs td) ->
                     (a < length fs)%nat)
  /\ (forall T1 td1 T2 td2 a,
         Dict.get T1 tables = Some td1 -> Dict.get T2 tables = Some td2 ->
         In a (field_addrs td1) -> In a (field_addrs td2) -> T1 = T2).

(** [i] is the [interleaved] attribute that the second pass leaves for a
    table whose catalog row names [parent]. *)
Definition resolved (models : Dict.t string addr) (parent : option string)
           (i : interleaved_t) : Prop :=
  match parent with
  | None => i = NoParent
  | Some n =>
      if String.eqb n ""
      then i = ParentName n
      else exists p, Dict.get n models = Some p /\ i = ParentClass p
  end.

Section StateInvariants.

Variable PRIMARY_INDEX : string.

(** All field objects at [addrs] carry the flag that the primary index
    [primary_index] gives to their name. *)
Definition marked (fs : list Field) (primary_index : Index.t) (addrs : list addr) : Prop :=
  forall a, In a addrs ->
    exists f, fs !! a = Some f
              /\ FieldM.primary_key f
                 = SpannerMetadata.name_in (name f) (Index.columns primary_index).

(** The model class at [c] is the finished descriptor of table [T]. *)
Definition model_ok (s : State) (models : Dict.t string addr) (T : string) (c : addr)
  : Prop :=
  exists tables D td of_table primary_index meta,
    _tables s = Some tables /\ Dict.get T tables = Some td
    /\ _indexes s = Some D /\ Dict.get T D = Some of_table
    /\ Dict.get PRIMARY_INDEX of_table = Some primary_index
    /\ class_store s !! c = Some meta
    /\ Metadata.table meta = T
    /\ Metadata.fields meta = TableData.fields td
    /\ Metadata.indexes meta = of_table
    /\ Metadata.model_class meta = c
    /\ resolved models (TableData.parent_table td) (Metadata.interleaved meta)
    /\ marked (field_store s) primary_index (Dict.values (Metadata.fields meta)).

Definition models_ok (s : State) (models : Dict.t string addr) : Prop :=
  (forall T c, Dict.get T models = Some c -> model_ok s models T c)
  /\ (exists tables,
        _tables s = Some tables
        /\ forall T td, Dict.get T tables = Some td ->
                        exists c, Dict.get T models = Some c).

(** What holds of every state the accessors can reach. *)
Definition Inv (s : State) : Prop :=
  (forall tables, _tables s = Some tables -> tables_wf (field_store s) tables)
  /\ (forall models, _models s = Some models -> models_ok s models).

End StateInvariants.

(** What a computation that only creates field objects leaves alone. *)
Definition only_new_fields (s s' : State) : Prop :=
  _models s' = _models s /\ _tables s' = _tables s /\ _indexes s' = _indexes s
  /\ class_store s' = class_store s /\ queries s' = queries s
  /\ exists extra, field_store s' = field_store s ++ extra.

(** ** The three accessors as one entry point *)

Inductive accessor : Type := Tables | Indexes | Models.

Inductive mapping : Type :=
| TablesMap (d : Dict.t string TableData.t)
| IndexesMap (d : Dict.t string (Dict.t string Index.t))
| ModelsMap (d : Dict.t string addr).

Definition call (PRIMARY_INDEX : string) (finalize : State -> addr -> result unit)
           (db : Collaborator) (a : accessor) : M mapping :=
  match a with
  | Tables => bind (SpannerMetadata.tables db) (fun d => ret (TablesMap d))
  | Indexes => bind (SpannerMetadata.indexes db) (fun d => ret (IndexesMap d))
  | Models => bind (SpannerMetadata.models PRIMARY_INDEX finalize db)
                   (fun d => ret (ModelsMap d))
  end.

(** The cache of an accessor is unset. *)
Definition cache_empty (a : accessor) (s : State) : Prop :=
  match a with
  | Tables => _tables s = None
  | Indexes => _indexes s = None
  | Models => _models s = None
  end.

Section PassInvariants.

Variable PRIMARY_INDEX : string.

(** After the first pass, the class at [c] is the descriptor built for the
    table [T] with entry [td], its parent still a name. *)
Definition entry_ok (s : State) (T : string) (td : TableData.t) (c : addr) : Prop :=
  exists D of_table primary_index,
    _indexes s = Some D /\ Dict.get T D = Some of_table
    /\ Dict.get PRIMARY_INDEX of_table = Some primary_index
    /\ class_store s !! c
       = Some {| Metadata.table := T;
                 Metadata.fields := TableData.fields td;
                 Metadata.interleaved := interleaved_of (TableData.parent_table td);
                 Metadata.indexes := of_table;
                 Metadata.model_class := c |}
    /\ marked (field_store s) primary_index (field_addrs td).

End PassInvariants.

(** [i'] is what the second pass makes of the attribute [i]. *)
Definition resolved_from (models : Dict.t string addr) (i i' : interleaved_t) : Prop :=
  if SpannerMetadata.interleaved_truthy i
  then exists p, SpannerMetadata.models_getitem models i = Ok p /\ i' = ParentClass p
  else i' = i.

(** [D'] is [D] with, possibly, empty entries for further tables: what
    reading a [defaultdict] at missing keys does to it. *)
Definition grown (D D' : Dict.t string (Dict.t string Index.t)) : Prop :=
  (forall T x, Dict.get T D = Some x -> Dict.get T D' = Some x)
  /\ (forall T x, Dict.get T D' = Some x -> Dict.get T D = Some x \/ x = Dict.empty).

(** Every field object of [fs] is in [fs'] what it was, but for its
    [_primary_key]. *)
Definition fields_but_primary_key (fs fs' : list Field) : Prop :=
  forall a f, fs !! a = Some f ->
    exists b, fs' !! a = Some (SpannerMetadata.set_primary_key b f).

(** What a failed call may leave behind in the objects that the caches
    reach: entries added to a cached indexes mapping, and flags of fields. *)
Definition traces (s s' : State) : Prop :=
  (forall D, _indexes s = Some D -> exists D', _indexes s' = Some D' /\ grown D D')
  /\ fields_but_primary_key (field_store s) (field_store s').

(** The caches, and the field objects that the tables cache reaches, are in
    [s'] what they were in [s]. *)
Definition cached_state_unchanged (s s' : State) : Prop :=
  _models s' = _models s /\ _tables s' = _tables s /\ _indexes s' = _indexes s
  /\ forall tables T td a,
       _tables s = Some tables -> Dict.get T tables = Some td ->
       In a (field_addrs td) -> field_store s' !! a = field_store s !! a.

(** A sequence of accessor calls, each with the collaborator that answers
    it, run one after the other whatever their outcomes. *)
Fixpoint run_calls (PRIMARY_INDEX : string) (finalize : State -> addr -> result unit)
         (calls : list (Collaborator * accessor)) (s : State) : State :=
  match calls with
  | [] => s
  | (db, a) :: rest =>
      run_calls PRIMARY_INDEX finalize rest (fst (call PRIMARY_INDEX finalize db a s))
  end.

(** [v'] is the mapping [v] as a later call finds it: the cached dict is the
    same object, and of the three mappings only the indexes mapping is ever
    written to after it was cached, by the reads of [models()]. *)
Definition same_mapping (v v' : mapping) : Prop :=
  match v, v' with
  | TablesMap d, TablesMap d' => d' = d
  | IndexesMap D, IndexesMap D' => grown D D'
  | ModelsMap d, ModelsMap d' => d' = d
  | _, _ => False
  end.

(** The reading of the specification under which a failed build leaves no
    trace in the cached state. *)
Definition failed_build_restores_state : Prop :=
  forall PRIMARY_INDEX finalize db a s s' e,
    Inv PRIMARY_INDEX s ->
    call PRIMARY_INDEX finalize db a s = (s', Raise e) ->
    cached_state_unchanged s s'.

(** The reading of the specification under which only the first call of an
    accessor in a process issues queries. *)
Definition queries_on_first_call_only : Prop :=
  forall PRIMARY_INDEX finalize db a s1 r1 s2 r2,
    call PRIMARY_INDEX finalize db a init_state = (s1, r1) ->
    call PRIMARY_INDEX finalize db a s1 = (s2, r2) ->
    queries s2 = queries s1.

(** ** Sample catalogs *)

Module Samples.

Local Open Scope string_scope.

Definition PRIMARY_KEY : string := "PRIMARY_KEY".

Definition finalize_ok (s : State) (a : addr) : result unit := Ok tt.

(** Two tables, [Albums] interleaved in [Singers], fetched child first. *)
Definition music : Collaborator :=
  {| ColumnSchema_where := fun _ =>
       Ok [ ColumnSchema.mk "Singers" "id" 1 "INT64" false;
            ColumnSchema.mk "Singers" "name" 2 "STRING(MAX)" true;
            ColumnSchema.mk "Albums" "id" 1 "INT64" false;
            ColumnSchema.mk "Albums" "album" 2 "INT64" false;
            ColumnSchema.mk "Albums" "released" 3 "TIMESTAMP" true ];
     TableSchema_where := fun _ =>
       Ok [ TableSchema.mk "Albums" (Some "Singers");
            TableSchema.mk "Singers" None ];
     IndexColumnSchema_where := fun _ =>
       Ok [ IndexColumnSchema.mk "Singers" "by_name" "id" None;
            IndexColumnSchema.mk "Singers" "PRIMARY_KEY" "id" (Some 1);
            IndexColumnSchema.mk "Albums" "PRIMARY_KEY" "id" (Some 1);
            IndexColumnSchema.mk "Singers" "by_name" "name" (Some 1);
            IndexColumnSchema.mk "Albums" "PRIMARY_KEY" "album" (Some 2) ];
     IndexSchema_where := fun _ =>
       Ok [ IndexSchema.mk "Singers" "PRIMARY_KEY" None false true;
            IndexSchema.mk "Albums" "PRIMARY_KEY" (Some "Singers") false true;
            IndexSchema.mk "Singers" "by_name" None false false ] |}.

(** A catalog in which the second table has no index rows. *)
Definition no_primary_index : Collaborator :=
  {| ColumnSchema_where := fun _ =>
       Ok [ ColumnSchema.mk "T1" "id" 1 "INT64" false;
            ColumnSchema.mk "T2" "id" 1 "INT64" false ];
     TableSchema_where := fun _ =>
       Ok [ TableSchema.mk "T1" None; TableSchema.mk "T2" None ];
     IndexColumnSchema_where := fun _ =>
       Ok [ IndexColumnSchema.mk "T1" "PRIMARY_KEY" "id" (Some 1) ];
     IndexSchema_where := fun _ =>
       Ok [ IndexSchema.mk "T1" "PRIMARY_KEY" None false true ] |}.

(** A collaborator whose every query raises. *)
Definition unavailable : Collaborator :=
  {| ColumnSchema_where := fun _ => Raise CollaboratorError;
     TableSchema_where := fun _ => Raise CollaboratorError;
     IndexColumnSchema_where := fun _ => Raise CollaboratorError;
     IndexSchema_where := fun _ => Raise CollaboratorError |}.

(** The state after [tables()] and [indexes()] have been called. *)
Definition after_tables_and_indexes (db : Collaborator) : State :=
  fst (SpannerMetadata.indexes db (fst (SpannerMetadata.tables db init_state))).

(** A state whose tables cache holds a field that was constructed with
    [primary_key=True] although its column is no key column. *)
Definition stale_flags : State :=
  {| _models := None;
     _tables :=
       Some [("Singers",
              {| TableData.parent_table := None;
                 TableData.fields := [("id", 0%nat); ("name", 1%nat)] |})];
     _indexes := None;
     field_store :=
       [ mkField (Some "id") Integer false false 0 false (Some 1);
         mkField (Some "name") String_ true true 0 false (Some 2) ];
     class_store := [];
     queries := 2 |}.

End Samples.

(** ** Closed forms used by the further properties *)

(** The length as [Field.ddl] writes it: the configured length, or [MAX]
    when none is configured. *)
Definition length_text (length : Z) : string :=
  if FieldM.truthy length then PyStr.of_int length else "MAX"%string.

(** The type part of a column's DDL, with the length in place. *)
Definition sized_ddl (t : FieldType) (length : Z) : string :=
  match t with
  | String_ => String.append "STRING(" (String.append (length_text length) ")")
  | StringArray =>
      String.append "ARRAY<STRING(" (String.append (length_text length) ")>")
  | BytesBase64 => String.append "BYTES(" (String.append (length_text length) ")")
  | _ => FieldTypes.ddl t
  end.

Definition options_clause (allow_commit_timestamp : bool) : string :=
  if allow_commit_timestamp
  then " OPTIONS (allow_commit_timestamp=true)"%string
  else ""%string.

(** Whether [str(z)] returns rather than raises: [z] has no more digits
    than the interpreter's limit [max_str_digits], or the limit is lifted
    ([0]).  The sign is not counted. *)
Definition str_returns (max_str_digits : nat) (z : Z) : bool :=
  (max_str_digits =? 0)%nat
  || (String.length (PyStr.of_int (Z.abs z)) <=? max_str_digits)%nat.

(** [d[T][k]], when both keys are present. *)
Definition lookup2 {V : Type} (T k : string) (d : Dict.t string (Dict.t string V))
  : option V :=
  match Dict.get T d with
  | Some inner => Dict.get k inner
  | None => None
  end.

(** The state after one more query. *)
Definition asked (s : State) : State :=
  {| _models := _models s; _tables := _tables s; _indexes := _indexes s;
     field_store := field_store s; class_store := class_store s;
     queries := S (queries s) |}.

(** Lines 80-83 of [tables()]: the [Field] built from one column row. *)
Definition field_of_row (row : ColumnSchema.t) : result Field :=
  (try field_type <- ColumnSchema.field_type row;
   try new_field <- FieldM.init field_type (ColumnSchema.nullable row) false 0 false;
   Ok {| name := Some (ColumnSchema.column_name row);
         _type := _type new_field;
         _nullable := _nullable new_field;
         _primary_key := _primary_key new_field;
         _length := _length new_field;
         _allow_commit_timestamp := _allow_commit_timestamp new_field;
         position := Some (ColumnSchema.ordinal_position row) |})%result.

(** The fields built from the rows of a fetch, in fetch order; the first row
    that cannot be built raises. *)
Fixpoint fields_of_rows (rows : list ColumnSchema.t) : result (list Field) :=
  match rows with
  | [] => Ok []
  | row :: rest =>
      (try f <- field_of_row row;
       try fs <- fields_of_rows rest;
       Ok (f :: fs))%result
  end.

Definition of_column (T k : string) (row : ColumnSchema.t) : Prop :=
  ColumnSchema.table_name row = T /\ ColumnSchema.column_name row = k.

#[global] Instance of_column_dec T k row : Decision (of_column T k row).
Proof.
  unfold of_column. apply _.
Defined.

(** The position in the fetch of the last row for column [k] of table [T]. *)
Fixpoint last_row_index (T k : string) (rows : list ColumnSchema.t) : option nat :=
  match rows with
  | [] => None
  | row :: rest =>
      match last_row_index T k rest with
      | Some i => Some (S i)
      | None => if decide (of_column T k row) then Some 0%nat else None
      end
  end.

Definition of_index_row (T IDX : string) (row : IndexSchema.t) : Prop :=
  IndexSchema.table_name row = T /\ IndexSchema.index_name row = IDX.

#[global] Instance of_index_row_dec T IDX row : Decision (of_index_row T IDX row).
Proof.
  unfold of_index_row. apply _.
Defined.

(** The last index row for index [IDX] of table [T]. *)
Fixpoint last_index_row (T IDX : string) (rows : list IndexSchema.t)
  : option IndexSchema.t :=
  match rows with
  | [] => None
  | row :: rest =>
      match last_index_row T IDX rest with
      | Some r => Some r
      | None => if decide (of_index_row T IDX row) then Some row else None
      end
  end.

(** ** What the accessors build on the sample catalog *)

Module Built.

Import Samples.

Definition music_columns : list ColumnSchema.t :=
  Eval vm_compute in
    match ColumnSchema_where music 0 with Ok rows => rows | Raise _ => [] end.

Definition music_table_rows : list TableSchema.t :=
  Eval vm_compute in
    match TableSchema_where music 1 with Ok rows => rows | Raise _ => [] end.

Definition music_index_rows : list IndexSchema.t :=
  Eval vm_compute in
    match IndexSchema_where music 1 with Ok rows => rows | Raise _ => [] end.

Definition music_tables : Dict.t string TableData.t :=
  Eval vm_compute in
    match snd (SpannerMetadata.tables music init_state) with
    | Ok td => td
    | Raise _ => []
    end.

Definition music_indexes : Dict.t string (Dict.t string Index.t) :=
  Eval vm_compute in
    match snd (SpannerMetadata.indexes music init_state) with
    | Ok d => d
    | Raise _ => []
    end.

Definition music_models : Dict.t string addr :=
  Eval vm_compute in
    match snd (SpannerMetadata.models PRIMARY_KEY finalize_ok music init_state) with
    | Ok d => d
    | Raise _ => []
    end.

End Built.

(** * Properties of field.py *)

Section FieldProperties.

Import FieldTypes.

Example ddl_string_36 :
  rbind (FieldM.init String_ false false 36 false) (fun f => Ok (FieldM.ddl f))
  = Ok "STRING(36) NOT NULL"%string.
Proof. reflexivity. Qed.

Example ddl_string_array_nullable :
  rbind (FieldM.init StringArray true false 5 false) (fun f => Ok (FieldM.ddl f))
  = Ok "ARRAY<STRING(5)>"%string.
Proof. reflexivity. Qed.

Example matches_empty : matches String_ "" = Ok false.
Proof. reflexivity. Qed.

Example matches_string_36 : matches String_ "STRING(36)" = Ok true.
Proof. reflexivity. Qed.

Example matches_string_array : matches StringArray "ARRAY<STRING(MAX)>" = Ok true.
Proof. reflexivity. Qed.

Example length_on_boolean : FieldM.init Boolean false false 5 false = Raise ValidationError.
Proof. reflexivity. Qed.

Example length_on_integer : FieldM.init Integer false false 5 false = Raise ValidationError.
Proof. reflexivity. Qed.

(** *** The constructor *)

(** C5: [Field.__init__] raises ValidationError exactly when the length is
    negative, or positive on a type without length support, or the commit
    timestamp is allowed on a type without commit-timestamp support; in all
    other cases it builds the field with the attributes it was given. *)
Theorem Field_init_raises_exactly
        (field_type : FieldType) (nullable primary_key : bool)
        (length : Z) (allow_commit_timestamp : bool) :
  let invalid :=
    length < 0
    \/ (length > 0 /\ support_length field_type = false)
    \/ (allow_commit_timestamp = true /\ support_commit_timestamp field_type = false) in
  (FieldM.init field_type nullable primary_key length allow_commit_timestamp
     = Raise ValidationError <-> invalid)
  /\ (FieldM.init field_type nullable primary_key length allow_commit_timestamp
        = Ok (mkField None field_type nullable primary_key length
                      allow_commit_timestamp None)
      <-> ~ invalid).
Proof.
  unfold FieldM.init, FieldM.truthy. cbv zeta.
  destruct (Z.ltb_spec length 0) as [Hneg | Hpos];
    destruct (Z.eqb_spec length 0) as [Hz | Hnz];
    destruct field_type, allow_commit_timestamp; simpl;
    (split; split; intros H;
     first [ discriminate | reflexivity
           | solve [intuition (lia || discriminate)] ]).
Qed.

(** *** Validation *)

Section Validation.

Variable b64decode_ok : list Byte.byte -> bool.
Variable format_value : pyvalue -> result string.

Example validate_none_required :
  rbind (FieldM.init String_ false false 0 false)
        (fun f => FieldM.validate b64decode_ok format_value f PyNone)
  = Raise ValidationError.
Proof. reflexivity. Qed.

Example validate_none_nullable :
  rbind (FieldM.init String_ true false 0 false)
        (fun f => FieldM.validate b64decode_ok format_value f PyNone)
  = Ok tt.
Proof. reflexivity. Qed.

Example validate_string_42 :
  rbind (FieldM.init String_ false false 0 false)
        (fun f => FieldM.validate b64decode_ok format_value f (PyInt 42))
  = rbind (format_value (PyInt 42)) (fun _ => Raise ValidationError).
Proof. reflexivity. Qed.

Example validate_string_x :
  rbind (FieldM.init String_ false false 0 false)
        (fun f => FieldM.validate b64decode_ok format_value f (PyStr "x"))
  = Ok tt.
Proof. reflexivity. Qed.

(** C6: [validate(None)] raises ValidationError if and only if the field
    is not nullable (and succeeds otherwise); on a present value
    [validate] is the type's validator, so it succeeds if and only if the
    type's shape check accepts the value. *)
Theorem validate_none_and_present (f : Field) :
  (FieldM.validate b64decode_ok format_value f PyNone = Raise ValidationError
   <-> FieldM.nullable f = false)
  /\ (FieldM.validate b64decode_ok format_value f PyNone = Ok tt <-> FieldM.nullable f = true)
  /\ (forall v, v <> PyNone ->
        FieldM.validate b64decode_ok format_value f v
        = validate_type b64decode_ok format_value (FieldM.field_type f) v
        /\ (FieldM.validate b64decode_ok format_value f v = Ok tt
            <-> validate_type b64decode_ok format_value (FieldM.field_type f) v = Ok tt)).
Proof.
  unfold FieldM.validate, FieldM.nullable, FieldM.field_type.
  repeat split; destruct (_nullable f); simpl; intros; try discriminate; auto;
    destruct v; congruence.
Qed.

(** C10: the validator of [Float] accepts every int (and bool) as well
    as every float, and the validator of [Integer] accepts both bools, so
    a nullable Float field validates 42. *)
Theorem float_and_integer_validators_are_loose :
  (forall z, validate_type b64decode_ok format_value Float (PyInt z) = Ok tt)
  /\ (forall x, validate_type b64decode_ok format_value Float (PyFloat x) = Ok tt)
  /\ (forall b, validate_type b64decode_ok format_value Float (PyBool b) = Ok tt)
  /\ (forall b, validate_type b64decode_ok format_value Integer (PyBool b) = Ok tt)
  /\ (forall primary_key,
        rbind (FieldM.init Float true primary_key 0 false)
              (fun f => FieldM.validate b64decode_ok format_value f (PyInt 42)) = Ok tt)
  /\ (forall f b, FieldM.field_type f = Integer ->
                  FieldM.validate b64decode_ok format_value f (PyBool b) = Ok tt).
Proof.
  repeat split; try reflexivity.
  intros f b Hf. unfold FieldM.validate. unfold FieldM.field_type in Hf.
  rewrite Hf. reflexivity.
Qed.

End Validation.

(** *** DDL *)

(** C7: a Timestamp field that allows the commit timestamp renders as
    [TIMESTAMP OPTIONS (allow_commit_timestamp=true)] when nullable and as
    [TIMESTAMP NOT NULL OPTIONS (allow_commit_timestamp=true)] when not; for
    every field the OPTIONS clause comes after NOT NULL. *)
Theorem timestamp_commit_ddl (nullable primary_key : bool) :
  (exists f,
      FieldM.init Timestamp nullable primary_key 0 true = Ok f
      /\ FieldM.ddl f =
         if nullable
         then "TIMESTAMP OPTIONS (allow_commit_timestamp=true)"%string
         else "TIMESTAMP NOT NULL OPTIONS (allow_commit_timestamp=true)"%string)
  /\ (forall f, FieldM.nullable f = false -> _allow_commit_timestamp f = true ->
        exists base,
          FieldM.ddl f =
          String.append base " NOT NULL OPTIONS (allow_commit_timestamp=true)").
Proof.
  split.
  - eexists. split; [reflexivity |]. destruct nullable; reflexivity.
  - intros f Hn Ha. unfold FieldM.ddl, FieldM.nullable in *. rewrite Hn, Ha.
    eexists. reflexivity.
Qed.

(** *** Matching catalog type strings *)

Lemma prefix_of_slice (p s : string) :
  PyStr.slice_to (String.length p) s = p -> String.prefix p s = true.
Proof.
  unfold PyStr.slice_to. revert s.
  induction p as [| c p IH]; intros s H; [destruct s; reflexivity |].
  destruct s as [| c' s]; simpl in H; [discriminate |].
  injection H as Hc Hs. simpl. subst c'.
  destruct (ascii_dec c c) as [_ | Hne]; [auto | congruence].
Qed.

Lemma prefix_comparable (p q s : string) :
  String.prefix p s = true -> String.prefix q s = true ->
  String.prefix p q = true \/ String.prefix q p = true.
Proof.
  revert q s. induction p as [| c p IH]; intros q s Hp Hq;
    [left; destruct q; reflexivity |].
  destruct q as [| d q]; [right; reflexivity |].
  destruct s as [| e s]; simpl in Hp, Hq; [discriminate |].
  destruct (ascii_dec c e) as [-> | ]; [| discriminate].
  destruct (ascii_dec d e) as [-> | ]; [| discriminate].
  simpl. destruct (ascii_dec e e) as [_ | Hne]; [eauto | congruence].
Qed.

Lemma and_then_true (a : bool) (b : result bool) :
  and_then a b = Ok true -> a = true /\ b = Ok true.
Proof. destruct a; simpl; [auto | discriminate]. Qed.

Lemma matches_signature (t : FieldType) (type : string) :
  matches t type = Ok true -> String.prefix (signature t) type = true.
Proof.
  destruct t; simpl; intros H;
    try (injection H as H; apply String.eqb_eq in H; subst type; reflexivity);
    try (apply and_then_true in H as [H _]; apply String.eqb_eq in H;
         apply prefix_of_slice; exact H).
  injection H as H. exact H.
Qed.

Lemma get_in_range (s : string) (n : nat) :
  (n < String.length s)%nat -> exists c, String.get n s = Some c.
Proof.
  revert n. induction s as [| c s IH]; intros n Hn; simpl in Hn; [lia |].
  destruct n as [| n]; simpl; [eauto |]. apply IH. lia.
Qed.

Lemma last_is_total (s : string) (c : ascii) :
  s <> EmptyString -> exists b, last_is s c = Ok b.
Proof.
  intros Hs. unfold last_is, PyStr.getitem_last.
  destruct (get_in_range s (String.length s - 1)) as [x Hx].
  - destruct s; [congruence | simpl; lia].
  - rewrite Hx. simpl. eauto.
Qed.

(** [matches] never raises: the index [-1] is only taken of a string whose
    first characters are already known. *)
Lemma matches_total (t : FieldType) (type : string) :
  exists b, matches t type = Ok b.
Proof.
  destruct t; simpl; eauto.
  - destruct (String.eqb (PyStr.slice_to 7 type) "STRING(") eqn:E; simpl; eauto.
    apply last_is_total. intros ->. discriminate.
  - destruct (String.eqb (PyStr.slice_to 13 type) "ARRAY<STRING("); simpl; eauto.
  - destruct (String.eqb (PyStr.slice_to 6 type) "BYTES(") eqn:E; simpl; eauto.
    apply last_is_total. intros ->. discriminate.
Qed.

Lemma matches_exclusive (type : string) (a b : FieldType) :
  matches a type = Ok true -> matches b type = Ok true -> a = b.
Proof.
  intros Ha Hb.
  apply matches_signature in Ha. apply matches_signature in Hb.
  destruct (prefix_comparable _ _ _ Ha Hb) as [H | H];
    destruct a, b; try reflexivity; discriminate H.
Qed.

Lemma first_match_cases (types : list FieldType) (type : string) :
  (exists t, ColumnSchema.first_match types type = Ok t
             /\ In t types /\ matches t type = Ok true)
  \/ (ColumnSchema.first_match types type = Raise SchemaError
      /\ forall t, In t types -> matches t type = Ok false).
Proof.
  induction types as [| t types IH]; simpl.
  - right. split; [reflexivity | intros t []].
  - destruct (matches_total t type) as [[|] Hb]; rewrite Hb; simpl.
    + left. exists t. auto.
    + destruct IH as [(t' & H1 & H2 & H3) | [H1 H2]].
      * left. exists t'. auto.
      * right. split; [exact H1 |]. intros t' [<- | Hin]; auto.
  Qed.

(** C8: no type string is matched by two of the eight variants, so the
    first match over the variant list does not depend on the order of the
    list. *)
Theorem matches_at_most_one_variant (type : string) :
  (forall a b, In a ALL_TYPES -> In b ALL_TYPES ->
      matches a type = Ok true -> matches b type = Ok true -> a = b)
  /\ (forall types, Permutation ALL_TYPES types ->
        ColumnSchema.first_match types type
        = ColumnSchema.first_match ALL_TYPES type).
Proof.
  split.
  - intros a b _ _. apply matches_exclusive.
  - intros types Hperm.
    destruct (first_match_cases types type) as [(t & H1 & H2 & H3) | [H1 H2]];
      destruct (first_match_cases ALL_TYPES type) as [(t' & H1' & H2' & H3') | [H1' H2']];
      rewrite H1, H1'; try reflexivity.
    + f_equal. eapply matches_exclusive; eassumption.
    + apply (Permutation_in _ (Permutation_sym Hperm)) in H2.
      rewrite (H2' _ H2) in H3. discriminate.
    + apply (Permutation_in _ Hperm) in H2'.
      rewrite (H2 _ H2') in H3'. discriminate.
Qed.

Lemma matches_at_most_one_variant_witness :
  ColumnSchema.first_match (rev ALL_TYPES) "ARRAY<STRING(MAX)>"
  = ColumnSchema.first_match ALL_TYPES "ARRAY<STRING(MAX)>"
  /\ ColumnSchema.first_match ALL_TYPES "ARRAY<STRING(MAX)>" = Ok StringArray.
Proof.
  split; [| reflexivity].
  apply (proj2 (matches_at_most_one_variant "ARRAY<STRING(MAX)>")).
  apply Permutation_rev.
Defined.

End FieldProperties.

(** * Properties of admin/metadata.py *)

(** ** Dicts *)

Section DictFacts.
Context {K : Type} `{EqDecision K} {V : Type}.
Implicit Types (d : Dict.t K V) (k : K) (v : V).

Lemma get_setitem k k' v d :
  Dict.get k' (Dict.setitem k v d) = if decide (k = k') then Some v else Dict.get k' d.
Proof.
  induction d as [| [k0 v0] d IH]; simpl.
  - destruct (decide (k' = k)), (decide (k = k')); congruence.
  - destruct (decide (k = k0)) as [-> | Hne]; simpl.
    + destruct (decide (k' = k0)), (decide (k0 = k')); congruence.
    + destruct (decide (k' = k0)) as [-> | Hne'].
      * destruct (decide (k = k0)); congruence.
      * exact IH.
Qed.

Lemma get_setitem_eq k v d : Dict.get k (Dict.setitem k v d) = Some v.
Proof. rewrite get_setitem. destruct (decide (k = k)); congruence. Qed.

Lemma get_setitem_ne k k' v d :
  k <> k' -> Dict.get k' (Dict.setitem k v d) = Dict.get k' d.
Proof. intros. rewrite get_setitem. destruct (decide (k = k')); congruence. Qed.

Lemma keys_setitem k v d :
  forall k', In k' (Dict.keys (Dict.setitem k v d)) <-> k' = k \/ In k' (Dict.keys d).
Proof.
  unfold Dict.keys. induction d as [| [k0 v0] d IH]; intros k'; simpl.
  - intuition.
  - destruct (decide (k = k0)) as [-> | Hne]; simpl.
    + intuition.
    + rewrite IH. intuition.
Qed.

Lemma wf_setitem k v d : Dict.wf d -> Dict.wf (Dict.setitem k v d).
Proof.
  unfold Dict.wf. induction d as [| [k0 v0] d IH]; simpl; intros Hwf.
  - repeat constructor. intros Hin. inversion Hin.
  - apply List.NoDup_cons_iff in Hwf as [Hk0 Hd].
    destruct (decide (k = k0)) as [-> | Hne]; simpl.
    + apply List.NoDup_cons_iff; auto.
    + apply List.NoDup_cons_iff; split; auto.
      intros Hin.
      apply (keys_setitem k v d k0) in Hin as [-> | Hin]; auto.
Qed.

Lemma wf_empty : Dict.wf (@Dict.empty K V).
Proof. constructor. Qed.

Lemma get_In k v d : Dict.get k d = Some v -> In (k, v) d.
Proof.
  induction d as [| [k0 v0] d IH]; simpl; [discriminate |].
  destruct (decide (k = k0)) as [-> | Hne]; intros Hg.
  - left. congruence.
  - right. auto.
Qed.

Lemma In_get k v d : Dict.wf d -> In (k, v) d -> Dict.get k d = Some v.
Proof.
  unfold Dict.wf, Dict.keys.
  induction d as [| [k0 v0] d IH]; simpl; intros Hwf Hin; [contradiction |].
  apply List.NoDup_cons_iff in Hwf as [Hk0 Hd].
  destruct Hin as [Heq | Hin].
  - injection Heq as -> ->. destruct (decide (k = k)); congruence.
  - destruct (decide (k = k0)) as [-> | Hne]; auto.
    exfalso. apply Hk0.
    apply (in_map fst) in Hin. exact Hin.
Qed.

Lemma get_keys k d : In k (Dict.keys d) <-> exists v, Dict.get k d = Some v.
Proof.
  unfold Dict.keys. induction d as [| [k0 v0] d IH]; simpl.
  - split; [contradiction | intros [? ?]; discriminate].
  - destruct (decide (k = k0)) as [-> | Hne].
    + split; eauto.
    + rewrite <- IH. intuition congruence.
Qed.

Lemma values_setitem k v d :
  forall x, In x (Dict.values (Dict.setitem k v d)) -> x = v \/ In x (Dict.values d).
Proof.
  unfold Dict.values. induction d as [| [k0 v0] d IH]; intros x; simpl.
  - intuition.
  - destruct (decide (k = k0)) as [-> | Hne]; simpl.
    + intuition.
    + intros [-> | Hin]; auto. apply IH in Hin. intuition.
Qed.

Lemma get_getitem_default (dflt : V) k k' d :
  Dict.get k' (fst (Dict.getitem_default dflt k d))
  = match Dict.get k' d with
    | Some v => Some v
    | None => if decide (k = k') then Some dflt else None
    end.
Proof.
  unfold Dict.getitem_default. destruct (Dict.get k d) eqn:Hk; simpl.
  - destruct (Dict.get k' d) eqn:Hk'; auto.
    destruct (decide (k = k')); congruence.
  - rewrite get_setitem. destruct (decide (k = k')) as [<- | Hne].
    + rewrite Hk. reflexivity.
    + destruct (Dict.get k' d); reflexivity.
Qed.

Lemma snd_getitem_default (dflt : V) k d :
  snd (Dict.getitem_default dflt k d) = default dflt (Dict.get k d).
Proof. unfold Dict.getitem_default. destruct (Dict.get k d); reflexivity. Qed.

Lemma wf_getitem_default (dflt : V) k d :
  Dict.wf d -> Dict.wf (fst (Dict.getitem_default dflt k d)).
Proof.
  unfold Dict.getitem_default. destruct (Dict.get k d); simpl; auto using wf_setitem.
Qed.

(** Where equal values never sit under different keys, the values of a
    dict are pairwise distinct. *)
Lemma values_NoDup d :
  Dict.wf d ->
  (forall k1 k2 v, Dict.get k1 d = Some v -> Dict.get k2 d = Some v -> k1 = k2) ->
  List.NoDup (Dict.values d).
Proof.
  unfold Dict.wf, Dict.keys, Dict.values.
  induction d as [| [k0 v0] d IH]; simpl; intros Hwf Hinj; [constructor |].
  apply List.NoDup_cons_iff in Hwf as [Hk0 Hd].
  assert (Hget : forall k v, In (k, v) d -> Dict.get k ((k0, v0) :: d) = Some v).
  { intros k v Hin. apply In_get; [| right; exact Hin].
    unfold Dict.wf, Dict.keys. simpl. apply List.NoDup_cons_iff; auto. }
  apply List.NoDup_cons_iff. split.
  - intros Hin. apply in_map_iff in Hin as [[k v] [Hv Hin]].
    simpl in Hv. subst v. apply Hk0.
    assert (k = k0) as ->.
    { apply (Hinj k k0 v0); [apply Hget; exact Hin |].
      simpl. destruct (decide (k0 = k0)); congruence. }
    apply (in_map fst) in Hin. exact Hin.
  - apply IH; auto. intros k1 k2 v H1 H2.
    apply (Hinj k1 k2 v); apply Hget; apply get_In; assumption.
Qed.

Lemma get_getitem_default_eq (dflt : V) k d :
  Dict.get k (fst (Dict.getitem_default dflt k d))
  = Some (snd (Dict.getitem_default dflt k d)).
Proof.
  rewrite get_getitem_default, snd_getitem_default.
  destruct (Dict.get k d); simpl; [reflexivity |].
  destruct (decide (k = k)); congruence.
Qed.

Lemma get_getitem_default_old (dflt : V) k k' d v :
  Dict.get k' d = Some v -> Dict.get k' (fst (Dict.getitem_default dflt k d)) = Some v.
Proof. intros Hg. rewrite get_getitem_default, Hg. reflexivity. Qed.

End DictFacts.

Lemma lookup_list_getitem_default {K} `{EqDecision K} {V} (k k' : K)
    (d : Dict.t K (list V)) :
lookup_list k' (fst (Dict.getitem_default [] k d)) = lookup_list k' d.
Proof.
unfold lookup_list. rewrite get_getitem_default.
destruct (Dict.get k' d); [reflexivity |]. destruct (decide (k = k')); reflexivity.
Qed.

(** ** indexes() *)

Section IndexesFacts.

Import SpannerMetadata.

Lemma lookup_list_append_to (key key' : index_key) (c : string)
      (d : Dict.t index_key (list string)) :
  lookup_list key' (append_to key c d)
  = if decide (key = key') then lookup_list key' d ++ [c] else lookup_list key' d.
Proof.
  unfold append_to.
  pose proof (lookup_list_getitem_default key key' d) as Hfst.
  pose proof (snd_getitem_default [] key d) as Hsnd.
  destruct (Dict.getitem_default [] key d) as [d' l]. simpl in Hfst, Hsnd.
  unfold lookup_list at 1. rewrite get_setitem.
  destruct (decide (key = key')) as [<- | Hne]; simpl.
  - rewrite Hsnd. reflexivity.
  - exact Hfst.
Qed.

Lemma key_rows_cons T IDX r rows :
  key_rows T IDX (r :: rows)
  = if of_index T IDX r && has_ordinal r
    then r :: key_rows T IDX rows else key_rows T IDX rows.
Proof. reflexivity. Qed.

Lemma storing_rows_cons T IDX r rows :
  storing_rows T IDX (r :: rows)
  = if of_index T IDX r && negb (has_ordinal r)
    then r :: storing_rows T IDX rows else storing_rows T IDX rows.
Proof. reflexivity. Qed.

Lemma indexes_columns_spec (rows : list IndexColumnSchema.t)
      (ic sc : Dict.t index_key (list string)) (T IDX : string) :
  lookup_list (T, IDX) (fst (indexes_columns rows ic sc))
  = lookup_list (T, IDX) ic ++ map IndexColumnSchema.column_name (key_rows T IDX rows)
  /\ lookup_list (T, IDX) (snd (indexes_columns rows ic sc))
     = lookup_list (T, IDX) sc
       ++ map IndexColumnSchema.column_name (storing_rows T IDX rows).
Proof.
  revert ic sc. induction rows as [| r rows IH]; intros ic sc.
  - simpl. rewrite !app_nil_r. auto.
  - rewrite key_rows_cons, storing_rows_cons. simpl indexes_columns.
    unfold has_ordinal, of_index.
    destruct (IndexColumnSchema.ordinal_position r) as [o |].
    + destruct (IH (append_to (IndexColumnSchema.table_name r,
                               IndexColumnSchema.index_name r)
                              (IndexColumnSchema.column_name r) ic) sc) as [IH1 IH2].
      rewrite IH1, IH2, lookup_list_append_to.
      case_decide; case_bool_decide; try congruence; simpl;
        rewrite <- ?app_assoc; auto.
    + destruct (IH ic (append_to (IndexColumnSchema.table_name r,
                                  IndexColumnSchema.index_name r)
                                 (IndexColumnSchema.column_name r) sc)) as [IH1 IH2].
      rewrite IH1, IH2, lookup_list_append_to.
      case_decide; case_bool_decide; try congruence; simpl;
        rewrite <- ?app_assoc; auto.
Qed.

Lemma built_from_ext ic sc ic' sc' D :
  (forall key, lookup_list key ic' = lookup_list key ic) ->
  (forall key, lookup_list key sc' = lookup_list key sc) ->
  built_from ic sc D -> built_from ic' sc' D.
Proof.
  intros Hic Hsc Hb T of_table IDX i HT HI. rewrite Hic, Hsc. eapply Hb; eauto.
Qed.

Lemma indexes_rows_spec (rows : list IndexSchema.t)
      (ic sc : Dict.t index_key (list string))
      (D : Dict.t string (Dict.t string Index.t)) :
  built_from ic sc D -> built_from ic sc (indexes_rows rows ic sc D).
Proof.
  revert ic sc D. induction rows as [| r rows IH]; intros ic sc D HD; simpl; [exact HD |].
  set (key := (IndexSchema.table_name r, IndexSchema.index_name r)).
  pose proof (fun k => lookup_list_getitem_default key k ic) as Hic.
  pose proof (snd_getitem_default [] key ic) as Hcols.
  destruct (Dict.getitem_default [] key ic) as [ic' cols]. simpl in Hic, Hcols.
  pose proof (fun k => lookup_list_getitem_default key k sc) as Hsc.
  pose proof (snd_getitem_default [] key sc) as Hstoring.
  destruct (Dict.getitem_default [] key sc) as [sc' storing]. simpl in Hsc, Hstoring.
  pose proof (fun k => get_getitem_default (@Dict.empty string Index.t)
                                           (IndexSchema.table_name r) k D) as HD'.
  pose proof (snd_getitem_default (@Dict.empty string Index.t)
                                  (IndexSchema.table_name r) D) as Hof.
  destruct (Dict.getitem_default Dict.empty (IndexSchema.table_name r) D)
    as [D' of_table]. simpl in HD', Hof.
  apply (built_from_ext ic' sc'); [symmetry; apply Hic | symmetry; apply Hsc |].
  apply IH. apply (built_from_ext ic sc); [apply Hic | apply Hsc |].
  intros T of_table' IDX i HT HI.
  rewrite get_setitem in HT.
  destruct (decide (IndexSchema.table_name r = T)) as [<- | HneT].
  - injection HT as <-. rewrite get_setitem in HI.
    destruct (decide (IndexSchema.index_name r = IDX)) as [<- | HneI].
    + injection HI as <-. simpl. subst cols storing. auto.
    + subst of_table. destruct (Dict.get (IndexSchema.table_name r) D) as [old |] eqn:Hold;
        simpl in HI; [| discriminate].
      eapply HD; eauto.
  - rewrite HD' in HT. destruct (Dict.get T D) eqn:HTD.
    + injection HT as <-. eapply HD; eauto.
    + destruct (decide (IndexSchema.table_name r = T)); congruence.
Qed.

Lemma built_from_empty ic sc : built_from ic sc Dict.empty.
Proof. intros T of_table IDX i HT. discriminate. Qed.

Lemma ordinals_filter_le (p : IndexColumnSchema.t -> bool) r o rows :
  IndexColumnSchema.ordinal_position r = Some o ->
  Forall (ordinal_le r) rows -> Forall (Z.le o) (ordinals (List.filter p rows)).
Proof.
  intros Hr. unfold ordinals. induction rows as [| r' rows IH]; intros Hall; simpl.
  - constructor.
  - apply Forall_cons_1 in Hall as [Hle Hall].
    destruct (p r'); simpl; auto.
    unfold ordinal_le in Hle. rewrite Hr in Hle.
    destruct (IndexColumnSchema.ordinal_position r'); simpl; auto.
Qed.

Lemma ordinals_filter_sorted (p : IndexColumnSchema.t -> bool) rows :
  StronglySorted ordinal_le rows -> StronglySorted Z.le (ordinals (List.filter p rows)).
Proof.
  induction rows as [| r rows IH]; intros Hs; simpl; [constructor |].
  apply StronglySorted_inv in Hs as [Hs Hall].
  destruct (p r); simpl; auto.
  unfold ordinals. simpl.
  destruct (IndexColumnSchema.ordinal_position r) as [o |] eqn:Hr; simpl.
  - constructor; [apply IH; exact Hs |].
    eapply ordinals_filter_le; eauto.
  - apply IH. exact Hs.
Qed.

Lemma ordinals_key_rows_length T IDX rows :
  length (ordinals (key_rows T IDX rows)) = length (key_rows T IDX rows).
Proof.
  induction rows as [| r rows IH]; [reflexivity |].
  rewrite key_rows_cons. unfold has_ordinal.
  destruct (of_index T IDX r); simpl; auto.
  destruct (IndexColumnSchema.ordinal_position r) eqn:Ho; simpl; auto.
  unfold ordinals in *. simpl. rewrite Ho. simpl. auto.
Qed.

(** C4: the key columns of an index are the column names of its rows with
    an ordinal position, in fetch order, which is ascending ordinal order
    when the fetch is ordered so; its storing columns are the column names
    of its rows without an ordinal position. *)
Theorem indexes_columns_by_ordinal (db : Collaborator) (s s' : State)
        (D : Dict.t string (Dict.t string Index.t))
        (rows : list IndexColumnSchema.t)
        (T IDX : string) (of_table : Dict.t string Index.t) (i : Index.t) :
  _indexes s = None ->
  IndexColumnSchema_where db (queries s) = Ok rows ->
  StronglySorted ordinal_le rows ->
  indexes db s = (s', Ok D) ->
  Dict.get T D = Some of_table -> Dict.get IDX of_table = Some i ->
  Index.columns i = map IndexColumnSchema.column_name (key_rows T IDX rows)
  /\ StronglySorted Z.le (ordinals (key_rows T IDX rows))
  /\ length (ordinals (key_rows T IDX rows)) = length (Index.columns i)
  /\ Index.storing_columns i
     = map IndexColumnSchema.column_name (storing_rows T IDX rows)
  /\ (forall c, In c (Index.storing_columns i) <->
        exists r, In r rows
                  /\ IndexColumnSchema.table_name r = T
                  /\ IndexColumnSchema.index_name r = IDX
                  /\ IndexColumnSchema.ordinal_position r = None
                  /\ IndexColumnSchema.column_name r = c).
Proof.
  intros Hnone Hrows Hsorted Hrun HT HI.
  unfold indexes in Hrun. rewrite Hnone in Hrun.
  unfold bind, Store.query in Hrun. simpl in Hrun. rewrite Hrows in Hrun.
  destruct (indexes_columns_spec rows Dict.empty Dict.empty T IDX) as [Hic Hsc].
  destruct (indexes_columns rows Dict.empty Dict.empty) as [ic sc]. simpl in Hic, Hsc.
  cbn in Hrun.
  destruct (IndexSchema_where db (S (queries s))) as [index_schemas | e];
    [| discriminate].
  cbn in Hrun. injection Hrun as _ <-.
  destruct (indexes_rows_spec index_schemas ic sc Dict.empty (built_from_empty ic sc)
                              T of_table IDX i HT HI) as (Hc & Hst & _).
  rewrite Hic in Hc. rewrite Hsc in Hst. simpl in Hc, Hst.
  pose proof (ordinals_key_rows_length T IDX rows) as Hlen.
  repeat split.
  - exact Hc.
  - apply ordinals_filter_sorted. exact Hsorted.
  - rewrite Hc, length_map. exact Hlen.
  - exact Hst.
  - rewrite Hst. intros Hin. apply in_map_iff in Hin as (r & Hr & Hin).
    unfold storing_rows in Hin. apply filter_In in Hin as [Hin Hp].
    apply andb_prop in Hp as [Hk Ho]. unfold of_index in Hk.
    apply bool_decide_eq_true_1 in Hk. injection Hk as Ht Hi.
    exists r. repeat split; auto.
    unfold has_ordinal in Ho. destruct (IndexColumnSchema.ordinal_position r);
      [discriminate | reflexivity].
  - intros (r & Hin & Ht & Hi & Ho & Hc'). rewrite Hst. apply in_map_iff.
    exists r. split; [exact Hc' |]. unfold storing_rows. apply filter_In.
    split; [exact Hin |]. unfold of_index, has_ordinal. rewrite Ho, Ht, Hi.
    rewrite bool_decide_eq_true_2; reflexivity.
Qed.

End IndexesFacts.

(** ** Computations *)

Ltac splits := repeat match goal with |- _ /\ _ => split end.

Lemma bind_inv {A B} (m : M A) (k : A -> M B) (s s' : State) (r : result B) :
  bind m k s = (s', r) ->
  (exists e, m s = (s', Raise e) /\ r = Raise e)
  \/ (exists s1 a, m s = (s1, Ok a) /\ k a s1 = (s', r)).
Proof.
  unfold bind. destruct (m s) as [s1 [a | e]]; intros H.
  - right. eauto.
  - left. injection H as <- <-. eauto.
Qed.

Lemma bind_Ok {A B} (m : M A) (k : A -> M B) (s s' : State) (b : B) :
  bind m k s = (s', Ok b) -> exists s1 a, m s = (s1, Ok a) /\ k a s1 = (s', Ok b).
Proof.
  intros H. apply bind_inv in H as [(e & _ & He) | H]; [discriminate | exact H].
Qed.

(** ** tables() *)

Section TablesFacts.

Import SpannerMetadata.
Variable db : Collaborator.

Lemma tables_columns_frame (columns : list ColumnSchema.t) :
  forall cd s s' r, tables_columns columns cd s = (s', r) -> only_new_fields s s'.
Proof.
  induction columns as [| row columns IH]; intros cd s s' r H; simpl in H.
  - injection H as <- _. repeat split. exists []. now rewrite app_nil_r.
  - unfold bind, lift in H.
    destruct (ColumnSchema.field_type row) as [ft | e].
    2:{ injection H as <- _. repeat split. exists []. now rewrite app_nil_r. }
    destruct (FieldM.init ft (ColumnSchema.nullable row) false 0 false) as [f | e].
    2:{ injection H as <- _. repeat split. exists []. now rewrite app_nil_r. }
    unfold Store.new_field in H.
    destruct (Dict.getitem_default Dict.empty (ColumnSchema.table_name row) cd)
      as [cd1 of_table].
    apply IH in H. destruct H as (H1 & H2 & H3 & H4 & H5 & extra & H6).
    cbn in *. repeat split; auto.
    eexists. rewrite H6, <- app_assoc. reflexivity.
Qed.

Lemma column_data_ok_empty n : column_data_ok n Dict.empty.
Proof. split; intros; discriminate. Qed.

Lemma column_data_ok_step (n : nat) (cd : Dict.t string (Dict.t string addr))
      (T C : string) :
  column_data_ok n cd ->
  column_data_ok (S n)
    (Dict.setitem T (Dict.setitem C n (snd (Dict.getitem_default Dict.empty T cd)))
                  (fst (Dict.getitem_default Dict.empty T cd))).
Proof.
  intros [Hvalid Hdisj].
  assert (Hold : forall a, In a (Dict.values (snd (Dict.getitem_default Dict.empty T cd))) ->
                           exists d, Dict.get T cd = Some d /\ In a (Dict.values d)).
  { intros a. rewrite snd_getitem_default.
    destruct (Dict.get T cd) as [d |]; simpl; [eauto | contradiction]. }
  assert (Hother : forall T' d, T <> T' ->
            Dict.get T' (fst (Dict.getitem_default Dict.empty T cd)) = Some d ->
            Dict.get T' cd = Some d).
  { intros T' d Hne. rewrite get_getitem_default.
    destruct (Dict.get T' cd); [auto |]. destruct (decide (T = T')); congruence. }
  assert (Hnew : forall a, In a (Dict.values
              (Dict.setitem C n (snd (Dict.getitem_default Dict.empty T cd)))) ->
            a = n \/ exists d, Dict.get T cd = Some d /\ In a (Dict.values d)).
  { intros a Ha. apply values_setitem in Ha as [-> | Ha]; auto. }
  split.
  - intros T' d a. rewrite get_setitem.
    destruct (decide (T = T')) as [<- | Hne]; intros Hg Ha.
    + injection Hg as <-. apply Hnew in Ha as [-> | (d & Hd & Ha)]; [lia |].
      apply (Hvalid _ _ _ Hd) in Ha. lia.
    + apply (Hother _ _ Hne) in Hg. apply (Hvalid _ _ _ Hg) in Ha. lia.
  - intros T1 d1 T2 d2 a. rewrite !get_setitem.
    destruct (decide (T = T1)) as [<- | Hne1]; destruct (decide (T = T2)) as [<- | Hne2];
      intros Hg1 Hg2 Ha1 Ha2; auto.
    + injection Hg1 as <-. apply (Hother _ _ Hne2) in Hg2.
      pose proof (Hvalid _ _ _ Hg2 Ha2).
      apply Hnew in Ha1 as [-> | (d & Hd & Ha1)]; [lia |].
      eapply Hdisj; eauto.
    + injection Hg2 as <-. apply (Hother _ _ Hne1) in Hg1.
      pose proof (Hvalid _ _ _ Hg1 Ha1).
      apply Hnew in Ha2 as [-> | (d & Hd & Ha2)]; [lia |].
      eapply Hdisj; eauto.
    + apply (Hother _ _ Hne1) in Hg1. apply (Hother _ _ Hne2) in Hg2.
      eapply Hdisj; eauto.
Qed.

Lemma tables_columns_ok (columns : list ColumnSchema.t) :
  forall cd s s' cd',
    tables_columns columns cd s = (s', Ok cd') ->
    column_data_ok (length (field_store s)) cd ->
    column_data_ok (length (field_store s')) cd'.
Proof.
  induction columns as [| row columns IH]; intros cd s s' cd' H Hok; simpl in H.
  - injection H as <- <-. exact Hok.
  - unfold bind, lift in H.
    destruct (ColumnSchema.field_type row) as [ft | e]; [| discriminate].
    destruct (FieldM.init ft (ColumnSchema.nullable row) false 0 false) as [f | e];
      [| discriminate].
    unfold Store.new_field in H.
    pose proof (column_data_ok_step _ _ (ColumnSchema.table_name row)
                                    (ColumnSchema.column_name row) Hok) as Hstep.
    destruct (Dict.getitem_default Dict.empty (ColumnSchema.table_name row) cd)
      as [cd1 of_table].
    apply IH in H; [exact H |].
    cbn. rewrite length_app. cbn. rewrite Nat.add_1_r. exact Hstep.
Qed.

Lemma fields_getitem_default (T T' : string) (cd : Dict.t string (Dict.t string addr)) :
  default Dict.empty (Dict.get T' (fst (Dict.getitem_default Dict.empty T cd)))
  = default Dict.empty (Dict.get T' cd).
Proof.
  rewrite get_getitem_default. destruct (Dict.get T' cd); [reflexivity |].
  destruct (decide (T = T')); reflexivity.
Qed.

Lemma tables_rows_fields (rows : list TableSchema.t) :
  forall cd td,
    (forall T x, Dict.get T td = Some x ->
                 TableData.fields x = default Dict.empty (Dict.get T cd)) ->
    forall T x, Dict.get T (tables_rows rows cd td) = Some x ->
                TableData.fields x = default Dict.empty (Dict.get T cd).
Proof.
  induction rows as [| row rows IH]; intros cd td Hinv T x; simpl; [apply Hinv |].
  pose proof (fun T' => fields_getitem_default (TableSchema.table_name row) T' cd) as Hsame.
  pose proof (snd_getitem_default Dict.empty (TableSchema.table_name row) cd) as Hsnd.
  destruct (Dict.getitem_default Dict.empty (TableSchema.table_name row) cd)
    as [cd1 fields]. simpl in Hsame, Hsnd.
  intros Hg. rewrite <- Hsame. revert T x Hg. apply IH.
  intros T x. rewrite get_setitem, Hsame.
  destruct (decide (TableSchema.table_name row = T)) as [<- | Hne]; intros Hg.
  - injection Hg as <-. simpl. exact Hsnd.
  - apply Hinv. exact Hg.
Qed.

Lemma tables_rows_wf (rows : list TableSchema.t) :
  forall cd td, Dict.wf td -> Dict.wf (tables_rows rows cd td).
Proof.
  induction rows as [| row rows IH]; intros cd td Hwf; simpl; [exact Hwf |].
  destruct (Dict.getitem_default Dict.empty (TableSchema.table_name row) cd)
    as [cd1 fields].
  apply IH. apply wf_setitem. exact Hwf.
Qed.

(** The entry of a table carries the parent of its rows. *)
Lemma tables_rows_parent (rows : list TableSchema.t) (B : string) (p : option string) :
  (forall row, In row rows -> TableSchema.table_name row = B ->
               TableSchema.parent_table_name row = p) ->
  forall cd td,
    (exists row, In row rows /\ TableSchema.table_name row = B)
    \/ (exists x, Dict.get B td = Some x /\ TableData.parent_table x = p) ->
    exists x, Dict.get B (tables_rows rows cd td) = Some x
              /\ TableData.parent_table x = p.
Proof.
  induction rows as [| row rows IH]; intros Hall cd td Hex; simpl.
  - destruct Hex as [(row & [] & _) | Hex]. exact Hex.
  - destruct (Dict.getitem_default Dict.empty (TableSchema.table_name row) cd)
      as [cd1 fields].
    apply IH; [intros row' Hin; apply Hall; now right |].
    rewrite get_setitem.
    destruct (decide (TableSchema.table_name row = B)) as [Heq | Hne].
    + right. eexists. split; [reflexivity |]. simpl.
      apply Hall; [now left | exact Heq].
    + destruct Hex as [(row' & [<- | Hin] & Hname) | Hex];
        [congruence | left; eauto | right; exact Hex].
Qed.

Lemma tables_rows_present (rows : list TableSchema.t) (A : string) :
  forall cd td,
    (exists row, In row rows /\ TableSchema.table_name row = A)
    \/ (exists x, Dict.get A td = Some x) ->
    exists x, Dict.get A (tables_rows rows cd td) = Some x.
Proof.
  induction rows as [| row rows IH]; intros cd td Hex; simpl.
  - destruct Hex as [(row & [] & _) | Hex]. exact Hex.
  - destruct (Dict.getitem_default Dict.empty (TableSchema.table_name row) cd)
      as [cd1 fields].
    apply IH. rewrite get_setitem.
    destruct (decide (TableSchema.table_name row = A)) as [Heq | Hne]; [eauto |].
    destruct Hex as [(row' & [<- | Hin] & Hname) | Hex];
      [congruence | left; eauto | right; exact Hex].
Qed.

Lemma tables_wf_of_column_data (fs : list Field)
      (cd : Dict.t string (Dict.t string addr)) (td : Dict.t string TableData.t) :
  column_data_ok (length fs) cd -> Dict.wf td ->
  (forall T x, Dict.get T td = Some x ->
               TableData.fields x = default Dict.empty (Dict.get T cd)) ->
  tables_wf fs td.
Proof.
  intros [Hvalid Hdisj] Hwf Hfields.
  assert (Hin : forall T x a, Dict.get T td = Some x -> In a (field_addrs x) ->
                  exists d, Dict.get T cd = Some d /\ In a (Dict.values d)).
  { intros T x a Hg. unfold field_addrs. rewrite (Hfields _ _ Hg).
    destruct (Dict.get T cd) as [d |]; simpl; [eauto | contradiction]. }
  split; [exact Hwf |]. split.
  - intros T x a Hg Ha. destruct (Hin _ _ _ Hg Ha) as (d & Hd & Ha'). eauto.
  - intros T1 x1 T2 x2 a Hg1 Hg2 Ha1 Ha2.
    destruct (Hin _ _ _ Hg1 Ha1) as (d1 & Hd1 & Ha1').
    destruct (Hin _ _ _ Hg2 Ha2) as (d2 & Hd2 & Ha2'). eauto.
Qed.

(** What a call of [tables()] does, whatever its outcome. *)
Lemma tables_inv (s s' : State) (r : result (Dict.t string TableData.t)) :
  tables db s = (s', r) ->
  (exists cached, _tables s = Some cached /\ s' = s /\ r = Ok cached)
  \/ (_tables s = None
      /\ _models s' = _models s /\ _indexes s' = _indexes s
      /\ class_store s' = class_store s
      /\ (exists extra, field_store s' = field_store s ++ extra)
      /\ (queries s < queries s')%nat
      /\ match r with
         | Raise _ => _tables s' = None
         | Ok td =>
             _tables s' = Some td /\ tables_wf (field_store s') td
             /\ exists cd rows,
                 TableSchema_where db (S (queries s)) = Ok rows
                 /\ td = tables_rows rows cd Dict.empty
         end).
Proof.
  unfold tables. destruct (_tables s) as [cached |] eqn:Hc; intros H.
  - left. injection H as <- <-. eauto.
  - right. split; [reflexivity |].
    apply bind_inv in H as [(e & H & ->) | (s1 & columns & Hq & H)].
    { unfold Store.query in H. injection H as <- _. cbn.
      splits; auto. exists []. now rewrite app_nil_r. }
    unfold Store.query in Hq. injection Hq as <- Hcols.
    apply bind_inv in H as [(e & H & ->) | (s2 & cd & Hcd & H)].
    { apply tables_columns_frame in H as (H1 & H2 & H3 & H4 & H5 & H6). cbn in *.
      splits; auto; try lia. congruence. }
    pose proof (tables_columns_ok _ _ _ _ _ Hcd (column_data_ok_empty _)) as Hok.
    apply tables_columns_frame in Hcd as (H1 & H2 & H3 & H4 & H5 & H6). cbn in *.
    destruct (TableSchema_where db (queries s2)) as [rows | e] eqn:Hrows.
    + unfold ret in H. injection H as <- <-. cbn.
      splits; auto; try lia.
      * apply (tables_wf_of_column_data (field_store s2) cd).
        -- exact Hok.
        -- apply tables_rows_wf, wf_empty.
        -- apply tables_rows_fields. intros T x Hg. discriminate.
      * exists cd, rows. rewrite H5 in Hrows. auto.
    + injection H as <- <-. cbn. splits; auto; try lia. congruence.
Qed.

End TablesFacts.

(** ** indexes(), as a state transition *)

Section IndexesCall.

Import SpannerMetadata.
Variable db : Collaborator.

(** What a call of [indexes()] does, whatever its outcome. *)
Lemma indexes_inv (s s' : State) (r : result (Dict.t string (Dict.t string Index.t))) :
  indexes db s = (s', r) ->
  (exists cached, _indexes s = Some cached /\ s' = s /\ r = Ok cached)
  \/ (_indexes s = None
      /\ _models s' = _models s /\ _tables s' = _tables s
      /\ field_store s' = field_store s /\ class_store s' = class_store s
      /\ (queries s < queries s')%nat
      /\ match r with
         | Raise _ => _indexes s' = None
         | Ok D => _indexes s' = Some D
         end).
Proof.
  unfold indexes. destruct (_indexes s) as [cached |] eqn:Hc; intros H.
  - left. injection H as <- <-. eauto.
  - right. split; [reflexivity |].
    unfold bind, Store.query in H. cbn in H.
    destruct (IndexColumnSchema_where db (queries s)) as [rows | e].
    2:{ injection H as <- <-. cbn. splits; auto. }
    destruct (indexes_columns rows Dict.empty Dict.empty) as [ic sc]. cbn in H.
    destruct (IndexSchema_where db (S (queries s))) as [index_schemas | e].
    + cbn in H. injection H as <- <-. cbn. splits; auto.
    + injection H as <- <-. cbn. splits; auto.
Qed.

End IndexesCall.

(** ** models(): the first pass *)

Section FirstPass.

Import SpannerMetadata.
Variable PRIMARY_INDEX : string.

Lemma mark_twice K (o : option Field) : mark K <$> (mark K <$> o) = mark K <$> o.
Proof. destruct o; reflexivity. Qed.

(** The marking loop never raises; it rewrites exactly the fields it is
    given, whatever their earlier flag. *)
Lemma mark_primary_keys_spec (K : list string) (addrs : list addr) :
  forall s, exists fs,
    mark_primary_keys K addrs s = (Store.put_fields fs s, Ok tt)
    /\ length fs = length (field_store s)
    /\ (forall a, In a addrs -> fs !! a = mark K <$> field_store s !! a)
    /\ (forall a, ~ In a addrs -> fs !! a = field_store s !! a).
Proof.
  induction addrs as [| a0 addrs IH]; intros s; simpl.
  - exists (field_store s). splits; auto; [| intros a []].
    unfold ret. destruct s; reflexivity.
  - unfold bind, Store.update_field.
    destruct (IH (Store.put_fields (alter (mark K) a0 (field_store s)) s))
      as (fs & Hrun & Hlen & Hin & Hout).
    rewrite Hrun. cbn in *. exists fs. splits.
    + reflexivity.
    + rewrite Hlen. apply length_alter.
    + intros a Ha. destruct (in_dec Nat.eq_dec a addrs) as [Hrest | Hrest].
      * rewrite (Hin a Hrest). destruct (decide (a0 = a)) as [<- | Hne].
        -- rewrite list_lookup_alter_eq.
           apply mark_twice.
        -- rewrite list_lookup_alter_ne by exact Hne. reflexivity.
      * destruct Ha as [<- | Ha]; [| contradiction].
        rewrite (Hout a0 Hrest). apply list_lookup_alter_eq.
    + intros a Ha. rewrite Hout by tauto.
      apply list_lookup_alter_ne. intros <-. apply Ha. now left.
Qed.

(** One iteration of the first pass, whatever its outcome: it can only
    fail on the lookup of the primary index, before any field is marked. *)
Lemma pass1_body_inv (T : string) (td : TableData.t)
      (D : Dict.t string (Dict.t string Index.t)) (ms : Dict.t string addr)
      (s s' : State)
      (r : result (Dict.t string (Dict.t string Index.t) * Dict.t string addr)) :
  models_pass1_body PRIMARY_INDEX T td D ms s = (s', r) ->
  let D1 := fst (Dict.getitem_default Dict.empty T D) in
  let of_table := snd (Dict.getitem_default Dict.empty T D) in
  _tables s' = _tables s /\ _models s' = _models s /\ queries s' = queries s
  /\ _indexes s' = Some D1
  /\ length (field_store s') = length (field_store s)
  /\ (forall a, ~ In a (field_addrs td) -> field_store s' !! a = field_store s !! a)
  /\ match r with
     | Raise _ =>
         field_store s' = field_store s /\ class_store s' = class_store s
         /\ Dict.get PRIMARY_INDEX of_table = None
     | Ok (D', ms') =>
         D' = D1 /\ ms' = Dict.setitem T (length (class_store s)) ms
         /\ exists primary_index,
             Dict.get PRIMARY_INDEX of_table = Some primary_index
             /\ (forall a, In a (field_addrs td) ->
                   field_store s' !! a
                   = mark (Index.columns primary_index) <$> field_store s !! a)
             /\ class_store s'
                = class_store s
                  ++ [{| Metadata.table := T;
                         Metadata.fields := TableData.fields td;
                         Metadata.interleaved :=
                           interleaved_of (TableData.parent_table td);
                         Metadata.indexes := of_table;
                         Metadata.model_class := length (class_store s) |}]
     end.
Proof.
  unfold models_pass1_body, indexes_getitem. intros H. cbv zeta.
  destruct (Dict.getitem_default Dict.empty T D) as [D1 of_table]. simpl fst. simpl snd.
  unfold bind at 1 in H. unfold bind at 1 in H. unfold Store.set_indexes, ret in H.
  cbn beta iota in H.
  unfold bind at 1 in H. unfold lift, Dict.getitem in H.
  destruct (Dict.get PRIMARY_INDEX of_table) as [primary_index |] eqn:Hpi.
  - unfold bind at 1 in H.
    match type of H with context [mark_primary_keys ?K ?l ?st] =>
      destruct (mark_primary_keys_spec K l st) as (fs & Hrun & Hlen & Hin & Hout);
      rewrite Hrun in H
    end.
    unfold bind, Store.new_class, ret in H. cbn in H. injection H as <- <-.
    cbn in *. splits; auto. eauto.
  - injection H as <- <-. cbn. splits; auto.
Qed.

(** The first pass, whatever its outcome. *)
Lemma pass1_frame (items : list (string * TableData.t)) :
  forall D ms s s' r,
    models_pass1 PRIMARY_INDEX items D ms s = (s', r) ->
    _indexes s = Some D ->
    _tables s' = _tables s /\ _models s' = _models s /\ queries s' = queries s
    /\ length (field_store s') = length (field_store s)
    /\ (forall a, (forall T td, In (T, td) items -> ~ In a (field_addrs td)) ->
                  field_store s' !! a = field_store s !! a)
    /\ (exists extra, class_store s' = class_store s ++ extra)
    /\ (exists D', _indexes s' = Some D'
                   /\ forall T x, Dict.get T D = Some x -> Dict.get T D' = Some x).
Proof.
  induction items as [| [T td] items IH]; intros D ms s s' r H HD; simpl in H.
  - injection H as <- _. splits; auto; [exists []; now rewrite app_nil_r | eauto].
  - apply bind_inv in H as [(e & H & ->) | (s1 & [D1 ms1] & Hbody & H)].
    + apply pass1_body_inv in H as (H1 & H2 & H3 & H4 & H5 & H6 & H7 & H8 & _).
      splits; auto.
      * intros a Ha. apply H6. eapply Ha. now left.
      * exists []. rewrite app_nil_r. exact H8.
      * eexists. split; [exact H4 |]. intros T' x. apply get_getitem_default_old.
    + apply pass1_body_inv in Hbody
        as (H1 & H2 & H3 & H4 & H5 & H6 & -> & -> & pi & Hpi & Hmark & Hcls).
      simpl in H. apply IH in H; [| exact H4].
      destruct H as (I1 & I2 & I3 & I4 & I5 & (extra & I6) & (D' & I7 & I8)).
      splits; try congruence.
      * intros a Ha. rewrite I5, H6; auto.
        -- eapply Ha. now left.
        -- intros T' td' Hin. eapply Ha. right. exact Hin.
      * eexists. rewrite I6, Hcls, <- app_assoc. reflexivity.
      * exists D'. split; [exact I7 |]. intros T' x Hg.
        apply I8. apply get_getitem_default_old. exact Hg.
Qed.

(** The first pass, when it completes: one fresh class per table, with the
    fields of the table marked from its primary index. *)
Lemma pass1_Ok (items : list (string * TableData.t)) :
  forall D ms s s' ms',
    models_pass1 PRIMARY_INDEX items D ms s = (s', Ok ms') ->
    _indexes s = Some D ->
    List.NoDup (map fst items) ->
    (forall T td a, In (T, td) items -> In a (field_addrs td) ->
                    (a < length (field_store s))%nat) ->
    (forall T1 td1 T2 td2 a,
        In (T1, td1) items -> In (T2, td2) items ->
        In a (field_addrs td1) -> In a (field_addrs td2) -> T1 = T2) ->
    (forall T, ~ In T (map fst items) -> Dict.get T ms' = Dict.get T ms)
    /\ (forall T td, In (T, td) items ->
          exists c, Dict.get T ms' = Some c
                    /\ (length (class_store s) <= c)%nat
                    /\ entry_ok PRIMARY_INDEX s' T td c)
    /\ (forall T1 td1 T2 td2 c,
          In (T1, td1) items -> In (T2, td2) items ->
          Dict.get T1 ms' = Some c -> Dict.get T2 ms' = Some c -> T1 = T2).
Proof.
  induction items as [| [T td] items IH];
    intros D ms s s' ms' H HD Hnodup Hvalid Hdisj; simpl in H.
  - injection H as _ <-. splits; auto.
    + intros T td [].
    + intros T1 td1 T2 td2 c [].
  - apply bind_Ok in H as (s1 & [D1 ms1] & Hbody & H).
    pose proof Hbody as Hb.
    apply pass1_body_inv in Hb
      as (H1 & H2 & H3 & H4 & H5 & H6 & -> & -> & pi & Hpi & Hmark & Hcls).
    simpl in H, Hnodup. apply List.NoDup_cons_iff in Hnodup as [HT Hnodup].
    pose proof (pass1_frame _ _ _ _ _ _ H H4)
      as (F1 & F2 & F3 & F4 & F5 & (extra & F6) & (D' & F7 & F8)).
    assert (Hvalid' : forall T' td' a, In (T', td') items -> In a (field_addrs td') ->
                                       (a < length (field_store s1))%nat).
    { intros T' td' a Hin Ha. rewrite H5. eapply Hvalid; [right; exact Hin | exact Ha]. }
    assert (Hdisj' : forall T1 td1 T2 td2 a,
               In (T1, td1) items -> In (T2, td2) items ->
               In a (field_addrs td1) -> In a (field_addrs td2) -> T1 = T2).
    { intros T1 td1 T2 td2 a Hin1 Hin2. eapply Hdisj; right; eassumption. }
    destruct (IH _ _ _ _ _ H H4 Hnodup Hvalid' Hdisj') as (I1 & I2 & I3).
    assert (Hhead : Dict.get T ms' = Some (length (class_store s))).
    { rewrite (I1 T HT). apply get_setitem_eq. }
    assert (Hlen1 : length (class_store s1) = S (length (class_store s))).
    { rewrite Hcls, length_app. simpl. lia. }
    splits.
    + intros T' HT'. rewrite I1 by (intros Hin; apply HT'; now right).
      apply get_setitem_ne. intros <-. apply HT'. now left.
    + intros T' td' [Heq | Hin].
      * injection Heq as <- <-. exists (length (class_store s)). splits; auto.
        exists D', (snd (Dict.getitem_default Dict.empty T D)), pi. splits; auto.
        -- apply F8. apply get_getitem_default_eq.
        -- rewrite F6. apply lookup_app_l_Some. rewrite Hcls.
           apply list_lookup_middle. reflexivity.
        -- intros a Ha.
           assert (Hlt : (a < length (field_store s))%nat)
             by (eapply Hvalid; [now left | exact Ha]).
           apply lookup_lt_is_Some_2 in Hlt as [f0 Hf0].
           exists (mark (Index.columns pi) f0). split; [| reflexivity].
           assert (Hkeep : field_store s' !! a = field_store s1 !! a).
           { apply F5. intros T2 td2 Hin2 Ha2. apply HT.
             assert (T = T2) as ->
                 by (eapply (Hdisj T td T2 td2 a); auto; [now left | now right]).
             apply (in_map fst) in Hin2. exact Hin2. }
           rewrite Hkeep, (Hmark a Ha), Hf0. reflexivity.
      * destruct (I2 T' td' Hin) as (c & Hc & Hle & Hentry).
        exists c. splits; auto. lia.
    + intros T1 td1 T2 td2 c [Heq1 | Hin1] [Heq2 | Hin2] Hg1 Hg2.
      * congruence.
      * injection Heq1 as <- <-. destruct (I2 T2 td2 Hin2) as (c2 & Hc2 & Hle & _).
        rewrite Hhead in Hg1. injection Hg1 as <-. rewrite Hg2 in Hc2.
        injection Hc2 as <-. lia.
      * injection Heq2 as <- <-. destruct (I2 T1 td1 Hin1) as (c1 & Hc1 & Hle & _).
        rewrite Hhead in Hg2. injection Hg2 as <-. rewrite Hg1 in Hc1.
        injection Hc1 as <-. lia.
      * eapply I3; eauto.
Qed.

End FirstPass.

(** ** models(): the second pass *)

Section SecondPass.

Import SpannerMetadata.
Variable finalize : State -> addr -> result unit.

Lemma set_interleaved_same (m : Metadata.t) :
  Metadata.set_interleaved (Metadata.interleaved m) m = m.
Proof. destruct m; reflexivity. Qed.

(** One iteration of the second pass, whatever its outcome: only the
    [interleaved] attribute of the visited class can change. *)
Lemma pass2_body_inv (c : addr) (ms : Dict.t string addr) (s s' : State)
      (r : result unit) :
  models_pass2_body finalize c ms s = (s', r) ->
  _tables s' = _tables s /\ _models s' = _models s /\ _indexes s' = _indexes s
  /\ queries s' = queries s /\ field_store s' = field_store s
  /\ length (class_store s') = length (class_store s)
  /\ (forall c', c' <> c -> class_store s' !! c' = class_store s !! c')
  /\ (r = Ok tt ->
      exists meta i',
        class_store s !! c = Some meta
        /\ class_store s' !! c = Some (Metadata.set_interleaved i' meta)
        /\ resolved_from ms (Metadata.interleaved meta) i').
Proof.
  unfold models_pass2_body, Store.get_class. intros H.
  unfold bind at 1 in H.
  destruct (class_store s !! c) as [meta |] eqn:Hmeta.
  2:{ injection H as <- <-. splits; auto. discriminate. }
  unfold bind at 1 in H. unfold resolved_from.
  destruct (interleaved_truthy (Metadata.interleaved meta)) eqn:Htruthy.
  - unfold bind at 1, lift in H.
    destruct (models_getitem ms (Metadata.interleaved meta)) as [p | e] eqn:Hp.
    2:{ injection H as <- <-. splits; auto. discriminate. }
    unfold Store.update_class in H. injection H as <- <-. cbn.
    splits; auto using length_alter.
    + intros c' Hne. apply list_lookup_alter_ne. congruence.
    + intros _. exists meta, (ParentClass p).
      rewrite list_lookup_alter_eq, Hmeta, Htruthy. splits; eauto.
  - unfold ret in H. injection H as <- <-. splits; auto.
    intros _. exists meta, (Metadata.interleaved meta).
    rewrite set_interleaved_same, Htruthy. auto.
Qed.

(** The second pass, whatever its outcome. *)
Lemma pass2_frame (values : list addr) (ms : Dict.t string addr) :
  forall s s' r,
    models_pass2 finalize values ms s = (s', r) ->
    _tables s' = _tables s /\ _models s' = _models s /\ _indexes s' = _indexes s
    /\ queries s' = queries s /\ field_store s' = field_store s
    /\ length (class_store s') = length (class_store s)
    /\ (forall c, ~ In c values -> class_store s' !! c = class_store s !! c).
Proof.
  induction values as [| c values IH]; intros s s' r H; simpl in H.
  - injection H as <- _. splits; auto.
  - apply bind_inv in H as [(e & H & ->) | (s1 & [] & Hbody & H)].
    + apply pass2_body_inv in H as (H1 & H2 & H3 & H4 & H5 & H6 & H7 & _).
      splits; auto. intros c' Hc'. apply H7. intros ->. apply Hc'. now left.
    + apply pass2_body_inv in Hbody as (H1 & H2 & H3 & H4 & H5 & H6 & H7 & _).
      apply IH in H as (I1 & I2 & I3 & I4 & I5 & I6 & I7).
      splits; try congruence.
      intros c' Hc'. rewrite I7, H7; auto.
      * intros ->. apply Hc'. now left.
      * intros Hin. apply Hc'. now right.
Qed.

(** The second pass, when it completes: every class it visits has its
    parent resolved against the registry. *)
Lemma pass2_Ok (values : list addr) (ms : Dict.t string addr) :
  forall s s',
    models_pass2 finalize values ms s = (s', Ok tt) ->
    List.NoDup values ->
    forall c, In c values ->
      exists meta i',
        class_store s !! c = Some meta
        /\ class_store s' !! c = Some (Metadata.set_interleaved i' meta)
        /\ resolved_from ms (Metadata.interleaved meta) i'.
Proof.
  induction values as [| c0 values IH]; intros s s' H Hnodup c Hin; simpl in H.
  - destruct Hin.
  - apply List.NoDup_cons_iff in Hnodup as [Hc0 Hnodup].
    apply bind_Ok in H as (s1 & [] & Hbody & H).
    pose proof (pass2_frame _ _ _ _ _ H) as (_ & _ & _ & _ & _ & _ & F7).
    apply pass2_body_inv in Hbody as (_ & _ & _ & _ & _ & _ & H7 & Hres).
    destruct Hin as [<- | Hin].
    + destruct (Hres eq_refl) as (meta & i' & Hm & Hm' & Hr).
      exists meta, i'. rewrite (F7 c0 Hc0). auto.
    + destruct (IH _ _ H Hnodup c Hin) as (meta & i' & Hm & Hm' & Hr).
      exists meta, i'. splits; auto.
      rewrite <- H7; [exact Hm |]. intros ->. contradiction.
Qed.

End SecondPass.

(** ** models() *)

Section ModelsFacts.

Import SpannerMetadata.
Variable PRIMARY_INDEX : string.
Variable finalize : State -> addr -> result unit.
Variable db : Collaborator.

Lemma tables_wf_length (fs fs' : list Field) (t : Dict.t string TableData.t) :
  length fs' = length fs -> tables_wf fs t -> tables_wf fs' t.
Proof.
  intros Hlen (Hwf & Hvalid & Hdisj). split; [exact Hwf |]. split; [| exact Hdisj].
  intros T td a Hg Ha. rewrite Hlen. eauto.
Qed.

Lemma resolved_of_resolved_from (ms : Dict.t string addr) (parent : option string)
      (i' : interleaved_t) :
  resolved_from ms (interleaved_of parent) i' -> resolved ms parent i'.
Proof.
  unfold resolved_from, resolved. destruct parent as [n |]; simpl; [| auto].
  destruct (String.eqb n ""); simpl; [auto |].
  intros (p & Hp & ->). exists p. split; [| reflexivity].
  unfold Dict.getitem in Hp. destruct (Dict.get n ms); congruence.
Qed.

Lemma pass1_wf (items : list (string * TableData.t)) :
  forall D ms s s' ms',
    models_pass1 PRIMARY_INDEX items D ms s = (s', Ok ms') ->
    Dict.wf ms -> Dict.wf ms'.
Proof.
  induction items as [| [T td] items IH]; intros D ms s s' ms' H Hwf; simpl in H.
  - injection H as _ <-. exact Hwf.
  - apply bind_Ok in H as (s1 & [D1 ms1] & Hbody & H).
    apply pass1_body_inv in Hbody as (_ & _ & _ & _ & _ & _ & _ & -> & _).
    simpl in H. apply IH in H; [exact H |]. apply wf_setitem. exact Hwf.
Qed.

Lemma In_keys_entry {V} (d : Dict.t string V) (k : string) :
  In k (map fst d) -> exists v, In (k, v) d.
Proof.
  intros Hin. apply in_map_iff in Hin as [[k' v] [Hk Hin]]. simpl in Hk. subst k'.
  eauto.
Qed.

(** The two passes together, from a state in which both mappings are
    cached, yield finished descriptors. *)
Lemma passes_Ok (td : Dict.t string TableData.t)
      (D : Dict.t string (Dict.t string Index.t))
      (s2 s3 s4 : State) (ms : Dict.t string addr) :
  _tables s2 = Some td -> tables_wf (field_store s2) td -> _indexes s2 = Some D ->
  models_pass1 PRIMARY_INDEX (Dict.items td) D Dict.empty s2 = (s3, Ok ms) ->
  models_pass2 finalize (Dict.values ms) ms s3 = (s4, Ok tt) ->
  models_ok PRIMARY_INDEX s4 ms.
Proof.
  intros Htd (Hwf & Hvalid & Hdisj) HD H1 H2. unfold Dict.items in H1.
  pose proof (pass1_wf _ _ _ _ _ _ H1 wf_empty) as Hwfms.
  pose proof (pass1_frame _ _ _ _ _ _ _ H1 HD) as (F1 & F2 & F3 & F4 & F5 & F6 & F7).
  pose proof (pass2_frame _ _ _ _ _ _ H2) as (G1 & G2 & G3 & G4 & G5 & G6 & G7).
  destruct (pass1_Ok _ _ _ _ _ _ _ H1 HD) as (I1 & I2 & I3).
  { exact Hwf. }
  { intros T x a Hin Ha. eapply Hvalid; [apply In_get; eauto | exact Ha]. }
  { intros T1 x1 T2 x2 a Hin1 Hin2. eapply Hdisj; apply In_get; eauto. }
  assert (Hkey : forall T c, Dict.get T ms = Some c -> exists x, In (T, x) td).
  { intros T c Hg. destruct (in_dec string_dec T (map fst td)) as [Hin | Hout].
    - apply In_keys_entry. exact Hin.
    - rewrite (I1 T Hout) in Hg. discriminate. }
  assert (Hnodup : List.NoDup (Dict.values ms)).
  { apply values_NoDup; [exact Hwfms |]. intros k1 k2 c Hg1 Hg2.
    destruct (Hkey _ _ Hg1) as [x1 Hx1]. destruct (Hkey _ _ Hg2) as [x2 Hx2].
    eapply I3; eauto. }
  split.
  - intros T c Hg. destruct (Hkey _ _ Hg) as [x Hx].
    destruct (I2 T x Hx) as (c' & Hc' & _ & Hentry).
    rewrite Hg in Hc'. injection Hc' as <-.
    destruct Hentry as (D' & of_table & pi & HD' & HT & Hpi & Hcls & Hmarked).
    assert (Hin : In c (Dict.values ms)).
    { apply get_In in Hg. apply (in_map snd) in Hg. exact Hg. }
    destruct (pass2_Ok _ _ _ _ _ H2 Hnodup c Hin) as (meta & i' & Hm & Hm' & Hres).
    rewrite Hcls in Hm. injection Hm as <-.
    exists td, D', x, of_table, pi. eexists. splits.
    + congruence.
    + apply In_get; assumption.
    + congruence.
    + exact HT.
    + exact Hpi.
    + exact Hm'.
    + reflexivity.
    + reflexivity.
    + reflexivity.
    + reflexivity.
    + apply resolved_of_resolved_from. exact Hres.
    + rewrite G5. exact Hmarked.
  - exists td. split; [congruence |]. intros T x Hg.
    apply get_In in Hg. destruct (I2 T x Hg) as (c & Hc & _). eauto.
Qed.

Lemma models_ok_frame (s s' : State) (ms : Dict.t string addr) :
  _tables s' = _tables s -> _indexes s' = _indexes s ->
  field_store s' = field_store s -> class_store s' = class_store s ->
  models_ok PRIMARY_INDEX s ms -> models_ok PRIMARY_INDEX s' ms.
Proof.
  intros Ht Hi Hf Hc [Hm Hcov]. split.
  - intros T c Hg.
    destruct (Hm T c Hg) as (t & D & td & of_table & pi & meta & H).
    exists t, D, td, of_table, pi, meta. rewrite Ht, Hi, Hf, Hc. exact H.
  - rewrite Ht. exact Hcov.
Qed.

Lemma Inv_unset (s : State) :
  _models s = None ->
  (forall t, _tables s = Some t -> tables_wf (field_store s) t) ->
  Inv PRIMARY_INDEX s.
Proof. intros Hm Ht. split; [exact Ht |]. intros ms Hms. congruence. Qed.

(** What a call of [models()] does from a state that satisfies the
    invariant, whatever its outcome. *)
Lemma models_run (s s' : State) (r : result (Dict.t string addr)) :
  Inv PRIMARY_INDEX s ->
  models PRIMARY_INDEX finalize db s = (s', r) ->
  Inv PRIMARY_INDEX s'
  /\ (forall t, _tables s = Some t -> _tables s' = Some t)
  /\ match r with
     | Ok ms =>
         _models s' = Some ms /\ models_ok PRIMARY_INDEX s' ms
         /\ (_tables s = None ->
             exists cd rows,
               TableSchema_where db (S (queries s)) = Ok rows
               /\ _tables s' = Some (tables_rows rows cd Dict.empty))
     | Raise _ => _models s = None /\ _models s' = None
     end.
Proof.
  intros HInv H. unfold models in H.
  destruct (_models s) as [cached |] eqn:Hc.
  { injection H as <- <-. destruct HInv as [Htables Hmodels]. splits; auto.
    - split; assumption.
    - intros Hnone. destruct (Hmodels _ Hc) as [_ (t & Ht & _)]. congruence. }
  destruct HInv as [Htables _].
  (* tables() *)
  apply bind_inv in H as [(e & H & ->) | (s1 & td & Ht & H)].
  { apply tables_inv in H
      as [(t & _ & _ & Hr) | (Hn & H1 & H2 & H3 & H4 & H5 & H6)]; [discriminate |].
    splits; try congruence. apply Inv_unset; congruence. }
  assert (Hs1 : _tables s1 = Some td /\ tables_wf (field_store s1) td
                /\ _models s1 = None
                /\ (forall t, _tables s = Some t -> t = td)
                /\ (_tables s = None ->
                    exists cd rows,
                      TableSchema_where db (S (queries s)) = Ok rows
                      /\ td = tables_rows rows cd Dict.empty)).
  { apply tables_inv in Ht
      as [(t & Hcached & -> & Hr) | (Hn & H1 & H2 & H3 & H4 & H5 & H6 & H7 & H8)].
    - injection Hr as <-. splits; auto; congruence.
    - splits; auto; congruence. }
  clear Ht. destruct Hs1 as (Htd & Hwf & Hm1 & Hsame & Hbuilt).
  (* indexes() *)
  apply bind_inv in H as [(e & H & ->) | (s2 & D & Hi & H)].
  { apply indexes_inv in H
      as [(t & _ & _ & Hr) | (Hn & H1 & H2 & H3 & H4 & H5 & H6)]; [discriminate |].
    splits; try congruence.
    - apply Inv_unset; [congruence |]. intros t Ht. rewrite H3.
      assert (t = td) as -> by congruence. exact Hwf.
    - intros t Ht. rewrite (Hsame t Ht). congruence. }
  assert (Hs2 : _tables s2 = Some td /\ field_store s2 = field_store s1
                /\ _models s2 = None /\ _indexes s2 = Some D
                /\ (queries s1 <= queries s2)%nat).
  { apply indexes_inv in Hi
      as [(t & Hcached & -> & Hr) | (Hn & H1 & H2 & H3 & H4 & H5 & H6)].
    - injection Hr as <-. splits; auto.
    - splits; auto; try congruence. lia. }
  clear Hi. destruct Hs2 as (Htd2 & Hfs2 & Hm2 & HD2 & _).
  rewrite <- Hfs2 in Hwf.
  (* first pass *)
  apply bind_inv in H as [(e & H & ->) | (s3 & ms & Hp1 & H)].
  { apply pass1_frame with (1 := H) in HD2 as (F1 & F2 & F3 & F4 & _).
    splits; try congruence.
    - apply Inv_unset; [congruence |]. intros t Ht.
      assert (t = td) as -> by congruence.
      eapply tables_wf_length; [exact F4 | exact Hwf].
    - intros t Ht. rewrite (Hsame t Ht). congruence. }
  pose proof (pass1_frame _ _ _ _ _ _ _ Hp1 HD2) as (F1 & F2 & F3 & F4 & _).
  (* second pass *)
  apply bind_inv in H as [(e & H & ->) | (s4 & [] & Hp2 & H)].
  { apply pass2_frame in H as (G1 & G2 & G3 & G4 & G5 & _).
    splits; try congruence.
    - apply Inv_unset; [congruence |]. intros t Ht.
      assert (t = td) as -> by congruence.
      eapply tables_wf_length; [| exact Hwf]. congruence.
    - intros t Ht. rewrite (Hsame t Ht). congruence. }
  pose proof (passes_Ok _ _ _ _ _ _ Htd2 Hwf HD2 Hp1 Hp2) as Hok.
  pose proof (pass2_frame _ _ _ _ _ _ Hp2) as (G1 & G2 & G3 & G4 & G5 & _).
  unfold bind, Store.set_models, ret in H. injection H as <- <-.
  assert (Hok' : models_ok PRIMARY_INDEX
                   {| _models := Some ms; _tables := _tables s4;
                      _indexes := _indexes s4; field_store := field_store s4;
                      class_store := class_store s4; queries := queries s4 |} ms).
  { eapply models_ok_frame; [| | | | exact Hok]; reflexivity. }
  cbn. splits; auto.
  - split; cbn.
    + intros t Ht. assert (t = td) as -> by congruence.
      eapply tables_wf_length; [| exact Hwf]. congruence.
    + intros ms' Hms'. injection Hms' as <-. exact Hok'.
  - intros t Ht. rewrite (Hsame t Ht). congruence.
  - intros Hnone. destruct (Hbuilt Hnone) as (cd & rows & Hrows & ->).
    exists cd, rows. split; [exact Hrows | congruence].
Qed.

End ModelsFacts.

(** ** The invariant holds in every reachable state *)

Section Reachable.

Import SpannerMetadata.
Variable PRIMARY_INDEX : string.
Variable finalize : State -> addr -> result unit.

Lemma Inv_init_state : Inv PRIMARY_INDEX init_state.
Proof. split; intros ? H; discriminate H. Qed.

Lemma Inv_tables (db : Collaborator) (s s' : State) r :
  Inv PRIMARY_INDEX s -> tables db s = (s', r) -> Inv PRIMARY_INDEX s'.
Proof.
  intros HInv H.
  apply tables_inv in H as [(t & _ & -> & _) | (Hn & H1 & H2 & H3 & H4 & H5 & H6)];
    [exact HInv |].
  destruct HInv as [_ Hmodels].
  apply Inv_unset.
  - destruct (_models s) as [ms |] eqn:Hms; [| congruence].
    destruct (Hmodels ms eq_refl) as [_ (t & Ht & _)]. congruence.
  - intros t Ht. destruct r as [td | e]; [| congruence].
    destruct H6 as (Htd & Hwf & _). congruence.
Qed.

Lemma Inv_indexes (db : Collaborator) (s s' : State) r :
  Inv PRIMARY_INDEX s -> indexes db s = (s', r) -> Inv PRIMARY_INDEX s'.
Proof.
  intros HInv H.
  apply indexes_inv in H as [(t & _ & -> & _) | (Hn & H1 & H2 & H3 & H4 & H5 & H6)];
    [exact HInv |].
  destruct HInv as [Htables Hmodels]. split.
  - intros t Ht. rewrite H3. apply Htables. congruence.
  - intros ms Hms. rewrite H1 in Hms. destruct (Hmodels ms Hms) as [Hm Hcov]. split.
    + intros T c Hg. destruct (Hm T c Hg) as (t & D & _ & _ & _ & _ & _ & _ & HD & _).
      congruence.
    + rewrite H2. exact Hcov.
Qed.

Lemma call_inv (db : Collaborator) (a : accessor) (s s' : State) (r : result mapping) :
  call PRIMARY_INDEX finalize db a s = (s', r) ->
  match a with
  | Tables => exists r0, tables db s = (s', r0)
                /\ r = rbind r0 (fun d => Ok (TablesMap d))
  | Indexes => exists r0, indexes db s = (s', r0)
                 /\ r = rbind r0 (fun d => Ok (IndexesMap d))
  | Models => exists r0, models PRIMARY_INDEX finalize db s = (s', r0)
                /\ r = rbind r0 (fun d => Ok (ModelsMap d))
  end.
Proof.
  destruct a; simpl; unfold bind, ret; intros H.
  - destruct (tables db s) as [s1 [d | e]]; injection H as <- <-; eexists; eauto.
  - destruct (indexes db s) as [s1 [d | e]]; injection H as <- <-; eexists; eauto.
  - destruct (models PRIMARY_INDEX finalize db s) as [s1 [d | e]];
      injection H as <- <-; eexists; eauto.
Qed.

(** Every accessor call, successful or not, preserves the invariant. *)
Lemma Inv_call (db : Collaborator) (a : accessor) (s s' : State) (r : result mapping) :
  Inv PRIMARY_INDEX s -> call PRIMARY_INDEX finalize db a s = (s', r) ->
  Inv PRIMARY_INDEX s'.
Proof.
  intros HInv H. apply call_inv in H. destruct a; destruct H as (r0 & H & _).
  - eapply Inv_tables; eauto.
  - eapply Inv_indexes; eauto.
  - eapply models_run; eauto.
Qed.

End Reachable.

(** ** What a failed call leaves behind *)

Section Traces.

Import SpannerMetadata.
Variable PRIMARY_INDEX : string.
Variable finalize : State -> addr -> result unit.
Variable db : Collaborator.

Lemma set_primary_key_same (f : Field) : set_primary_key (_primary_key f) f = f.
Proof. destruct f; reflexivity. Qed.

Lemma grown_refl D : grown D D.
Proof. split; auto. Qed.

Lemma grown_trans D1 D2 D3 : grown D1 D2 -> grown D2 D3 -> grown D1 D3.
Proof.
  intros [H1 H1'] [H2 H2']. split; [auto |].
  intros T x Hg. destruct (H2' T x Hg) as [Hg2 | ->]; auto.
Qed.

Lemma grown_getitem_default D T :
  grown D (fst (Dict.getitem_default Dict.empty T D)).
Proof.
  split.
  - intros T' x. apply get_getitem_default_old.
  - intros T' x. rewrite get_getitem_default.
    destruct (Dict.get T' D); [auto |].
    destruct (decide (T = T')); [| discriminate]. intros Hx. right. congruence.
Qed.

Lemma fields_but_primary_key_refl fs : fields_but_primary_key fs fs.
Proof. intros a f Hf. exists (_primary_key f). now rewrite set_primary_key_same. Qed.

Lemma fields_but_primary_key_trans fs1 fs2 fs3 :
  fields_but_primary_key fs1 fs2 -> fields_but_primary_key fs2 fs3 ->
  fields_but_primary_key fs1 fs3.
Proof.
  intros H1 H2 a f Hf. destruct (H1 a f Hf) as [b Hb].
  destruct (H2 a _ Hb) as [b' Hb']. exists b'. exact Hb'.
Qed.

Lemma fields_but_primary_key_app fs extra : fields_but_primary_key fs (fs ++ extra).
Proof.
  intros a f Hf. exists (_primary_key f). rewrite set_primary_key_same.
  apply lookup_app_l_Some. exact Hf.
Qed.

Lemma traces_refl s : traces s s.
Proof.
  split; [| apply fields_but_primary_key_refl].
  intros D HD. exists D. split; [exact HD | apply grown_refl].
Qed.

Lemma traces_trans s1 s2 s3 : traces s1 s2 -> traces s2 s3 -> traces s1 s3.
Proof.
  intros [H1 F1] [H2 F2]. split; [| eapply fields_but_primary_key_trans; eauto].
  intros D HD. destruct (H1 D HD) as (D2 & HD2 & G1).
  destruct (H2 D2 HD2) as (D3 & HD3 & G2).
  exists D3. split; [exact HD3 | eapply grown_trans; eauto].
Qed.

Lemma traces_of_frame s s' :
  _indexes s' = _indexes s ->
  (exists extra, field_store s' = field_store s ++ extra) ->
  traces s s'.
Proof.
  intros Hi [extra Hf]. split.
  - intros D HD. exists D. split; [congruence | apply grown_refl].
  - rewrite Hf. apply fields_but_primary_key_app.
Qed.

Lemma tables_traces s s' r : tables db s = (s', r) -> traces s s'.
Proof.
  intros H. apply tables_inv in H
    as [(t & _ & -> & _) | (_ & _ & H2 & _ & H4 & _)]; [apply traces_refl |].
  apply traces_of_frame; assumption.
Qed.

Lemma indexes_traces s s' r : indexes db s = (s', r) -> traces s s'.
Proof.
  intros H. apply indexes_inv in H
    as [(t & _ & -> & _) | (Hn & _ & _ & H3 & _)]; [apply traces_refl |].
  split.
  - intros D HD. congruence.
  - rewrite H3. apply fields_but_primary_key_refl.
Qed.

Lemma pass1_body_fields T td D ms s s' r :
  models_pass1_body PRIMARY_INDEX T td D ms s = (s', r) ->
  fields_but_primary_key (field_store s) (field_store s').
Proof.
  intros H. apply pass1_body_inv in H as (_ & _ & _ & _ & _ & Hout & H).
  destruct r as [[D' ms'] | e].
  - destruct H as (_ & _ & pi & _ & Hin & _). intros a f Hf.
    destruct (in_dec Nat.eq_dec a (field_addrs td)) as [Ha | Ha].
    + rewrite (Hin a Ha), Hf. eexists. reflexivity.
    + rewrite (Hout a Ha), Hf. exists (_primary_key f).
      now rewrite set_primary_key_same.
  - destruct H as (-> & _). apply fields_but_primary_key_refl.
Qed.

Lemma pass1_traces (items : list (string * TableData.t)) :
  forall D ms s s' r,
    models_pass1 PRIMARY_INDEX items D ms s = (s', r) ->
    _indexes s = Some D ->
    fields_but_primary_key (field_store s) (field_store s')
    /\ exists D', _indexes s' = Some D' /\ grown D D'.
Proof.
  induction items as [| [T td] items IH]; intros D ms s s' r H HD; simpl in H.
  - injection H as <- _. split; [apply fields_but_primary_key_refl |].
    exists D. split; [exact HD | apply grown_refl].
  - apply bind_inv in H as [(e & H & ->) | (s1 & [D1 ms1] & Hbody & H)].
    + pose proof (pass1_body_fields _ _ _ _ _ _ _ H) as Hf.
      apply pass1_body_inv in H as (_ & _ & _ & H4 & _).
      split; [exact Hf |]. eexists. split; [exact H4 | apply grown_getitem_default].
    + pose proof (pass1_body_fields _ _ _ _ _ _ _ Hbody) as Hf.
      apply pass1_body_inv in Hbody as (_ & _ & _ & H4 & _ & _ & -> & _).
      simpl in H. destruct (IH _ _ _ _ _ H H4) as (Hf' & D' & HD' & G).
      split; [eapply fields_but_primary_key_trans; eauto |].
      exists D'. split; [exact HD' |].
      eapply grown_trans; [apply grown_getitem_default | exact G].
Qed.

(** Whatever its outcome, [models()] changes the objects that the caches
    reach only by adding empty entries to the cached indexes mapping and by
    assigning [_primary_key] flags. *)
Lemma models_traces s s' r :
  models PRIMARY_INDEX finalize db s = (s', r) -> traces s s'.
Proof.
  unfold models. destruct (_models s) as [cached |]; intros H.
  { injection H as <- _. apply traces_refl. }
  apply bind_inv in H as [(e & H & ->) | (s1 & td & Ht & H)];
    [eapply tables_traces; eauto |].
  apply tables_traces in Ht. eapply traces_trans; [exact Ht |]. clear Ht.
  apply bind_inv in H as [(e & H & ->) | (s2 & D & Hi & H)];
    [eapply indexes_traces; eauto |].
  assert (HD : _indexes s2 = Some D).
  { pose proof Hi as Hi'. apply indexes_inv in Hi'
      as [(t & Hc & -> & Hr) | (_ & _ & _ & _ & _ & _ & Hc)]; congruence. }
  apply indexes_traces in Hi. eapply traces_trans; [exact Hi |]. clear Hi.
  assert (Hp1 : forall s3 r1,
             models_pass1 PRIMARY_INDEX (Dict.items td) D Dict.empty s2 = (s3, r1) ->
             traces s2 s3).
  { intros s3 r1 Hp. destruct (pass1_traces _ _ _ _ _ _ Hp HD) as (Hf & D' & HD' & G).
    split; [| exact Hf]. intros D0 HD0. exists D'. split; [exact HD' | congruence]. }
  apply bind_inv in H as [(e & H & ->) | (s3 & ms & Hp & H)]; [eapply Hp1; eauto |].
  apply Hp1 in Hp. eapply traces_trans; [exact Hp |]. clear Hp Hp1.
  assert (Hp2 : forall s4 r2,
             models_pass2 finalize (Dict.values ms) ms s3 = (s4, r2) -> traces s3 s4).
  { intros s4 r2 Hp. apply pass2_frame in Hp as (_ & _ & G3 & _ & G5 & _).
    apply traces_of_frame; [exact G3 |]. exists []. now rewrite app_nil_r. }
  apply bind_inv in H as [(e & H & ->) | (s4 & [] & Hp & H)]; [eapply Hp2; eauto |].
  apply Hp2 in Hp. eapply traces_trans; [exact Hp |].
  unfold bind, Store.set_models, ret in H. injection H as <- _.
  apply traces_of_frame; cbn; [reflexivity |]. exists []. now rewrite app_nil_r.
Qed.

End Traces.

(** ** models() and the caches *)

Section CachedAccessors.

Import SpannerMetadata.
Variable PRIMARY_INDEX : string.
Variable finalize : State -> addr -> result unit.
Variable db : Collaborator.

(** C1: when [models()] completes, in the descriptor of every table a
    field has [primary_key() == True] if its name is a key column of the
    table's primary index and [False] if it is not, whatever flag the field
    object carried before. *)
Theorem models_primary_keys (s s' : State) (ms : Dict.t string addr)
        (T : string) (c : addr) :
  Inv PRIMARY_INDEX s ->
  models PRIMARY_INDEX finalize db s = (s', Ok ms) ->
  Dict.get T ms = Some c ->
  exists meta D of_table primary_index,
    class_store s' !! c = Some meta
    /\ Metadata.table meta = T
    /\ _indexes s' = Some D /\ Dict.get T D = Some of_table
    /\ Metadata.indexes meta = of_table
    /\ Dict.get PRIMARY_INDEX of_table = Some primary_index
    /\ forall n a, In (n, a) (Metadata.fields meta) ->
         exists f, field_store s' !! a = Some f
                   /\ (FieldM.primary_key f = true <->
                       exists x, name f = Some x
                                 /\ In x (Index.columns primary_index)).
Proof.
  intros HInv H Hg.
  destruct (models_run _ _ _ _ _ _ HInv H) as (_ & _ & _ & [Hm _] & _).
  destruct (Hm T c Hg)
    as (t & D & td & of_table & pi & meta & _ & _ & HD & HT & Hpi & Hc & Htab & _
        & Hidx & _ & _ & Hmarked).
  exists meta, D, of_table, pi. splits; auto.
  intros n a Hin. apply (in_map snd) in Hin. simpl in Hin.
  destruct (Hmarked a Hin) as (f & Hf & Hpk). exists f. split; [exact Hf |].
  rewrite Hpk. unfold name_in. destruct (name f) as [x |].
  - rewrite bool_decide_eq_true, list_elem_of_In. split.
    + intros Hx. eauto.
    + intros (x' & Hx' & Hx). congruence.
  - split; [discriminate | intros (x & Hx & _); discriminate].
Qed.

(** C2: when [models()] completes, from whatever state the accessors can
    reach, and table B has the non-empty parent A in the tables() mapping,
    the [interleaved] attribute of B's descriptor is the class registered
    for A, which is then registered; when this call fetches the table rows,
    it is so for every B whose rows name the parent A, wherever the rows of
    A and B stand in the fetch. *)
Theorem models_interleaved_is_parent_class (s s' : State) (ms : Dict.t string addr)
        (A B : string) :
  let parent_class_set :=
    exists a b metaA metaB,
      Dict.get A ms = Some a /\ Dict.get B ms = Some b
      /\ class_store s' !! a = Some metaA /\ Metadata.table metaA = A
      /\ class_store s' !! b = Some metaB /\ Metadata.table metaB = B
      /\ Metadata.interleaved metaB = ParentClass a in
  Inv PRIMARY_INDEX s ->
  models PRIMARY_INDEX finalize db s = (s', Ok ms) ->
  A <> ""%string ->
  (forall tables tdB,
      _tables s' = Some tables -> Dict.get B tables = Some tdB ->
      TableData.parent_table tdB = Some A -> parent_class_set)
  /\ (forall rows,
        _tables s = None ->
        TableSchema_where db (S (queries s)) = Ok rows ->
        (exists row, In row rows /\ TableSchema.table_name row = B) ->
        (forall row, In row rows -> TableSchema.table_name row = B ->
                     TableSchema.parent_table_name row = Some A) ->
        parent_class_set).
Proof.
  intros P HInv H Hne. subst P.
  destruct (models_run _ _ _ _ _ _ HInv H) as (_ & _ & _ & [Hm (t & Ht & Hcov)] & Hbuilt).
  assert (Hmap : forall tdB, Dict.get B t = Some tdB ->
                   TableData.parent_table tdB = Some A ->
                   exists a b metaA metaB,
                     Dict.get A ms = Some a /\ Dict.get B ms = Some b
                     /\ class_store s' !! a = Some metaA /\ Metadata.table metaA = A
                     /\ class_store s' !! b = Some metaB /\ Metadata.table metaB = B
                     /\ Metadata.interleaved metaB = ParentClass a).
  { intros tdB HB HpB. destruct (Hcov _ _ HB) as (b & Hb).
    destruct (Hm B b Hb)
      as (t' & _ & td & _ & _ & metaB & Ht' & Htd' & _ & _ & _ & HcB & HtabB & _ & _ & _
          & Hres & _).
    assert (td = tdB) as -> by congruence.
    unfold resolved in Hres. rewrite HpB in Hres.
    destruct (String.eqb_spec A "") as [-> | _]; [congruence |].
    destruct Hres as (a & Ha & Hi).
    destruct (Hm A a Ha)
      as (_ & _ & _ & _ & _ & metaA & _ & _ & _ & _ & _ & HcA & HtabA & _).
    exists a, b, metaA, metaB. splits; auto. }
  split.
  - intros tables tdB Ht' HB HpB. apply (Hmap tdB); congruence.
  - intros rows Ht0 Hrows HB Hparent.
    destruct (Hbuilt Ht0) as (cd & rows' & Hrows' & Htd).
    assert (rows' = rows) as -> by congruence.
    assert (t = tables_rows rows cd Dict.empty) as -> by congruence.
    destruct (tables_rows_parent rows B (Some A) Hparent cd Dict.empty (or_introl HB))
      as (xB & HxB & HpB).
    apply (Hmap xB); assumption.
Qed.

Lemma rbind_Raise {A B} (r0 : result A) (k : A -> result B) (e : error) :
  (forall a, k a <> Raise e) -> rbind r0 k = Raise e -> r0 = Raise e.
Proof.
  destruct r0 as [a | e0]; simpl; intros Hk H; [destruct (Hk a H) | congruence].
Qed.

(** C3 (amended): a failing accessor leaves its own cache unset, so a
    later call runs its build again; no failing call changes the models
    cache or replaces a tables mapping that was cached; a failing
    [tables()] or [indexes()] changes no cache and no field object that the
    tables cache reaches; a failing [models()] changes a cached indexes
    mapping only by empty entries for further tables and existing field
    objects only in their [_primary_key]; the state stays consistent. *)
Theorem failed_call_leaves_cache_unset (a : accessor) (s s' : State) (e : error) :
  Inv PRIMARY_INDEX s ->
  call PRIMARY_INDEX finalize db a s = (s', Raise e) ->
  cache_empty a s /\ cache_empty a s'
  /\ Inv PRIMARY_INDEX s'
  /\ _models s' = _models s
  /\ (forall t, _tables s = Some t -> _tables s' = Some t)
  /\ (a <> Models -> cached_state_unchanged s s')
  /\ traces s s'.
Proof.
  intros HInv H. pose proof (Inv_call _ _ _ _ _ _ _ HInv H) as HInv'.
  assert (Htr : traces s s').
  { pose proof H as H'. apply call_inv in H'.
    destruct a; destruct H' as (r0 & H' & _).
    - eapply tables_traces; eauto.
    - eapply indexes_traces; eauto.
    - eapply models_traces; eauto. }
  apply call_inv in H. destruct a; destruct H as (r0 & H & Hr);
    symmetry in Hr; apply rbind_Raise in Hr; try (intros; discriminate); subst r0.
  - apply tables_inv in H
      as [(t & _ & _ & Hr) | (Hn & H1 & H2 & H3 & H4 & H5 & H6)]; [discriminate |].
    simpl. splits; auto; try congruence.
    intros _. unfold cached_state_unchanged. splits; auto; congruence.
  - apply indexes_inv in H
      as [(t & _ & _ & Hr) | (Hn & H1 & H2 & H3 & H4 & H5 & H6)]; [discriminate |].
    simpl. splits; auto; try congruence.
    intros _. unfold cached_state_unchanged. splits; auto; congruence.
  - destruct (models_run _ _ _ _ _ _ HInv H) as (_ & Ht & Hm & Hm').
    simpl. splits; auto; congruence.
Qed.

Lemma models_Ok_cached (s s' : State) (ms : Dict.t string addr) :
  models PRIMARY_INDEX finalize db s = (s', Ok ms) -> _models s' = Some ms.
Proof.
  unfold models. destruct (_models s) as [cached |] eqn:Hc; intros H.
  - injection H as <- <-. exact Hc.
  - apply bind_Ok in H as (s1 & td & _ & H).
    apply bind_Ok in H as (s2 & D & _ & H).
    apply bind_Ok in H as (s3 & ms' & _ & H).
    apply bind_Ok in H as (s4 & [] & _ & H).
    unfold bind, Store.set_models, ret in H. injection H as <- <-. reflexivity.
Qed.

End CachedAccessors.

Section LaterCalls.

Import SpannerMetadata.
Variable PRIMARY_INDEX : string.
Variable finalize : State -> addr -> result unit.

(** No call of an accessor empties a cache or replaces a cached mapping;
    a cached indexes mapping can gain empty entries. *)
Lemma call_keeps_caches (db : Collaborator) (a : accessor) (s s' : State)
      (r : result mapping) :
  Inv PRIMARY_INDEX s ->
  call PRIMARY_INDEX finalize db a s = (s', r) ->
  (forall t, _tables s = Some t -> _tables s' = Some t)
  /\ (forall ms, _models s = Some ms -> _models s' = Some ms)
  /\ (forall D, _indexes s = Some D -> exists D', _indexes s' = Some D' /\ grown D D').
Proof.
  intros HInv H. apply call_inv in H. destruct a; destruct H as (r0 & H & _).
  - pose proof (tables_traces _ _ _ _ H) as [Hi _].
    apply tables_inv in H as [(t & _ & -> & _) | (Hn & Hm & _)].
    + splits; auto.
    + splits; auto; [congruence | intros ms Hms; congruence].
  - pose proof (indexes_traces _ _ _ _ H) as [Hi _].
    apply indexes_inv in H as [(t & _ & -> & _) | (Hn & Hm & Ht & _)].
    + splits; auto.
    + splits; auto; [intros t Ht'; congruence | intros ms Hms; congruence].
  - pose proof (models_traces _ _ _ _ _ _ H) as [Hi _].
    destruct (models_run _ _ _ _ _ _ HInv H) as (_ & Ht & _).
    splits; auto.
    intros ms Hms. unfold models in H. rewrite Hms in H. injection H as <- _.
    exact Hms.
Qed.

Lemma run_calls_keeps_caches (calls : list (Collaborator * accessor)) :
  forall s,
    Inv PRIMARY_INDEX s ->
    Inv PRIMARY_INDEX (run_calls PRIMARY_INDEX finalize calls s)
    /\ (forall t, _tables s = Some t ->
                  _tables (run_calls PRIMARY_INDEX finalize calls s) = Some t)
    /\ (forall ms, _models s = Some ms ->
                   _models (run_calls PRIMARY_INDEX finalize calls s) = Some ms)
    /\ (forall D, _indexes s = Some D ->
          exists D', _indexes (run_calls PRIMARY_INDEX finalize calls s) = Some D'
                     /\ grown D D').
Proof.
  induction calls as [| [db a] calls IH]; intros s HInv; simpl.
  - splits; auto. intros D HD. exists D. split; [exact HD | apply grown_refl].
  - pose proof (surjective_pairing (call PRIMARY_INDEX finalize db a s)) as Hcall.
    pose proof (Inv_call _ _ _ _ _ _ _ HInv Hcall) as HInv1.
    destruct (call_keeps_caches _ _ _ _ _ HInv Hcall) as (Ht & Hm & Hi).
    destruct (IH _ HInv1) as (HInv2 & Ht2 & Hm2 & Hi2).
    splits; auto.
    intros D HD. destruct (Hi D HD) as (D1 & HD1 & Hg1).
    destruct (Hi2 D1 HD1) as (D2 & HD2 & Hg2).
    exists D2. split; [exact HD2 | eapply grown_trans; eauto].
Qed.

(** What a successful call leaves in its cache. *)
Lemma call_Ok_cached (db : Collaborator) (a : accessor) (s s1 : State) (v : mapping) :
  call PRIMARY_INDEX finalize db a s = (s1, Ok v) ->
  match a with
  | Tables => exists d, v = TablesMap d /\ _tables s1 = Some d
  | Indexes => exists d, v = IndexesMap d /\ _indexes s1 = Some d
  | Models => exists d, v = ModelsMap d /\ _models s1 = Some d
  end.
Proof.
  intros H. apply call_inv in H. destruct a; destruct H as ([d | e] & H & Hr);
    try discriminate; simpl in Hr; injection Hr as ->; exists d; split; auto.
  - apply tables_inv in H as [(t & Ht & -> & Hr) | (_ & _ & _ & _ & _ & _ & Ht & _)];
      congruence.
  - apply indexes_inv in H as [(t & Ht & -> & Hr) | (_ & _ & _ & _ & _ & _ & Ht)];
      congruence.
  - eapply models_Ok_cached; eauto.
Qed.

(** A call of an accessor whose cache is set returns the cached mapping
    and leaves the state as it is. *)
Lemma call_cached (db : Collaborator) (s : State) :
  (forall d, _tables s = Some d ->
             call PRIMARY_INDEX finalize db Tables s = (s, Ok (TablesMap d)))
  /\ (forall d, _indexes s = Some d ->
                call PRIMARY_INDEX finalize db Indexes s = (s, Ok (IndexesMap d)))
  /\ (forall d, _models s = Some d ->
                call PRIMARY_INDEX finalize db Models s = (s, Ok (ModelsMap d))).
Proof.
  splits; intros d Hd; simpl; unfold bind, ret.
  - unfold tables. rewrite Hd. reflexivity.
  - unfold indexes. rewrite Hd. reflexivity.
  - unfold models. rewrite Hd. reflexivity.
Qed.

(** C9 (amended): once a call of an accessor has returned its mapping, a
    call of that accessor that follows it, at once or after any further
    calls of the three accessors, whatever their outcomes, returns the
    cached mapping and leaves the state, and with it the number of queries
    issued, as it is, whatever the row-fetch collaborator would answer.
    The tables and models mappings are then what they were; the indexes
    mapping can have gained empty entries. *)
Theorem successful_call_is_cached
        (db db' : Collaborator) (a : accessor) (s s1 : State) (v : mapping) :
  Inv PRIMARY_INDEX s ->
  call PRIMARY_INDEX finalize db a s = (s1, Ok v) ->
  call PRIMARY_INDEX finalize db' a s1 = (s1, Ok v)
  /\ forall later : list (Collaborator * accessor),
       let s2 := run_calls PRIMARY_INDEX finalize later s1 in
       exists v',
         call PRIMARY_INDEX finalize db' a s2 = (s2, Ok v')
         /\ same_mapping v v'
         /\ queries (fst (call PRIMARY_INDEX finalize db' a s2)) = queries s2.
Proof.
  intros HInv H.
  pose proof (Inv_call _ _ _ _ _ _ _ HInv H) as HInv1.
  pose proof (call_Ok_cached _ _ _ _ _ H) as Hc.
  destruct (call_cached db' s1) as (Ct & Ci & Cm).
  split.
  - destruct a; destruct Hc as (d & -> & Hd); auto.
  - intros later s2.
    destruct (run_calls_keeps_caches later s1 HInv1) as (_ & Ht & Hm & Hi).
    fold s2 in Ht, Hm, Hi.
    destruct (call_cached db' s2) as (Ct2 & Ci2 & Cm2).
    destruct a; destruct Hc as (d & -> & Hd).
    + exists (TablesMap d). rewrite (Ct2 d (Ht d Hd)). splits; reflexivity.
    + destruct (Hi d Hd) as (D' & HD' & Hg).
      exists (IndexesMap D'). rewrite (Ci2 D' HD'). splits; auto.
    + exists (ModelsMap d). rewrite (Cm2 d (Hm d Hd)). splits; reflexivity.
Qed.

End LaterCalls.

(** ** The sample catalogs *)

Section OnSamples.

Import Samples.
Local Open Scope string_scope.

Lemma stale_flags_Inv : Inv PRIMARY_KEY stale_flags.
Proof.
  apply Inv_unset; [reflexivity |].
  intros t Ht. injection Ht as <-. split; [| split].
  - repeat constructor. simpl. tauto.
  - intros T td a Hg Ha. simpl in Hg.
    destruct (decide (T = "Singers")); [| discriminate].
    injection Hg as <-. simpl in Ha. simpl. intuition lia.
  - intros T1 td1 T2 td2 a Hg1 Hg2 _ _. simpl in Hg1, Hg2.
    destruct (decide (T1 = "Singers")); [| discriminate].
    destruct (decide (T2 = "Singers")); [| discriminate]. congruence.
Defined.

Lemma models_primary_keys_witness :
  let s' := fst (SpannerMetadata.models PRIMARY_KEY finalize_ok music stale_flags) in
  exists meta D of_table primary_index,
    class_store s' !! 0%nat = Some meta
    /\ Metadata.table meta = "Singers"
    /\ _indexes s' = Some D /\ Dict.get "Singers" D = Some of_table
    /\ Metadata.indexes meta = of_table
    /\ Dict.get PRIMARY_KEY of_table = Some primary_index
    /\ forall n a, In (n, a) (Metadata.fields meta) ->
         exists f, field_store s' !! a = Some f
                   /\ (FieldM.primary_key f = true <->
                       exists x, name f = Some x
                                 /\ In x (Index.columns primary_index)).
Proof.
  cbv zeta.
  assert (Hrun : SpannerMetadata.models PRIMARY_KEY finalize_ok music stale_flags
                 = (fst (SpannerMetadata.models PRIMARY_KEY finalize_ok music stale_flags),
                    Ok [("Singers", 0%nat)]))
    by (vm_compute; reflexivity).
  exact (models_primary_keys PRIMARY_KEY finalize_ok music stale_flags _
           [("Singers", 0%nat)] "Singers" 0%nat stale_flags_Inv Hrun eq_refl).
Defined.

Example stale_flag_is_reset :
  map FieldM.primary_key
      (field_store (fst (SpannerMetadata.models PRIMARY_KEY finalize_ok music stale_flags)))
  = [true; false].
Proof. vm_compute. reflexivity. Qed.

Lemma models_interleaved_is_parent_class_witness :
  let s := fst (SpannerMetadata.tables music init_state) in
  let s' := fst (SpannerMetadata.models PRIMARY_KEY finalize_ok music s) in
  exists a b metaA metaB,
    Dict.get "Singers" [("Albums", 0%nat); ("Singers", 1%nat)] = Some a
    /\ Dict.get "Albums" [("Albums", 0%nat); ("Singers", 1%nat)] = Some b
    /\ class_store s' !! a = Some metaA /\ Metadata.table metaA = "Singers"
    /\ class_store s' !! b = Some metaB /\ Metadata.table metaB = "Albums"
    /\ Metadata.interleaved metaB = ParentClass a.
Proof.
  cbv zeta.
  assert (Hrun : SpannerMetadata.models PRIMARY_KEY finalize_ok music
                   (fst (SpannerMetadata.tables music init_state))
                 = (fst (SpannerMetadata.models PRIMARY_KEY finalize_ok music
                           (fst (SpannerMetadata.tables music init_state))),
                    Ok [("Albums", 0%nat); ("Singers", 1%nat)]))
    by (vm_compute; reflexivity).
  assert (Ht : _tables (fst (SpannerMetadata.models PRIMARY_KEY finalize_ok music
                               (fst (SpannerMetadata.tables music init_state))))
               = Some Built.music_tables)
    by (vm_compute; reflexivity).
  assert (HInv : Inv PRIMARY_KEY (fst (SpannerMetadata.tables music init_state))).
  { eapply Inv_tables; [apply Inv_init_state | apply surjective_pairing]. }
  assert (Hne : "Singers" <> "") by discriminate.
  refine (proj1 (models_interleaved_is_parent_class PRIMARY_KEY finalize_ok music
                   _ _ _ "Singers" "Albums" HInv Hrun Hne)
                Built.music_tables
                {| TableData.parent_table := Some "Singers";
                   TableData.fields :=
                     [("id", 2%nat); ("album", 3%nat); ("released", 4%nat)] |}
                Ht _ _); vm_compute; reflexivity.
Defined.

Lemma indexes_columns_by_ordinal_witness :
  let rows := [ IndexColumnSchema.mk "Singers" "by_name" "id" None;
                IndexColumnSchema.mk "Singers" "PRIMARY_KEY" "id" (Some 1);
                IndexColumnSchema.mk "Albums" "PRIMARY_KEY" "id" (Some 1);
                IndexColumnSchema.mk "Singers" "by_name" "name" (Some 1);
                IndexColumnSchema.mk "Albums" "PRIMARY_KEY" "album" (Some 2) ] in
  let i := Index.mk ["name"] "by_name" None false false ["id"] in
  Index.columns i
  = map IndexColumnSchema.column_name (key_rows "Singers" "by_name" rows)
  /\ StronglySorted Z.le (ordinals (key_rows "Singers" "by_name" rows))
  /\ length (ordinals (key_rows "Singers" "by_name" rows)) = length (Index.columns i)
  /\ Index.storing_columns i
     = map IndexColumnSchema.column_name (storing_rows "Singers" "by_name" rows)
  /\ (forall c, In c (Index.storing_columns i) <->
        exists r, In r rows
                  /\ IndexColumnSchema.table_name r = "Singers"
                  /\ IndexColumnSchema.index_name r = "by_name"
                  /\ IndexColumnSchema.ordinal_position r = None
                  /\ IndexColumnSchema.column_name r = c).
Proof.
  intros rows i.
  assert (Hsorted : StronglySorted ordinal_le rows).
  { unfold rows. repeat first [ exact I | (cbv; discriminate) | constructor ]. }
  assert (Hrun : SpannerMetadata.indexes music init_state
                 = (fst (SpannerMetadata.indexes music init_state),
                    Ok [("Singers",
                         [("PRIMARY_KEY",
                           Index.mk ["id"] "PRIMARY_KEY" None false true []);
                          ("by_name", i)]);
                        ("Albums",
                         [("PRIMARY_KEY",
                           Index.mk ["id"; "album"] "PRIMARY_KEY" (Some "Singers")
                                    false true [])])]))
    by (vm_compute; reflexivity).
  refine (indexes_columns_by_ordinal music init_state _ _ rows "Singers" "by_name"
            _ i eq_refl eq_refl Hsorted Hrun _ _); vm_compute; reflexivity.
Defined.

(** C3, as stated, fails: [models()] fails on the table without primary
    index after it has set the [_primary_key] of the first table's field,
    which the tables cache reaches, and has added an entry to the cached
    indexes mapping. *)
Lemma failed_models_leaves_traces : ~ failed_build_restores_state.
Proof.
  intros H.
  assert (HInv : Inv PRIMARY_KEY (after_tables_and_indexes no_primary_index)).
  { unfold after_tables_and_indexes.
    eapply Inv_indexes; [| apply surjective_pairing].
    eapply Inv_tables; [apply Inv_init_state | apply surjective_pairing]. }
  assert (Hrun : call PRIMARY_KEY finalize_ok no_primary_index Models
                      (after_tables_and_indexes no_primary_index)
                 = (fst (call PRIMARY_KEY finalize_ok no_primary_index Models
                              (after_tables_and_indexes no_primary_index)),
                    Raise KeyError))
    by (vm_compute; reflexivity).
  destruct (H _ _ _ _ _ _ _ HInv Hrun) as (_ & _ & _ & Hf).
  assert (Ht : _tables (after_tables_and_indexes no_primary_index)
               = Some [("T1", TableData.mk None [("id", 0%nat)]);
                       ("T2", TableData.mk None [("id", 1%nat)])])
    by (vm_compute; reflexivity).
  assert (Hg : Dict.get "T1" [("T1", TableData.mk None [("id", 0%nat)]);
                              ("T2", TableData.mk None [("id", 1%nat)])]
               = Some (TableData.mk None [("id", 0%nat)]))
    by (vm_compute; reflexivity).
  specialize (Hf _ _ _ 0%nat Ht Hg (or_introl eq_refl)).
  vm_compute in Hf. discriminate Hf.
Qed.

Example failed_models_run :
  let s := after_tables_and_indexes no_primary_index in
  let '(s', r) := SpannerMetadata.models PRIMARY_KEY finalize_ok no_primary_index s in
  r = Raise KeyError
  /\ _models s' = None
  /\ map FieldM.primary_key (field_store s) = [false; false]
  /\ map FieldM.primary_key (field_store s') = [true; false]
  /\ option_map Dict.keys (_indexes s) = Some ["T1"]
  /\ option_map Dict.keys (_indexes s') = Some ["T1"; "T2"].
Proof. vm_compute. repeat split. Qed.

(** C9, as stated, fails: when the first call of [tables()] fails, the
    second call queries the collaborator again. *)
Lemma second_call_queries_again : ~ queries_on_first_call_only.
Proof.
  intros H.
  specialize (H PRIMARY_KEY finalize_ok unavailable Tables
                _ _ _ _ (surjective_pairing _) (surjective_pairing _)).
  vm_compute in H. discriminate H.
Qed.

Lemma failed_call_leaves_cache_unset_witness :
  let s := after_tables_and_indexes no_primary_index in
  let s' := fst (call PRIMARY_KEY finalize_ok no_primary_index Models s) in
  cache_empty Models s /\ cache_empty Models s'
  /\ Inv PRIMARY_KEY s'
  /\ _models s' = _models s
  /\ (forall t, _tables s = Some t -> _tables s' = Some t)
  /\ (Models <> Models -> cached_state_unchanged s s')
  /\ traces s s'.
Proof.
  cbv zeta.
  refine (failed_call_leaves_cache_unset PRIMARY_KEY finalize_ok no_primary_index
            Models (after_tables_and_indexes no_primary_index) _ KeyError _ _).
  - unfold after_tables_and_indexes.
    eapply Inv_indexes; [| apply surjective_pairing].
    eapply Inv_tables; [apply Inv_init_state | apply surjective_pairing].
  - vm_compute. reflexivity.
Defined.

Lemma successful_call_is_cached_witness :
  let s1 := fst (call PRIMARY_KEY finalize_ok music Models init_state) in
  let v := ModelsMap [("Albums", 0%nat); ("Singers", 1%nat)] in
  call PRIMARY_KEY finalize_ok unavailable Models s1 = (s1, Ok v)
  /\ forall later : list (Collaborator * accessor),
       let s2 := run_calls PRIMARY_KEY finalize_ok later s1 in
       exists v',
         call PRIMARY_KEY finalize_ok unavailable Models s2 = (s2, Ok v')
         /\ same_mapping v v'
         /\ queries (fst (call PRIMARY_KEY finalize_ok unavailable Models s2))
            = queries s2.
Proof.
  cbv zeta.
  refine (successful_call_is_cached PRIMARY_KEY finalize_ok music unavailable Models
            init_state _ _ (Inv_init_state PRIMARY_KEY) _).
  vm_compute. reflexivity.
Defined.

End OnSamples.

(** * Further properties of field.py *)

Section Strings.

Local Open Scope string_scope.
Local Arguments String.append !s1 s2.

Lemma append_empty_r (s : string) : s +:+ "" = s.
Proof. induction s as [| c s IH]; simpl; congruence. Qed.

Lemma append_assoc (a b c : string) : (a +:+ b) +:+ c = a +:+ (b +:+ c).
Proof. induction a as [| x a IH]; simpl; congruence. Qed.

Lemma length_append (a b : string) :
  String.length (a +:+ b) = (String.length a + String.length b)%nat.
Proof. induction a as [| x a IH]; simpl; congruence. Qed.

Lemma substring_all (t : string) : substring 0 (String.length t) t = t.
Proof. induction t as [| c t IH]; simpl; congruence. Qed.

Lemma substring_skip (a t : string) (n : nat) :
  substring (String.length a) n (a +:+ t) = substring 0 n t.
Proof. induction a as [| x a IH]; simpl; auto. Qed.

(** [(a + t)[-len(t):] == t] *)
Lemma slice_last_append (a t : string) :
  PyStr.slice_last (String.length t) (a +:+ t) = t.
Proof.
  unfold PyStr.slice_last. rewrite length_append.
  replace (String.length a + String.length t - String.length t)%nat
    with (String.length a) by lia.
  rewrite substring_skip. apply substring_all.
Qed.

(** [(a + c)[-1] == c] *)
Lemma getitem_last_append (a : string) (c : ascii) :
  PyStr.getitem_last (a +:+ String c "") = Ok c.
Proof.
  unfold PyStr.getitem_last. rewrite length_append. simpl.
  replace (String.length a + 1 - 1)%nat with (String.length a) by lia.
  induction a as [| x a IH]; simpl; auto.
Qed.

(** A string whose first characters are [p] is [p] followed by a rest. *)
Lemma slice_to_split (p s : string) :
  PyStr.slice_to (String.length p) s = p -> exists rest, s = p +:+ rest.
Proof.
  unfold PyStr.slice_to. revert s.
  induction p as [| c p IH]; intros s H; [exists s; reflexivity |].
  destruct s as [| c' s]; simpl in H; [discriminate |].
  injection H as -> H. destruct (IH s H) as [rest ->]. exists rest. reflexivity.
Qed.

Lemma slice_to_append (p rest : string) :
  PyStr.slice_to (String.length p) (p +:+ rest) = p.
Proof.
  unfold PyStr.slice_to. induction p as [| c p IH]; simpl.
  - destruct rest; reflexivity.
  - congruence.
Qed.

(** A non-empty string is its last character after the others. *)
Lemma getitem_last_split (s : string) (c : ascii) :
  PyStr.getitem_last s = Ok c -> exists a, s = a +:+ String c "".
Proof.
  unfold PyStr.getitem_last. induction s as [| x s IH]; simpl; [discriminate |].
  rewrite Nat.sub_0_r. destruct s as [| y s].
  - simpl. intros H. injection H as ->. exists "". reflexivity.
  - simpl in *. rewrite Nat.sub_0_r in IH. intros H.
    destruct (IH H) as [a Ha]. exists (String x a). simpl. congruence.
Qed.

(** A string whose last characters are [t] is a start followed by [t]. *)
Lemma slice_last_split (t s : string) :
  PyStr.slice_last (String.length t) s = t -> t <> "" -> exists a, s = a +:+ t.
Proof.
  unfold PyStr.slice_last. intros H Ht.
  assert (Hle : (String.length t <= String.length s)%nat).
  { destruct (le_lt_dec (String.length t) (String.length s)) as [Hle | Hlt]; auto.
    exfalso. replace (String.length s - String.length t)%nat with 0%nat in H by lia.
    assert (Hs : forall n u, (String.length u <= n)%nat -> substring 0 n u = u).
    { clear. induction n as [| n IH]; intros [| c u] Hu; simpl in *; try lia; auto.
      rewrite IH by lia. reflexivity. }
    rewrite Hs in H by lia. subst s. lia. }
  clear Ht. remember (String.length s - String.length t)%nat as k eqn:Hk.
  assert (Hlen : String.length s = (k + String.length t)%nat) by lia.
  clear Hk Hle. revert s H Hlen.
  induction k as [| k IH]; intros s H Hlen.
  - exists "". simpl in *. rewrite <- Hlen, substring_all in H. exact H.
  - destruct s as [| c s]; simpl in Hlen; [lia |]. simpl in H.
    destruct (IH s H) as [a Ha]; [lia |]. exists (String c a). simpl. congruence.
Qed.

Lemma getitem_last_skip (p rest : string) :
  rest <> "" -> PyStr.getitem_last (p +:+ rest) = PyStr.getitem_last rest.
Proof.
  intros Hrest. induction p as [| c p IH]; [reflexivity |].
  rewrite <- IH. unfold PyStr.getitem_last. simpl. rewrite Nat.sub_0_r.
  assert (Hlen : (1 <= String.length (p +:+ rest))%nat).
  { rewrite length_append. destruct rest; [congruence | simpl; lia]. }
  destruct (String.length (p +:+ rest)) as [| n]; [lia |].
  simpl. rewrite Nat.sub_0_r. reflexivity.
Qed.

Lemma slice_last_skip (p rest : string) (n : nat) :
  (n <= String.length rest)%nat ->
  PyStr.slice_last n (p +:+ rest) = PyStr.slice_last n rest.
Proof.
  intros Hn. induction p as [| c p IH]; [reflexivity |].
  rewrite <- IH. unfold PyStr.slice_last. simpl.
  assert (Hlen : (n <= String.length (p +:+ rest))%nat)
    by (rewrite length_append; lia).
  replace (S (String.length (p +:+ rest)) - n)%nat
    with (S (String.length (p +:+ rest) - n)) by lia.
  reflexivity.
Qed.

End Strings.

Section FurtherFieldProperties.

Import FieldTypes.
Local Open Scope string_scope.
Local Arguments String.append !s1 s2.

Lemma init_Ok_inv t nullable primary_key len act f :
  FieldM.init t nullable primary_key len act = Ok f ->
  f = mkField None t nullable primary_key len act None
  /\ (support_commit_timestamp t = false -> act = false)
  /\ (support_length t = false -> FieldM.truthy len = false)
  /\ 0 <= len.
Proof.
  unfold FieldM.init. destruct (Z.ltb_spec len 0) as [Hneg | Hpos]; [discriminate |].
  destruct (support_length t), (FieldM.truthy len), (support_commit_timestamp t), act;
    simpl; intros Hf; try discriminate; injection Hf as <-; splits; auto; discriminate.
Qed.

Lemma slice_to_literal (p rest : string) (n : nat) :
  n = String.length p -> PyStr.slice_to n (p +:+ rest) = p.
Proof. intros ->. apply slice_to_append. Qed.

Lemma slice_last_literal (a t : string) (n : nat) :
  n = String.length t -> PyStr.slice_last n (a +:+ t) = t.
Proof. intros ->. apply slice_last_append. Qed.

Lemma last_is_closing (p mid : string) (c : ascii) :
  last_is (p +:+ (mid +:+ String c "")) c = Ok true.
Proof.
  unfold last_is. rewrite <- append_assoc, getitem_last_append. simpl.
  rewrite Ascii.eqb_refl. reflexivity.
Qed.

Lemma matches_String_intro (mid : string) :
  matches String_ ("STRING(" +:+ (mid +:+ ")")) = Ok true.
Proof.
  unfold matches. rewrite (slice_to_literal "STRING(") by reflexivity.
  rewrite last_is_closing. reflexivity.
Qed.

Lemma matches_BytesBase64_intro (mid : string) :
  matches BytesBase64 ("BYTES(" +:+ (mid +:+ ")")) = Ok true.
Proof.
  unfold matches. rewrite (slice_to_literal "BYTES(") by reflexivity.
  rewrite last_is_closing. reflexivity.
Qed.

Lemma matches_StringArray_intro (mid : string) :
  matches StringArray ("ARRAY<STRING(" +:+ (mid +:+ ")>")) = Ok true.
Proof.
  unfold matches. rewrite (slice_to_literal "ARRAY<STRING(") by reflexivity.
  rewrite <- append_assoc, (slice_last_literal _ ")>") by reflexivity. reflexivity.
Qed.

Lemma matches_sized_ddl (t : FieldType) (len : Z) :
  matches t (sized_ddl t len) = Ok true.
Proof.
  destruct t; try reflexivity; unfold sized_ddl.
  - apply matches_String_intro.
  - apply matches_StringArray_intro.
  - apply matches_BytesBase64_intro.
Qed.

Lemma ddl_of_nullable n t pk len act pos :
  FieldM.ddl (mkField n t true pk len act pos)
  = sized_ddl t len +:+ options_clause act.
Proof.
  unfold FieldM.ddl, sized_ddl, length_text, options_clause. simpl.
  destruct (FieldM.truthy len), t, act; simpl;
    rewrite ?append_empty_r, ?append_assoc; simpl; reflexivity.
Qed.

(** X2: the DDL of a nullable field that the constructor accepted, and
    whose length the interpreter prints, is a type string that the field's
    own type matches, and no other variant does. *)
Theorem ddl_matches_own_type (max_str_digits : nat) (t : FieldType)
        (primary_key : bool) (len : Z) (act : bool) (f : Field) :
  FieldM.init t true primary_key len act = Ok f ->
  str_returns max_str_digits len = true ->
  matches (FieldM.field_type f) (FieldM.ddl f) = Ok true
  /\ forall t', matches t' (FieldM.ddl f) = Ok true -> t' = FieldM.field_type f.
Proof.
  intros H _. apply init_Ok_inv in H as (-> & Hact & _ & _).
  assert (Hm : matches t (FieldM.ddl (mkField None t true primary_key len act None))
               = Ok true).
  { rewrite ddl_of_nullable. unfold options_clause.
    destruct act.
    - destruct t; try (discriminate (Hact eq_refl)). reflexivity.
    - rewrite append_empty_r. apply matches_sized_ddl. }
  split; [exact Hm |]. intros t' Ht'. eapply matches_exclusive; eauto.
Qed.

Lemma last_is_true_inv (s : string) (c : ascii) :
  last_is s c = Ok true -> PyStr.getitem_last s = Ok c.
Proof.
  unfold last_is. destruct (PyStr.getitem_last s) as [x | e]; simpl; [| discriminate].
  intros H. injection H as H. apply Ascii.eqb_eq in H. congruence.
Qed.

(** A string that starts with [p] followed by an opening parenthesis and
    ends in a closing one has a middle part between the two. *)
Lemma enclosed_split (p type : string) :
  PyStr.slice_to (String.length (p +:+ "(")) type = p +:+ "(" ->
  last_is type ")" = Ok true ->
  exists mid, type = (p +:+ "(") +:+ (mid +:+ ")").
Proof.
  intros Hpre Hlast. apply slice_to_split in Hpre as [rest ->].
  apply last_is_true_inv in Hlast.
  destruct rest as [| c rest].
  - exfalso. rewrite append_empty_r in Hlast.
    rewrite getitem_last_append in Hlast. discriminate.
  - rewrite getitem_last_skip in Hlast by discriminate.
    apply getitem_last_split in Hlast as [mid ->]. eauto.
Qed.

(** X3: the type strings each variant accepts.  The fixed types accept
    their literal only; String and Bytes accept [STRING(...)] and
    [BYTES(...)], StringArray accepts [ARRAY<STRING(...)>], with anything
    in place of the dots; Timestamp accepts every string that starts
    with [TIMESTAMP]. *)
Theorem matches_accepts (type : string) :
  (matches Boolean type = Ok true <-> type = "BOOL")
  /\ (matches Integer type = Ok true <-> type = "INT64")
  /\ (matches Float type = Ok true <-> type = "FLOAT64")
  /\ (matches IntArray type = Ok true <-> type = "ARRAY<INT64>")
  /\ (matches String_ type = Ok true <->
      exists mid, type = "STRING(" +:+ mid +:+ ")")
  /\ (matches BytesBase64 type = Ok true <->
      exists mid, type = "BYTES(" +:+ mid +:+ ")")
  /\ (matches StringArray type = Ok true <->
      exists mid, type = "ARRAY<STRING(" +:+ mid +:+ ")>")
  /\ (matches Timestamp type = Ok true <-> exists rest, type = "TIMESTAMP" +:+ rest).
Proof.
  assert (Hfixed : forall lit, Ok (String.eqb type lit) = Ok true <-> type = lit).
  { intros lit. rewrite <- String.eqb_eq. split; [intros H; now injection H | congruence]. }
  splits; try apply Hfixed.
  - split.
    + intros H. apply and_then_true in H as [Hpre Hlast].
      apply String.eqb_eq in Hpre.
      destruct (enclosed_split "STRING" type Hpre Hlast) as [mid ->]. eauto.
    + intros [mid ->]. apply matches_String_intro.
  - split.
    + intros H. apply and_then_true in H as [Hpre Hlast].
      apply String.eqb_eq in Hpre.
      destruct (enclosed_split "BYTES" type Hpre Hlast) as [mid ->]. eauto.
    + intros [mid ->]. apply matches_BytesBase64_intro.
  - split.
    + intros H. apply and_then_true in H as [Hpre Hlast].
      apply String.eqb_eq in Hpre. injection Hlast as Hlast.
      apply String.eqb_eq in Hlast.
      apply (slice_to_split "ARRAY<STRING(") in Hpre as [rest ->].
      destruct rest as [| c1 [| c2 rest]]; [discriminate Hlast | |].
      * exfalso. vm_compute in Hlast. injection Hlast as Hc _. discriminate Hc.
      * change 2%nat with (String.length ")>") in Hlast.
        rewrite slice_last_skip in Hlast by (simpl; lia).
        apply slice_last_split in Hlast as [mid ->]; [eauto | discriminate].
    + intros [mid ->]. apply matches_StringArray_intro.
  - unfold matches, PyStr.startswith. split.
    + intros H. injection H as H. apply prefix_correct in H.
      apply (slice_to_split "TIMESTAMP") in H. exact H.
    + intros [rest ->]. f_equal. apply prefix_correct.
      apply (slice_to_append "TIMESTAMP").
Qed.

(** *** Validators *)

Section FurtherValidation.

Variable b64decode_ok : list Byte.byte -> bool.
Variable format_value : pyvalue -> result string.

Lemma check_Ok (ok : bool) (v : pyvalue) : check format_value ok v = Ok tt <-> ok = true.
Proof.
  unfold FieldTypes.check. destruct ok; simpl; split; auto; try discriminate.
  destruct (format_value v); simpl; discriminate.
Qed.

Lemma check_Raise (ok : bool) (v : pyvalue) (e : error) :
  check format_value ok v = Raise e ->
  ok = false /\ (e = ValidationError \/ format_value v = Raise e).
Proof.
  unfold FieldTypes.check. destruct ok; simpl; [discriminate |].
  destruct (format_value v) as [m | e0]; simpl; intros H; injection H as <-; auto.
Qed.

Lemma check_format_error (v : pyvalue) (e : error) :
  format_value v = Raise e -> check format_value false v = Raise e.
Proof. unfold FieldTypes.check. intros ->. reflexivity. Qed.

Lemma rbind_Raise_inv {A B} (r : result A) (k : A -> result B) (e : error) :
  rbind r k = Raise e -> r = Raise e \/ exists a, r = Ok a /\ k a = Raise e.
Proof. destruct r as [a | e0]; simpl; intros H; [eauto | left; congruence]. Qed.

Lemma each_item_Ok (c : pyclass) (items : list pyvalue) :
  each_item format_value c items = Ok tt <-> Forall (fun i => isinstance i c = true) items.
Proof.
  induction items as [| i items IH]; simpl.
  - split; [constructor | reflexivity].
  - destruct (isinstance i c) eqn:Hi; simpl.
    + rewrite IH. split; [constructor; auto | intros H; now inversion H].
    + split.
      * destruct (format_value i); simpl; discriminate.
      * intros H. inversion H. congruence.
Qed.

Lemma each_item_Raise (c : pyclass) (items : list pyvalue) (e : error) :
  each_item format_value c items = Raise e ->
  e = ValidationError \/ exists v, In v items /\ format_value v = Raise e.
Proof.
  induction items as [| i items IH]; simpl; [discriminate |]. intros H.
  apply rbind_Raise_inv in H as [H | ([] & _ & H)].
  - apply check_Raise in H as [_ [-> | H]]; [auto | right; eauto].
  - destruct (IH H) as [-> | (v & Hv & Hf)]; [auto | right; eauto].
Qed.

(** X4: the array validators accept exactly the lists all of whose items
    are of the element class: str for StringArray, int (which includes
    bool) for IntArray; an empty list is accepted. *)
Theorem array_validators_accept (value : pyvalue) :
  (validate_type b64decode_ok format_value StringArray value = Ok tt <->
   exists items, value = PyList items
                 /\ Forall (fun i => exists s, i = PyStr s) items)
  /\ (validate_type b64decode_ok format_value IntArray value = Ok tt <->
      exists items, value = PyList items
                    /\ Forall (fun i => (exists z, i = PyInt z)
                                        \/ (exists b, i = PyBool b)) items).
Proof.
  assert (Hstr : forall i, isinstance i c_str = true <-> exists s, i = PyStr s).
  { intros i. destruct i; simpl; split; try discriminate; eauto;
      intros [s H]; discriminate. }
  assert (Hint : forall i, isinstance i c_int = true <->
                           (exists z, i = PyInt z) \/ (exists b, i = PyBool b)).
  { intros i. destruct i; simpl; split; try discriminate; eauto;
      intros [[z H] | [z H]]; discriminate. }
  assert (Hnolist : forall c v,
             isinstance v c_list = false ->
             rbind (check format_value false v)
                   (fun _ => each_item format_value c (items_of v)) <> Ok tt).
  { intros c v _. unfold FieldTypes.check.
    destruct (format_value v); simpl; discriminate. }
  split; split.
  - intros H. unfold FieldTypes.validate_type in H.
    destruct (isinstance value c_list) eqn:Hl; [| destruct (Hnolist c_str value Hl H)].
    destruct value; try discriminate Hl. exists items. split; auto.
    simpl in H. apply each_item_Ok in H.
    eapply Forall_impl; [exact H |]. intros i. apply Hstr.
  - intros (items & -> & Hall). simpl. apply each_item_Ok.
    eapply Forall_impl; [exact Hall |]. intros i. apply Hstr.
  - intros H. unfold FieldTypes.validate_type in H.
    destruct (isinstance value c_list) eqn:Hl; [| destruct (Hnolist c_int value Hl H)].
    destruct value; try discriminate Hl. exists items. split; auto.
    simpl in H. apply each_item_Ok in H.
    eapply Forall_impl; [exact H |]. intros i. apply Hint.
  - intros (items & -> & Hall). simpl. apply each_item_Ok.
    eapply Forall_impl; [exact Hall |]. intros i. apply Hint.
Qed.

Lemma validate_type_Raise (t : FieldType) (value : pyvalue) (e : error) :
  validate_type b64decode_ok format_value t value = Raise e ->
  e = ValidationError
  \/ exists v, (v = value \/ In v (items_of value)) /\ format_value v = Raise e.
Proof.
  assert (Hc : forall ok, check format_value ok value = Raise e ->
               e = ValidationError
               \/ exists v, (v = value \/ In v (items_of value))
                            /\ format_value v = Raise e).
  { intros ok H. apply check_Raise in H as [_ [-> | H]]; [auto | right; eauto]. }
  assert (Hi : forall c, each_item format_value c (items_of value) = Raise e ->
               e = ValidationError
               \/ exists v, (v = value \/ In v (items_of value))
                            /\ format_value v = Raise e).
  { intros c H. apply each_item_Raise in H as [-> | (v & Hv & Hf)];
      [auto | right; eauto]. }
  destruct t; unfold FieldTypes.validate_type; intros H; eauto;
    apply rbind_Raise_inv in H as [H | ([] & _ & H)]; eauto.
Qed.

(** X5: an error raised by [validate] is ValidationError, or else the
    error that building the message raised, that is, formatting the
    rejected value or the rejected item of a list; so [validate] raises
    nothing but ValidationError when these can be formatted.  Such
    errors do occur: when the value itself is rejected and cannot be
    formatted, [validate] raises what formatting raised. *)
Theorem validate_raises_ValidationError_or_format_error
        (f : Field) (value : pyvalue) :
  (forall e, FieldM.validate b64decode_ok format_value f value = Raise e ->
     e = ValidationError
     \/ exists v, (v = value \/ In v (items_of value)) /\ format_value v = Raise e)
  /\ ((forall v, v = value \/ In v (items_of value) ->
                 exists m, format_value v = Ok m) ->
      FieldM.validate b64decode_ok format_value f value = Ok tt
      \/ FieldM.validate b64decode_ok format_value f value = Raise ValidationError)
  /\ (forall e, value <> PyNone -> items_of value = [] ->
        FieldM.validate b64decode_ok format_value f value <> Ok tt ->
        format_value value = Raise e ->
        FieldM.validate b64decode_ok format_value f value = Raise e).
Proof.
  assert (Ha : forall e, FieldM.validate b64decode_ok format_value f value = Raise e ->
             e = ValidationError
             \/ exists v, (v = value \/ In v (items_of value))
                          /\ format_value v = Raise e).
  { intros e. unfold FieldM.validate.
    destruct value; try apply validate_type_Raise.
    destruct (_nullable f); simpl; intros H; [discriminate |].
    injection H as <-. auto. }
  split; [exact Ha |]. split.
  - intros Hfmt.
    destruct (FieldM.validate b64decode_ok format_value f value) as [[] | e] eqn:Hv;
      [auto |].
    destruct (Ha e eq_refl) as [-> | (v & Hv' & Hf)]; [auto |].
    destruct (Hfmt v Hv') as [m Hm]. congruence.
  - intros e Hnone Hitems Hrej Hf.
    assert (Hc : forall ok, check format_value ok value <> Ok tt ->
                            check format_value ok value = Raise e).
    { intros [] H; [destruct (H eq_refl) | apply check_format_error, Hf]. }
    assert (Hv : FieldM.validate b64decode_ok format_value f value
                 = validate_type b64decode_ok format_value (_type f) value).
    { unfold FieldM.validate. destruct value; try reflexivity. congruence. }
    rewrite Hv in *. clear Hv.
    destruct (_type f); unfold FieldTypes.validate_type in *; auto;
      rewrite ?Hitems in *.
    + destruct (isinstance value c_list); [destruct (Hrej eq_refl) |].
      rewrite (check_format_error _ _ Hf). reflexivity.
    + destruct (isinstance value c_list); [destruct (Hrej eq_refl) |].
      rewrite (check_format_error _ _ Hf). reflexivity.
    + destruct (isinstance value c_bytes).
      * change (check format_value (b64decode_ok (bytes_of value)) value = Raise e).
        apply Hc. exact Hrej.
      * rewrite (check_format_error _ _ Hf). reflexivity.
Qed.

End FurtherValidation.

End FurtherFieldProperties.

(** * Further properties of admin/metadata.py *)

(** ** Nested dicts *)

Section NestedDicts.

Context {V : Type}.
Implicit Types (d : Dict.t string (Dict.t string V)).

(** [d[T][k] = v] on a [defaultdict(dict)]. *)
Lemma lookup2_nested_setitem d (T k T' k' : string) (v : V) :
  lookup2 T' k'
    (Dict.setitem T (Dict.setitem k v (snd (Dict.getitem_default Dict.empty T d)))
                  (fst (Dict.getitem_default Dict.empty T d)))
  = if decide (T = T' /\ k = k') then Some v else lookup2 T' k' d.
Proof.
  unfold lookup2. rewrite get_setitem, snd_getitem_default.
  destruct (decide (T = T')) as [<- | HT].
  - rewrite get_setitem. destruct (decide (k = k')) as [<- | Hk].
    + rewrite decide_True by auto. reflexivity.
    + rewrite decide_False by tauto.
      destruct (Dict.get T d); reflexivity.
  - rewrite decide_False by tauto. rewrite get_getitem_default.
    destruct (Dict.get T' d); [reflexivity |].
    rewrite decide_False by exact HT. reflexivity.
Qed.

Lemma lookup2_getitem_default d (T T' k : string) :
  lookup2 T' k (fst (Dict.getitem_default Dict.empty T d)) = lookup2 T' k d.
Proof.
  unfold lookup2. rewrite get_getitem_default.
  destruct (Dict.get T' d); [reflexivity |].
  destruct (decide (T = T')); reflexivity.
Qed.

Lemma lookup2_Some d (T k : string) (v : V) :
  lookup2 T k d = Some v <->
  exists inner, Dict.get T d = Some inner /\ Dict.get k inner = Some v.
Proof.
  unfold lookup2. split.
  - destruct (Dict.get T d) as [inner |]; [eauto | discriminate].
  - intros (inner & -> & H). exact H.
Qed.

End NestedDicts.

(** ** tables(): what it builds *)

Section TablesBuild.

Import SpannerMetadata.
Variable db : Collaborator.

Lemma init_default (t : FieldType) (nullable : bool) :
  FieldM.init t nullable false 0 false = Ok (mkField None t nullable false 0 false None).
Proof. destruct t; reflexivity. Qed.

Lemma field_of_row_Ok (row : ColumnSchema.t) (f : Field) :
  field_of_row row = Ok f <->
  exists t, ColumnSchema.field_type row = Ok t
            /\ f = mkField (Some (ColumnSchema.column_name row)) t
                           (ColumnSchema.nullable row) false 0 false
                           (Some (ColumnSchema.ordinal_position row)).
Proof.
  unfold field_of_row. destruct (ColumnSchema.field_type row) as [t | e]; simpl.
  - rewrite init_default. simpl. split.
    + intros H. injection H as <-. eauto.
    + intros (t' & Ht & ->). congruence.
  - split; [discriminate | intros (t & Ht & _); discriminate].
Qed.

Lemma fields_of_rows_lookup (rows : list ColumnSchema.t) (fs : list Field) :
  fields_of_rows rows = Ok fs ->
  length fs = length rows
  /\ forall i row, rows !! i = Some row ->
       exists f, fs !! i = Some f /\ field_of_row row = Ok f.
Proof.
  revert fs. induction rows as [| row rows IH]; intros fs H; simpl in H.
  - injection H as <-. split; [reflexivity | intros i row Hi; discriminate].
  - destruct (field_of_row row) as [f | e] eqn:Hf; simpl in H; [| discriminate].
    destruct (fields_of_rows rows) as [fs' | e]; simpl in H; [| discriminate].
    injection H as <-. destruct (IH fs' eq_refl) as [Hlen Hrows]. split.
    + simpl. congruence.
    + intros [| i] row' Hi; simpl in Hi.
      * injection Hi as <-. exists f. auto.
      * apply Hrows. exact Hi.
Qed.

Lemma fields_of_rows_Ok (rows : list ColumnSchema.t) :
  (exists fs, fields_of_rows rows = Ok fs) <->
  Forall (fun row => exists t, ColumnSchema.field_type row = Ok t) rows.
Proof.
  induction rows as [| row rows IH]; simpl.
  - split; [constructor | eauto].
  - split.
    + intros [fs H].
      destruct (field_of_row row) as [f | e] eqn:Hf; simpl in H; [| discriminate].
      destruct (fields_of_rows rows) as [fs' | e]; simpl in H; [| discriminate].
      constructor.
      * apply field_of_row_Ok in Hf as (t & Ht & _). eauto.
      * apply IH. eauto.
    + intros Hall. apply Forall_cons_1 in Hall as [[t Ht] Hall].
      apply IH in Hall as [fs' ->].
      pose proof (proj2 (field_of_row_Ok row _) (ex_intro _ t (conj Ht eq_refl))) as Hf.
      rewrite Hf. simpl. eauto.
Qed.

Lemma last_row_index_Some (T k : string) (rows : list ColumnSchema.t) (i : nat) :
  last_row_index T k rows = Some i ->
  exists row, rows !! i = Some row /\ of_column T k row.
Proof.
  revert i. induction rows as [| row rows IH]; intros i H; simpl in H; [discriminate |].
  destruct (last_row_index T k rows) as [j |].
  - injection H as <-. apply IH. reflexivity.
  - destruct (decide (of_column T k row)) as [Hc | _]; [| discriminate].
    injection H as <-. exists row. auto.
Qed.

Lemma last_row_index_In (T k : string) (rows : list ColumnSchema.t) (row : ColumnSchema.t) :
  In row rows -> of_column T k row -> exists i, last_row_index T k rows = Some i.
Proof.
  induction rows as [| row' rows IH]; intros Hin Hc; [destruct Hin |]. simpl.
  destruct (last_row_index T k rows) as [j |]; [eauto |].
  destruct Hin as [-> | Hin].
  - rewrite decide_True by exact Hc. eauto.
  - destruct (IH Hin Hc) as [i Hi]. discriminate.
Qed.

(** The column loop, when it completes: one new field object per row, in
    fetch order, and under each table and column name the object of the
    last row for it. *)
Lemma tables_columns_Ok (columns : list ColumnSchema.t) :
  forall cd s s' cd',
    tables_columns columns cd s = (s', Ok cd') ->
    exists fs,
      fields_of_rows columns = Ok fs
      /\ field_store s' = field_store s ++ fs
      /\ forall T k,
           lookup2 T k cd'
           = match last_row_index T k columns with
             | Some i => Some (length (field_store s) + i)%nat
             | None => lookup2 T k cd
             end.
Proof.
  induction columns as [| row columns IH]; intros cd s s' cd' H; simpl in H.
  - injection H as <- <-. exists []. rewrite app_nil_r. auto.
  - unfold bind at 1, lift in H. simpl fields_of_rows. unfold field_of_row.
    destruct (ColumnSchema.field_type row) as [ft | e]; [| discriminate].
    unfold bind at 1 in H. rewrite init_default in H.
    cbn [rbind]. rewrite init_default. cbn [rbind].
    unfold bind at 1, Store.new_field in H.
    pose proof (fun T' k' => lookup2_nested_setitem cd (ColumnSchema.table_name row)
                  (ColumnSchema.column_name row) T' k' (length (field_store s))) as Hset.
    destruct (Dict.getitem_default Dict.empty (ColumnSchema.table_name row) cd)
      as [cd1 of_table]. simpl fst in Hset. simpl snd in Hset.
    apply IH in H as (fs & Hfs & Hstore & Hlook). rewrite Hfs. simpl.
    eexists. split; [reflexivity |]. cbn in Hstore, Hlook.
    split; [rewrite Hstore, <- app_assoc; reflexivity |].
    intros T k. rewrite Hlook, Hset, length_app. simpl.
    destruct (last_row_index T k columns) as [i |]; [f_equal; lia |].
    unfold of_column.
    destruct (decide (ColumnSchema.table_name row = T /\ ColumnSchema.column_name row = k));
      [f_equal; lia | reflexivity].
Qed.

(** The column loop completes whenever every row can be built. *)
Lemma tables_columns_total (columns : list ColumnSchema.t) :
  forall cd s fs,
    fields_of_rows columns = Ok fs ->
    exists s' cd', tables_columns columns cd s = (s', Ok cd').
Proof.
  induction columns as [| row columns IH]; intros cd s fs H; simpl in *.
  - unfold ret. eauto.
  - unfold field_of_row in H.
    unfold bind at 1, lift. destruct (ColumnSchema.field_type row) as [ft | e];
      [| discriminate].
    unfold bind at 1. rewrite init_default. cbn [rbind] in H.
    rewrite init_default in H. cbn [rbind] in H.
    unfold bind at 1, Store.new_field.
    destruct (fields_of_rows columns) as [fs' | e]; [| discriminate].
    destruct (Dict.getitem_default Dict.empty (ColumnSchema.table_name row) cd)
      as [cd1 of_table].
    eapply IH. reflexivity.
Qed.

(** A call of [tables()] that builds the mapping, taken apart. *)
Lemma tables_build_inv (s s' : State) (td : Dict.t string TableData.t) :
  _tables s = None ->
  tables db s = (s', Ok td) ->
  exists columns fs cd rows,
    ColumnSchema_where db (queries s) = Ok columns
    /\ fields_of_rows columns = Ok fs
    /\ field_store s' = field_store s ++ fs
    /\ (forall T k,
           lookup2 T k cd
           = (fun i => (length (field_store s) + i)%nat) <$> last_row_index T k columns)
    /\ TableSchema_where db (S (queries s)) = Ok rows
    /\ td = tables_rows rows cd Dict.empty
    /\ queries s' = S (S (queries s)).
Proof.
  intros Hnone H. unfold tables in H. rewrite Hnone in H.
  apply bind_Ok in H as (s0 & columns & Hq & H).
  unfold Store.query in Hq. injection Hq as <- Hcols.
  apply bind_Ok in H as (s1 & cd & Hcd & H).
  pose proof (tables_columns_frame _ _ _ _ _ Hcd) as (_ & _ & _ & _ & Hqs & _).
  apply tables_columns_Ok in Hcd as (fs & Hfs & Hstore & Hlook).
  apply bind_Ok in H as (s2 & rows & Hq & H).
  unfold Store.query in Hq. injection Hq as <- Hrows.
  unfold bind, Store.set_tables, ret in H. injection H as <- <-.
  cbn in *. exists columns, fs, cd, rows. splits; auto; congruence.
Qed.

Lemma fields_lookup2 (rows : list TableSchema.t) (cd : Dict.t string (Dict.t string addr))
      (T k : string) (x : TableData.t) :
  Dict.get T (tables_rows rows cd Dict.empty) = Some x ->
  Dict.get k (TableData.fields x) = lookup2 T k cd.
Proof.
  intros Hg. rewrite (tables_rows_fields rows cd Dict.empty) with (T := T) (x := x);
    [| intros ? ? ?; discriminate | exact Hg].
  unfold lookup2. destruct (Dict.get T cd); reflexivity.
Qed.

End TablesBuild.

(** ** tables(): properties of the mapping *)

Section TablesProperties.

Import SpannerMetadata.
Variable db : Collaborator.

Lemma lookup_In {A} (l : list A) (i : nat) (x : A) : l !! i = Some x -> In x l.
Proof. intros H. apply list_elem_of_In, list_elem_of_lookup. eauto. Qed.

Lemma dict_without_keys {V} (d : Dict.t string V) :
  (forall k, Dict.get k d = None) -> d = [].
Proof.
  destruct d as [| [k v] d]; [reflexivity |]. intros H. specialize (H k).
  simpl in H. rewrite decide_True in H by reflexivity. discriminate.
Qed.

(** The field object that a built mapping holds for a table and column. *)
Lemma tables_field_at (s s' : State) (td : Dict.t string TableData.t)
      (columns : list ColumnSchema.t) (T k : string) (x : TableData.t) (a : addr) :
  _tables s = None ->
  tables db s = (s', Ok td) ->
  ColumnSchema_where db (queries s) = Ok columns ->
  Dict.get T td = Some x -> Dict.get k (TableData.fields x) = Some a ->
  exists i row t,
    last_row_index T k columns = Some i
    /\ a = (length (field_store s) + i)%nat
    /\ (i < length columns)%nat
    /\ length (field_store s') = (length (field_store s) + length columns)%nat
    /\ columns !! i = Some row /\ of_column T k row
    /\ ColumnSchema.field_type row = Ok t
    /\ field_store s' !! a
       = Some (mkField (Some k) t (ColumnSchema.nullable row) false 0 false
                       (Some (ColumnSchema.ordinal_position row))).
Proof.
  intros Hnone Hrun Hcols HT Hk.
  destruct (tables_build_inv db _ _ _ Hnone Hrun)
    as (columns' & fs & cd & rows & Hcols' & Hfs & Hstore & Hlook & _ & -> & _).
  assert (columns' = columns) as -> by congruence.
  rewrite (fields_lookup2 _ _ _ _ _ HT), Hlook in Hk.
  destruct (last_row_index T k columns) as [i |] eqn:Hi; [| discriminate].
  simpl in Hk. injection Hk as <-.
  destruct (last_row_index_Some _ _ _ _ Hi) as (row & Hrow & Hc).
  destruct (fields_of_rows_lookup _ _ Hfs) as [Hlen Hrows].
  destruct (Hrows i row Hrow) as (f & Hf & Hbuilt).
  apply field_of_row_Ok in Hbuilt as (t & Ht & ->).
  exists i, row, t. splits; auto.
  - apply lookup_lt_Some in Hrow. exact Hrow.
  - rewrite Hstore, length_app, Hlen. reflexivity.
  - rewrite Hstore, lookup_app_r by lia.
    replace (length (field_store s) + i - length (field_store s))%nat with i by lia.
    destruct Hc as [_ <-]. exact Hf.
Qed.

(** X6: every field that a freshly built tables() mapping holds under a
    table and column name was built from a fetched column row of that
    table and column: it carries the column name as its name, the type the
    row's type string resolves to, the row's nullability and ordinal
    position, and is no primary key, without length or commit timestamp. *)
Theorem tables_fields_from_rows (s s' : State) (td : Dict.t string TableData.t)
        (columns : list ColumnSchema.t) (T k : string) (x : TableData.t) (a : addr) :
  _tables s = None ->
  tables db s = (s', Ok td) ->
  ColumnSchema_where db (queries s) = Ok columns ->
  Dict.get T td = Some x -> Dict.get k (TableData.fields x) = Some a ->
  exists row f,
    In row columns
    /\ ColumnSchema.table_name row = T /\ ColumnSchema.column_name row = k
    /\ field_store s' !! a = Some f
    /\ name f = Some k
    /\ ColumnSchema.field_type row = Ok (FieldM.field_type f)
    /\ FieldM.nullable f = ColumnSchema.nullable row
    /\ position f = Some (ColumnSchema.ordinal_position row)
    /\ FieldM.primary_key f = false
    /\ _length f = 0 /\ _allow_commit_timestamp f = false.
Proof.
  intros Hnone Hrun Hcols HT Hk.
  destruct (tables_field_at _ _ _ _ _ _ _ _ Hnone Hrun Hcols HT Hk)
    as (i & row & t & _ & _ & _ & _ & Hrow & [HrT Hrk] & Ht & Hf).
  eexists row, _. splits; [eapply lookup_In; eauto | auto | auto | exact Hf | ..];
    auto.
Qed.

(** X7: every fetched column row whose table has a table row is in the
    built mapping: the table's fields hold, under the row's column name, a
    field object of that name. *)
Theorem tables_fields_complete (s s' : State) (td : Dict.t string TableData.t)
        (columns : list ColumnSchema.t) (rows : list TableSchema.t)
        (row : ColumnSchema.t) :
  _tables s = None ->
  tables db s = (s', Ok td) ->
  ColumnSchema_where db (queries s) = Ok columns ->
  TableSchema_where db (S (queries s)) = Ok rows ->
  In row columns ->
  (exists table_row, In table_row rows
                     /\ TableSchema.table_name table_row = ColumnSchema.table_name row) ->
  exists x a f,
    Dict.get (ColumnSchema.table_name row) td = Some x
    /\ Dict.get (ColumnSchema.column_name row) (TableData.fields x) = Some a
    /\ field_store s' !! a = Some f
    /\ name f = Some (ColumnSchema.column_name row).
Proof.
  intros Hnone Hrun Hcols Hrows Hin Htable.
  destruct (tables_build_inv db _ _ _ Hnone Hrun)
    as (columns' & fs & cd & rows' & Hcols' & Hfs & Hstore & Hlook & Hrows' & Htd & _).
  assert (columns' = columns) as -> by congruence.
  assert (rows' = rows) as -> by congruence.
  destruct (tables_rows_present rows (ColumnSchema.table_name row) cd Dict.empty
                                (or_introl Htable)) as [x Hx].
  rewrite <- Htd in Hx.
  destruct (last_row_index_In (ColumnSchema.table_name row) (ColumnSchema.column_name row)
                              columns row Hin (conj eq_refl eq_refl)) as [i Hi].
  assert (Hk : Dict.get (ColumnSchema.column_name row) (TableData.fields x)
               = Some (length (field_store s) + i)%nat).
  { rewrite Htd in Hx. rewrite (fields_lookup2 _ _ _ _ _ Hx), Hlook, Hi. reflexivity. }
  destruct (tables_field_at _ _ _ _ _ _ _ _ Hnone Hrun Hcols Hx Hk)
    as (i' & row' & t & _ & _ & _ & _ & _ & _ & _ & Hf).
  eexists x, _, _. splits; [exact Hx | exact Hk | exact Hf | reflexivity].
Qed.

Lemma tables_rows_origin (rows : list TableSchema.t) :
  forall cd td T x,
    Dict.get T (tables_rows rows cd td) = Some x ->
    Dict.get T td = Some x
    \/ exists row, In row rows /\ TableSchema.table_name row = T
                   /\ TableData.parent_table x = TableSchema.parent_table_name row.
Proof.
  induction rows as [| row rows IH]; intros cd td T x H; simpl in H; [auto |].
  destruct (Dict.getitem_default Dict.empty (TableSchema.table_name row) cd)
    as [cd1 fields].
  apply IH in H as [H | (row' & Hin & Hname & Hp)].
  - rewrite get_setitem in H.
    destruct (decide (TableSchema.table_name row = T)) as [Heq | Hne]; [| auto].
    injection H as <-. right. exists row. simpl. auto.
  - right. exists row'. simpl. auto.
Qed.

(** X8: the tables of a freshly built tables() mapping are exactly the
    tables of the fetched table rows; each carries the parent of one of
    its rows, and a table without column rows has no fields. *)
Theorem tables_keys_from_rows (s s' : State) (td : Dict.t string TableData.t)
        (columns : list ColumnSchema.t) (rows : list TableSchema.t) (T : string) :
  _tables s = None ->
  tables db s = (s', Ok td) ->
  ColumnSchema_where db (queries s) = Ok columns ->
  TableSchema_where db (S (queries s)) = Ok rows ->
  ((exists x, Dict.get T td = Some x) <->
   (exists row, In row rows /\ TableSchema.table_name row = T))
  /\ (forall x, Dict.get T td = Some x ->
        (exists row, In row rows /\ TableSchema.table_name row = T
                     /\ TableData.parent_table x = TableSchema.parent_table_name row)
        /\ ((forall row, In row columns -> ColumnSchema.table_name row <> T) ->
            TableData.fields x = Dict.empty)).
Proof.
  intros Hnone Hrun Hcols Hrows.
  destruct (tables_build_inv db _ _ _ Hnone Hrun)
    as (columns' & fs & cd & rows' & Hcols' & Hfs & Hstore & Hlook & Hrows' & Htd & _).
  assert (columns' = columns) as -> by congruence.
  assert (rows' = rows) as -> by congruence.
  assert (Horigin : forall x, Dict.get T td = Some x ->
            exists row, In row rows /\ TableSchema.table_name row = T
                        /\ TableData.parent_table x = TableSchema.parent_table_name row).
  { intros x Hx. rewrite Htd in Hx.
    apply tables_rows_origin in Hx as [Hx | Hx]; [discriminate | exact Hx]. }
  split; [split |].
  - intros [x Hx]. destruct (Horigin x Hx) as (row & Hin & Hname & _). eauto.
  - intros Hrow. rewrite Htd. apply tables_rows_present. left. exact Hrow.
  - intros x Hx. split; [apply Horigin; exact Hx |].
    intros Hno. apply dict_without_keys. intros k.
    rewrite Htd in Hx. rewrite (fields_lookup2 _ _ _ _ _ Hx), Hlook.
    destruct (last_row_index T k columns) as [i |] eqn:Hi; [| reflexivity].
    exfalso. apply last_row_index_Some in Hi as (row & Hrow & [HrT _]).
    apply (Hno row); [eapply lookup_In; eauto | exact HrT].
Qed.

(** X9: a freshly built tables() mapping holds only field objects created
    by this call, and holds each of them under one table and one column
    name only: no field object is shared. *)
Theorem tables_fields_fresh_and_unshared (s s' : State) (td : Dict.t string TableData.t) :
  _tables s = None ->
  tables db s = (s', Ok td) ->
  (forall T x k a,
      Dict.get T td = Some x -> Dict.get k (TableData.fields x) = Some a ->
      (length (field_store s) <= a < length (field_store s'))%nat)
  /\ (forall T1 x1 k1 T2 x2 k2 a,
         Dict.get T1 td = Some x1 -> Dict.get k1 (TableData.fields x1) = Some a ->
         Dict.get T2 td = Some x2 -> Dict.get k2 (TableData.fields x2) = Some a ->
         T1 = T2 /\ k1 = k2).
Proof.
  intros Hnone Hrun.
  destruct (tables_build_inv db _ _ _ Hnone Hrun)
    as (columns & _ & _ & _ & Hcols & _).
  split.
  - intros T x k a HT Hk.
    destruct (tables_field_at _ _ _ _ _ _ _ _ Hnone Hrun Hcols HT Hk)
      as (i & row & t & _ & -> & Hi & Hlen & _). lia.
  - intros T1 x1 k1 T2 x2 k2 a HT1 Hk1 HT2 Hk2.
    destruct (tables_field_at _ _ _ _ _ _ _ _ Hnone Hrun Hcols HT1 Hk1)
      as (i1 & row1 & t1 & _ & Ha1 & _ & _ & Hrow1 & [<- <-] & _).
    destruct (tables_field_at _ _ _ _ _ _ _ _ Hnone Hrun Hcols HT2 Hk2)
      as (i2 & row2 & t2 & _ & Ha2 & _ & _ & Hrow2 & [<- <-] & _).
    assert (i1 = i2) as -> by lia.
    assert (row1 = row2) as -> by congruence. auto.
Qed.

(** X10: tables(), when its cache is unset, completes if and only if both
    of its queries are answered and the type string of every fetched
    column row resolves to a field type. *)
Theorem tables_completes_iff (s : State) :
  _tables s = None ->
  (exists s' td, tables db s = (s', Ok td)) <->
  (exists columns rows,
      ColumnSchema_where db (queries s) = Ok columns
      /\ Forall (fun row => exists t, ColumnSchema.field_type row = Ok t) columns
      /\ TableSchema_where db (S (queries s)) = Ok rows).
Proof.
  intros Hnone. split.
  - intros (s' & td & Hrun).
    destruct (tables_build_inv db _ _ _ Hnone Hrun)
      as (columns & fs & cd & rows & Hcols & Hfs & _ & _ & Hrows & _).
    exists columns, rows. splits; auto. apply fields_of_rows_Ok. eauto.
  - intros (columns & rows & Hcols & Hall & Hrows).
    apply fields_of_rows_Ok in Hall as [fs Hfs].
    destruct (tables_columns_total columns Dict.empty (asked s) fs Hfs)
      as (s1 & cd & Hcd).
    pose proof (tables_columns_frame _ _ _ _ _ Hcd) as (_ & _ & _ & _ & Hqs & _).
    unfold tables. rewrite Hnone. unfold bind at 1, Store.query.
    rewrite Hcols. fold (asked s). unfold bind at 1. rewrite Hcd.
    unfold bind at 1. rewrite Hqs. simpl queries. rewrite Hrows.
    unfold bind, Store.set_tables, ret. eauto.
Qed.

End TablesProperties.

(** ** indexes(): properties of the mapping *)

Section IndexesProperties.

Import SpannerMetadata.
Variable db : Collaborator.

Lemma last_index_row_Some (T IDX : string) (rows : list IndexSchema.t) (r : IndexSchema.t) :
  last_index_row T IDX rows = Some r -> In r rows /\ of_index_row T IDX r.
Proof.
  induction rows as [| row rows IH]; simpl; [discriminate |].
  destruct (last_index_row T IDX rows) as [r' |].
  - intros H. destruct (IH H). auto.
  - destruct (decide (of_index_row T IDX row)) as [Hk | _]; [| discriminate].
    intros H. injection H as <-. auto.
Qed.

Lemma last_index_row_In (T IDX : string) (rows : list IndexSchema.t) (row : IndexSchema.t) :
  In row rows -> of_index_row T IDX row -> exists r, last_index_row T IDX rows = Some r.
Proof.
  induction rows as [| row' rows IH]; intros Hin Hk; [destruct Hin |]. simpl.
  destruct (last_index_row T IDX rows) as [r |]; [eauto |].
  destruct Hin as [-> | Hin].
  - rewrite decide_True by exact Hk. eauto.
  - destruct (IH Hin Hk) as [r Hr]. discriminate.
Qed.

(** The index loop: under each table and index name the [Index] built from
    the last index row for it. *)
Lemma indexes_rows_lookup (rows : list IndexSchema.t) :
  forall ic sc D T IDX,
    lookup2 T IDX (indexes_rows rows ic sc D)
    = match last_index_row T IDX rows with
      | Some row =>
          Some {| Index.columns := lookup_list (T, IDX) ic;
                  Index.name := IDX;
                  Index.parent := IndexSchema.parent_table_name row;
                  Index.null_filtered := IndexSchema.is_null_filtered row;
                  Index.unique := IndexSchema.is_unique row;
                  Index.storing_columns := lookup_list (T, IDX) sc |}
      | None => lookup2 T IDX D
      end.
Proof.
  induction rows as [| row rows IH]; intros ic sc D T IDX; simpl; [reflexivity |].
  set (key := (IndexSchema.table_name row, IndexSchema.index_name row)).
  pose proof (fun k => lookup_list_getitem_default key k ic) as Hic.
  pose proof (snd_getitem_default [] key ic) as Hcols.
  destruct (Dict.getitem_default [] key ic) as [ic' cols]. simpl in Hic, Hcols.
  pose proof (fun k => lookup_list_getitem_default key k sc) as Hsc.
  pose proof (snd_getitem_default [] key sc) as Hstoring.
  destruct (Dict.getitem_default [] key sc) as [sc' storing]. simpl in Hsc, Hstoring.
  pose proof (fun v => lookup2_nested_setitem D (IndexSchema.table_name row)
                         (IndexSchema.index_name row) T IDX v) as Hset.
  destruct (Dict.getitem_default Dict.empty (IndexSchema.table_name row) D)
    as [D' of_table]. simpl fst in Hset. simpl snd in Hset.
  rewrite IH, Hic, Hsc, Hset.
  destruct (last_index_row T IDX rows) as [r |]; [reflexivity |].
  unfold of_index_row.
  destruct (decide (IndexSchema.table_name row = T /\ IndexSchema.index_name row = IDX))
    as [[<- <-] | Hne]; [| reflexivity].
  subst cols storing. reflexivity.
Qed.

(** A call of [indexes()] that builds the mapping, taken apart. *)
Lemma indexes_build_inv (s s' : State) (D : Dict.t string (Dict.t string Index.t)) :
  _indexes s = None ->
  indexes db s = (s', Ok D) ->
  exists rows index_rows ic sc,
    IndexColumnSchema_where db (queries s) = Ok rows
    /\ IndexSchema_where db (S (queries s)) = Ok index_rows
    /\ indexes_columns rows Dict.empty Dict.empty = (ic, sc)
    /\ D = indexes_rows index_rows ic sc Dict.empty
    /\ queries s' = S (S (queries s)).
Proof.
  intros Hnone H. unfold indexes in H. rewrite Hnone in H.
  unfold bind, Store.query in H. cbn in H.
  destruct (IndexColumnSchema_where db (queries s)) as [rows | e]; [| discriminate].
  destruct (indexes_columns rows Dict.empty Dict.empty) as [ic sc] eqn:Hic. cbn in H.
  destruct (IndexSchema_where db (S (queries s))) as [index_rows | e]; [| discriminate].
  cbn in H. injection H as <- <-. exists rows, index_rows, ic, sc. splits; auto.
Qed.

(** X11: the indexes of a freshly built indexes() mapping are exactly the
    (table, index) names of the fetched index rows; each [Index] carries
    its index name and the uniqueness, null filtering and parent table of
    one of its rows. *)
Theorem indexes_entries_from_rows (s s' : State)
        (D : Dict.t string (Dict.t string Index.t))
        (index_rows : list IndexSchema.t) (T IDX : string) :
  _indexes s = None ->
  indexes db s = (s', Ok D) ->
  IndexSchema_where db (S (queries s)) = Ok index_rows ->
  ((exists i, lookup2 T IDX D = Some i) <->
   (exists row, In row index_rows /\ IndexSchema.table_name row = T
                /\ IndexSchema.index_name row = IDX))
  /\ (forall i, lookup2 T IDX D = Some i ->
        Index.name i = IDX
        /\ exists row,
            In row index_rows /\ IndexSchema.table_name row = T
            /\ IndexSchema.index_name row = IDX
            /\ Index.unique i = IndexSchema.is_unique row
            /\ Index.null_filtered i = IndexSchema.is_null_filtered row
            /\ Index.parent i = IndexSchema.parent_table_name row).
Proof.
  intros Hnone Hrun Hrows.
  destruct (indexes_build_inv _ _ _ Hnone Hrun)
    as (rows & index_rows' & ic & sc & _ & Hrows' & _ & -> & _).
  assert (index_rows' = index_rows) as -> by congruence.
  assert (Hentry : forall i,
             lookup2 T IDX (indexes_rows index_rows ic sc Dict.empty) = Some i ->
             Index.name i = IDX
             /\ exists row,
                 In row index_rows /\ IndexSchema.table_name row = T
                 /\ IndexSchema.index_name row = IDX
                 /\ Index.unique i = IndexSchema.is_unique row
                 /\ Index.null_filtered i = IndexSchema.is_null_filtered row
                 /\ Index.parent i = IndexSchema.parent_table_name row).
  { intros i. rewrite indexes_rows_lookup.
    destruct (last_index_row T IDX index_rows) as [row |] eqn:Hlast; [| discriminate].
    apply last_index_row_Some in Hlast as [Hin [HT HI]].
    intros H. injection H as <-. simpl. split; [reflexivity |].
    exists row. splits; auto. }
  split; [split |].
  - intros [i Hi]. destruct (Hentry i Hi) as (_ & row & Hin & HT & HI & _). eauto.
  - intros (row & Hin & HT & HI). rewrite indexes_rows_lookup.
    destruct (last_index_row_In T IDX index_rows row Hin (conj HT HI)) as [r ->]. eauto.
  - exact Hentry.
Qed.

End IndexesProperties.

(** ** models(): further properties *)

Section ModelsProperties.

Import SpannerMetadata.
Variable PRIMARY_INDEX : string.
Variable finalize : State -> addr -> result unit.
Variable db : Collaborator.

Lemma models_descriptors (s s' : State) (ms : Dict.t string addr) :
  Inv PRIMARY_INDEX s ->
  models PRIMARY_INDEX finalize db s = (s', Ok ms) ->
  exists tables,
    _tables s' = Some tables
    /\ (forall T td, Dict.get T tables = Some td -> exists c, Dict.get T ms = Some c)
    /\ (forall T c, Dict.get T ms = Some c ->
          exists meta td,
            class_store s' !! c = Some meta
            /\ Dict.get T tables = Some td
            /\ Metadata.table meta = T
            /\ Metadata.model_class meta = c
            /\ Metadata.fields meta = TableData.fields td).
Proof.
  intros HInv H.
  destruct (models_run _ _ _ _ _ _ HInv H) as (_ & _ & _ & [Hm (tables & Ht & Hcov)] & _).
  exists tables. split; [exact Ht |]. split.
  - intros T td Htd. eapply Hcov; eauto.
  - intros T c Hg.
    destruct (Hm T c Hg)
      as (t & D & td & of_table & pi & meta & Ht' & Htd & _ & _ & _ & Hc & Htab & Hf & _
          & Hmc & _).
    exists meta, td. splits; auto. congruence.
Qed.

(** X12: when [models()] completes, the registry has a class for every
    table of the tables() mapping and for nothing else, different tables
    have different classes, and the descriptor of a class names its table,
    points back to the class and holds the very fields dict of the
    table. *)
Theorem models_registry (s s' : State) (ms : Dict.t string addr) :
  Inv PRIMARY_INDEX s ->
  models PRIMARY_INDEX finalize db s = (s', Ok ms) ->
  exists tables,
    _tables s' = Some tables
    /\ (forall T, (exists c, Dict.get T ms = Some c) <->
                  (exists td, Dict.get T tables = Some td))
    /\ (forall T1 T2 c, Dict.get T1 ms = Some c -> Dict.get T2 ms = Some c -> T1 = T2)
    /\ (forall T c, Dict.get T ms = Some c ->
          exists meta td,
            class_store s' !! c = Some meta
            /\ Dict.get T tables = Some td
            /\ Metadata.table meta = T
            /\ Metadata.model_class meta = c
            /\ Metadata.fields meta = TableData.fields td).
Proof.
  intros HInv H.
  destruct (models_descriptors _ _ _ HInv H) as (tables & Ht & Hcov & Hdesc).
  exists tables. split; [exact Ht |]. split; [| split; [| exact Hdesc]].
  - intros T. split.
    + intros [c Hc]. destruct (Hdesc T c Hc) as (_ & td & _ & Htd & _). eauto.
    + intros [td Htd]. eauto.
  - intros T1 T2 c H1 H2.
    destruct (Hdesc T1 c H1) as (m1 & _ & Hc1 & _ & Ht1 & _).
    destruct (Hdesc T2 c H2) as (m2 & _ & Hc2 & _ & Ht2 & _). congruence.
Qed.

(** X13: [model(table_name)], when it returns, returns [None] exactly for
    the names that are no table of the tables() mapping, and otherwise the
    class whose descriptor names that table. *)
Theorem model_lookup (T : string) (s s' : State) (o : option addr) :
  Inv PRIMARY_INDEX s ->
  model PRIMARY_INDEX finalize db T s = (s', Ok o) ->
  exists tables,
    _tables s' = Some tables
    /\ (o = None <-> Dict.get T tables = None)
    /\ (forall c, o = Some c ->
          exists meta, class_store s' !! c = Some meta /\ Metadata.table meta = T).
Proof.
  intros HInv H. unfold model in H.
  apply bind_Ok in H as (s1 & ms & Hrun & H). unfold ret in H. injection H as <- <-.
  destruct (models_descriptors _ _ _ HInv Hrun) as (tables & Ht & Hcov & Hdesc).
  exists tables. split; [exact Ht |]. split.
  - split; intros Hn.
    + destruct (Dict.get T tables) as [td |] eqn:Htd; [| reflexivity].
      destruct (Hcov T td Htd) as [c Hc]. congruence.
    + destruct (Dict.get T ms) as [c |] eqn:Hc; [| reflexivity].
      destruct (Hdesc T c Hc) as (_ & td & _ & Htd & _). congruence.
  - intros c Hc. destruct (Hdesc T c Hc) as (meta & td & Hm & _ & Htab & _). eauto.
Qed.

(** X14: when [models()] completes, every table whose row names a
    non-empty parent has that parent among the tables of the mapping: with
    a parent that is no table of the catalog, [models()] cannot complete. *)
Theorem models_parent_in_catalog (s s' : State) (ms : Dict.t string addr)
        (tables : Dict.t string TableData.t) (T n : string) (td : TableData.t) :
  Inv PRIMARY_INDEX s ->
  models PRIMARY_INDEX finalize db s = (s', Ok ms) ->
  _tables s' = Some tables -> Dict.get T tables = Some td ->
  TableData.parent_table td = Some n -> n <> ""%string ->
  exists td', Dict.get n tables = Some td'.
Proof.
  intros HInv H Ht HT Hp Hn.
  destruct (models_run _ _ _ _ _ _ HInv H) as (_ & _ & _ & [Hm (tables' & Ht' & Hcov)] & _).
  assert (tables' = tables) as -> by congruence.
  destruct (Hcov T td HT) as [c Hc].
  destruct (Hm T c Hc)
    as (t & _ & td0 & _ & _ & meta & Ht0 & Htd0 & _ & _ & _ & _ & _ & _ & _ & _ & Hres & _).
  assert (t = tables) as -> by congruence.
  assert (td0 = td) as -> by congruence.
  unfold resolved in Hres. rewrite Hp in Hres.
  destruct (String.eqb_spec n "") as [-> | _]; [congruence |].
  destruct Hres as (p & Hp' & _).
  destruct (Hm n p Hp') as (t & _ & td' & _ & _ & _ & Ht1 & Htd' & _).
  assert (t = tables) as -> by congruence. eauto.
Qed.

Lemma pass1_body_error T td D ms s s' e :
  models_pass1_body PRIMARY_INDEX T td D ms s = (s', Raise e) -> e = KeyError.
Proof.
  unfold models_pass1_body, indexes_getitem.
  destruct (Dict.getitem_default Dict.empty T D) as [D1 of_table]. intros H.
  unfold bind at 1 in H. unfold bind at 1 in H. unfold Store.set_indexes, ret in H.
  cbn beta iota in H. unfold bind at 1 in H. unfold lift, Dict.getitem in H.
  destruct (Dict.get PRIMARY_INDEX of_table) as [pi |].
  - unfold bind at 1 in H.
    match type of H with context [mark_primary_keys ?K ?l ?st] =>
      destruct (mark_primary_keys_spec K l st) as (fs & Hrun & _); rewrite Hrun in H
    end.
    unfold bind, Store.new_class, ret in H. discriminate.
  - injection H as _ <-. reflexivity.
Qed.

(** The first pass fails with KeyError when one of its tables has no
    primary index. *)
Lemma pass1_missing_index (T : string) (td : TableData.t)
      (items : list (string * TableData.t)) :
  forall D ms s s' r,
    models_pass1 PRIMARY_INDEX items D ms s = (s', r) ->
    In (T, td) items ->
    (forall of_table, Dict.get T D = Some of_table ->
                      Dict.get PRIMARY_INDEX of_table = None) ->
    r = Raise KeyError.
Proof.
  induction items as [| [T0 td0] items IH]; intros D ms s s' r H Hin Hno;
    [destruct Hin |]. simpl in H.
  apply bind_inv in H as [(e & H & ->) | (s1 & [D1 ms1] & Hbody & H)].
  - apply pass1_body_error in H. congruence.
  - apply pass1_body_inv in Hbody as (_ & _ & _ & _ & _ & _ & -> & _ & pi & Hpi & _).
    simpl in H. destruct Hin as [Heq | Hin].
    + exfalso. injection Heq as -> ->. rewrite snd_getitem_default in Hpi.
      destruct (Dict.get T D) as [x |] eqn:Hx; simpl in Hpi; [| discriminate].
      rewrite (Hno x eq_refl) in Hpi. discriminate.
    + eapply IH; [exact H | exact Hin |]. intros x Hx.
      destruct (proj2 (grown_getitem_default D T0) T x Hx) as [Hold | ->]; auto.
Qed.

(** X15: with both mappings cached, [models()] raises KeyError when some
    table has no index named PRIMARY_INDEX, whatever finalize would do;
    the models cache stays unset. *)
Theorem models_raises_without_primary_index (s : State)
        (tables : Dict.t string TableData.t)
        (D : Dict.t string (Dict.t string Index.t)) (T : string) (td : TableData.t) :
  _models s = None -> _tables s = Some tables -> _indexes s = Some D ->
  Dict.get T tables = Some td ->
  (forall of_table, Dict.get T D = Some of_table ->
                    Dict.get PRIMARY_INDEX of_table = None) ->
  exists s', models PRIMARY_INDEX finalize db s = (s', Raise KeyError)
             /\ _models s' = None.
Proof.
  intros Hm Ht HD HT Hno.
  destruct (models PRIMARY_INDEX finalize db s) as [s' r] eqn:Hrun.
  pose proof Hrun as H. unfold models in H. rewrite Hm in H.
  unfold bind at 1 in H. unfold SpannerMetadata.tables at 1 in H. rewrite Ht in H.
  unfold bind at 1 in H. unfold SpannerMetadata.indexes at 1 in H. rewrite HD in H.
  assert (Hr : r = Raise KeyError /\ _models s' = None).
  { apply bind_inv in H as [(e & H & ->) | (s3 & ms & Hp1 & _)].
    - pose proof (pass1_frame _ _ _ _ _ _ _ H HD) as (_ & F2 & _).
      apply pass1_missing_index with (T := T) (td := td) in H;
        [| apply get_In; exact HT | exact Hno].
      split; congruence.
    - apply pass1_missing_index with (T := T) (td := td) in Hp1;
        [discriminate | apply get_In; exact HT | exact Hno]. }
  destruct Hr as [-> Hm']. eauto.
Qed.

(** X16: whatever its outcome, [models()] leaves every existing field
    object its name, type, nullability, length, commit-timestamp flag and
    position; only [_primary_key] is ever assigned. *)
Theorem models_assigns_only_primary_key (s s' : State) (r : result (Dict.t string addr))
        (a : addr) (f : Field) :
  models PRIMARY_INDEX finalize db s = (s', r) ->
  field_store s !! a = Some f ->
  exists f',
    field_store s' !! a = Some f'
    /\ name f' = name f /\ FieldM.field_type f' = FieldM.field_type f
    /\ FieldM.nullable f' = FieldM.nullable f /\ _length f' = _length f
    /\ _allow_commit_timestamp f' = _allow_commit_timestamp f
    /\ position f' = position f.
Proof.
  intros H Hf. apply models_traces in H as [_ Hfields].
  destruct (Hfields a f Hf) as [b Hb]. eexists. split; [exact Hb |].
  splits; reflexivity.
Qed.

Lemma tables_queries (s s' : State) (r : result (Dict.t string TableData.t)) :
  tables db s = (s', r) ->
  (queries s <= queries s' <= queries s + 2)%nat
  /\ (_tables s <> None -> queries s' = queries s)
  /\ (_tables s = None -> forall td, r = Ok td -> queries s' = (queries s + 2)%nat).
Proof.
  intros H. destruct (_tables s) as [cached |] eqn:Hc.
  - apply tables_inv in H as [(t & _ & -> & _) | (Hn & _)]; [| congruence].
    splits; auto; [lia | discriminate].
  - assert (Hok : forall td, r = Ok td -> queries s' = (queries s + 2)%nat).
    { intros td ->. destruct (tables_build_inv db _ _ _ Hc H)
        as (? & ? & ? & ? & _ & _ & _ & _ & _ & _ & Hq). lia. }
    split; [| split; [intros Hn; exfalso; apply Hn; reflexivity | intros _; exact Hok]].
    destruct r as [td | e]; [specialize (Hok td eq_refl); lia |].
    unfold tables in H. rewrite Hc in H.
    apply bind_inv in H as [(e0 & H & _) | (s0 & columns & Hq & H)].
    { unfold Store.query in H. injection H as <- _. cbn. lia. }
    unfold Store.query in Hq. injection Hq as <- _.
    apply bind_inv in H as [(e0 & H & _) | (s1 & cd & Hcd & H)].
    { apply tables_columns_frame in H as (_ & _ & _ & _ & Hq & _). cbn in Hq. lia. }
    apply tables_columns_frame in Hcd as (_ & _ & _ & _ & Hq & _). cbn in Hq.
    apply bind_inv in H as [(e0 & H & _) | (s2 & rows & Hq2 & H)].
    { unfold Store.query in H. injection H as <- _. cbn. lia. }
    unfold Store.query in Hq2. injection Hq2 as <- _.
    unfold bind, Store.set_tables, ret in H. discriminate.
Qed.

Lemma indexes_queries (s s' : State) (r : result (Dict.t string (Dict.t string Index.t))) :
  indexes db s = (s', r) ->
  (queries s <= queries s' <= queries s + 2)%nat
  /\ (_indexes s <> None -> queries s' = queries s)
  /\ (_indexes s = None -> forall D, r = Ok D -> queries s' = (queries s + 2)%nat).
Proof.
  intros H. destruct (_indexes s) as [cached |] eqn:Hc.
  - apply indexes_inv in H as [(t & _ & -> & _) | (Hn & _)]; [| congruence].
    splits; auto; [lia | discriminate].
  - assert (Hok : forall D, r = Ok D -> queries s' = (queries s + 2)%nat).
    { intros D ->. destruct (indexes_build_inv db _ _ _ Hc H)
        as (? & ? & ? & ? & _ & _ & _ & _ & Hq). lia. }
    split; [| split; [intros Hn; exfalso; apply Hn; reflexivity | intros _; exact Hok]].
    destruct r as [D | e]; [specialize (Hok D eq_refl); lia |].
    unfold indexes in H. rewrite Hc in H.
    unfold bind, Store.query in H. cbn in H.
    destruct (IndexColumnSchema_where db (queries s)) as [rows | e0].
    2:{ injection H as <- _. cbn. lia. }
    destruct (indexes_columns rows Dict.empty Dict.empty) as [ic sc]. cbn in H.
    destruct (IndexSchema_where db (S (queries s))) as [index_rows | e0].
    + cbn in H. discriminate.
    + injection H as <- _. cbn. lia.
Qed.

(** X17: a call of [models()] issues at most four queries; none when the
    tables() and indexes() mappings are both cached; and exactly four when
    it completes from a state in which nothing is cached. *)
Theorem models_queries (s s' : State) (r : result (Dict.t string addr)) :
  models PRIMARY_INDEX finalize db s = (s', r) ->
  (queries s <= queries s' <= queries s + 4)%nat
  /\ (_tables s <> None -> _indexes s <> None -> queries s' = queries s)
  /\ (forall ms, r = Ok ms ->
        _models s = None -> _tables s = None -> _indexes s = None ->
        queries s' = (queries s + 4)%nat).
Proof.
  intros H. unfold models in H.
  destruct (_models s) as [cached |] eqn:Hc.
  { injection H as <- <-.
    split; [lia | split; [reflexivity | intros ms _ Hm; congruence]]. }
  assert (Hgoal : forall s1 s2,
             (queries s <= queries s1 <= queries s + 2)%nat ->
             (_tables s <> None -> queries s1 = queries s) ->
             _indexes s1 = _indexes s ->
             (queries s1 <= queries s2 <= queries s1 + 2)%nat ->
             (_indexes s1 <> None -> queries s2 = queries s1) ->
             queries s' = queries s2 ->
             forall P : Prop, P ->
             (queries s <= queries s' <= queries s + 4)%nat
             /\ (_tables s <> None -> _indexes s <> None -> queries s' = queries s)
             /\ P).
  { intros s1 s2 B1 C1 E1 B2 C2 E2 P HP.
    split; [lia | split; [| exact HP]].
    intros Ht Hi. rewrite E2, C2, C1; auto. congruence. }
  apply bind_inv in H as [(e & H & ->) | (s1 & td & Ht & H)].
  { destruct (tables_queries _ _ _ H) as (B1 & C1 & _).
    pose proof H as H'. apply tables_inv in H'
      as [(t & _ & _ & Hr) | (_ & _ & E1 & _)]; [discriminate |].
    apply (Hgoal s' s'); auto; try lia; try discriminate. }
  destruct (tables_queries _ _ _ Ht) as (B1 & C1 & D1).
  assert (E1 : _indexes s1 = _indexes s).
  { pose proof Ht as H'. apply tables_inv in H'
      as [(t & _ & -> & _) | (_ & _ & E1 & _)]; auto. }
  apply bind_inv in H as [(e & H & ->) | (s2 & D & Hi & H)].
  { destruct (indexes_queries _ _ _ H) as (B2 & C2 & _).
    apply (Hgoal s1 s'); auto; try discriminate. }
  destruct (indexes_queries _ _ _ Hi) as (B2 & C2 & D2).
  assert (HD : _indexes s2 = Some D).
  { pose proof Hi as H'. apply indexes_inv in H'
      as [(t & Hca & -> & Hr) | (_ & _ & _ & _ & _ & _ & Hca)]; congruence. }
  assert (Hexact : forall s3, queries s3 = queries s2 ->
             _tables s = None -> _indexes s = None ->
             queries s3 = (queries s + 4)%nat).
  { intros s3 E3 Htn Hin. rewrite E3, (D2 ltac:(congruence) D eq_refl),
      (D1 Htn td eq_refl). lia. }
  apply bind_inv in H as [(e & H & ->) | (s3 & ms & Hp1 & H)].
  { apply pass1_frame with (1 := H) in HD as (_ & _ & F3 & _).
    apply (Hgoal s1 s2); auto; try discriminate. }
  apply pass1_frame with (1 := Hp1) in HD as (_ & _ & F3 & _).
  apply bind_inv in H as [(e & H & ->) | (s4 & [] & Hp2 & H)].
  { apply pass2_frame in H as (_ & _ & _ & G4 & _).
    apply (Hgoal s1 s2); auto; try congruence; try discriminate. }
  apply pass2_frame in Hp2 as (_ & _ & _ & G4 & _).
  unfold bind, Store.set_models, ret in H. injection H as <- <-.
  apply (Hgoal s1 s2); auto; cbn; try congruence.
  intros ms' _ _ Htn Hin. apply Hexact; auto. congruence.
Qed.

End ModelsProperties.

(** ** The further properties on the sample catalogs *)

Section FurtherOnSamples.

Import Samples.
Import SpannerMetadata.
Local Open Scope string_scope.

Lemma ddl_matches_own_type_witness :
  let f := mkField None String_ true false 10 false None in
  FieldTypes.matches (FieldM.field_type f) (FieldM.ddl f) = Ok true
  /\ forall t', FieldTypes.matches t' (FieldM.ddl f) = Ok true -> t' = FieldM.field_type f.
Proof.
  cbv zeta.
  apply (ddl_matches_own_type 4300 String_ false 10 false); vm_compute; reflexivity.
Defined.

Lemma tables_run :
  tables music init_state = (fst (tables music init_state), Ok Built.music_tables).
Proof. vm_compute. reflexivity. Qed.

Lemma indexes_run :
  indexes music init_state = (fst (indexes music init_state), Ok Built.music_indexes).
Proof. vm_compute. reflexivity. Qed.

Lemma models_music_run :
  models PRIMARY_KEY finalize_ok music init_state
  = (fst (models PRIMARY_KEY finalize_ok music init_state), Ok Built.music_models).
Proof. vm_compute. reflexivity. Qed.

Lemma tables_fields_from_rows_witness :
  let s' := fst (tables music init_state) in
  exists row f,
    In row Built.music_columns
    /\ ColumnSchema.table_name row = "Albums"
    /\ ColumnSchema.column_name row = "released"
    /\ field_store s' !! 4%nat = Some f
    /\ name f = Some "released"
    /\ ColumnSchema.field_type row = Ok (FieldM.field_type f)
    /\ FieldM.nullable f = ColumnSchema.nullable row
    /\ position f = Some (ColumnSchema.ordinal_position row)
    /\ FieldM.primary_key f = false
    /\ _length f = 0 /\ _allow_commit_timestamp f = false.
Proof.
  cbv zeta.
  exact (tables_fields_from_rows music init_state _ Built.music_tables
           Built.music_columns "Albums" "released"
           {| TableData.parent_table := Some "Singers";
              TableData.fields := [("id", 2%nat); ("album", 3%nat); ("released", 4%nat)] |}
           4%nat eq_refl tables_run eq_refl eq_refl eq_refl).
Defined.

Lemma tables_fields_complete_witness :
  let s' := fst (tables music init_state) in
  let row := ColumnSchema.mk "Singers" "name" 2 "STRING(MAX)" true in
  exists x a f,
    Dict.get (ColumnSchema.table_name row) Built.music_tables = Some x
    /\ Dict.get (ColumnSchema.column_name row) (TableData.fields x) = Some a
    /\ field_store s' !! a = Some f
    /\ name f = Some (ColumnSchema.column_name row).
Proof.
  cbv zeta.
  refine (tables_fields_complete music init_state _ Built.music_tables
            Built.music_columns Built.music_table_rows
            (ColumnSchema.mk "Singers" "name" 2 "STRING(MAX)" true)
            eq_refl tables_run eq_refl eq_refl _ _).
  - right; left; reflexivity.
  - exists (TableSchema.mk "Singers" None). split; [right; left; reflexivity | reflexivity].
Defined.

Lemma tables_keys_from_rows_witness :
  ((exists x, Dict.get "Albums" Built.music_tables = Some x) <->
   (exists row, In row Built.music_table_rows /\ TableSchema.table_name row = "Albums"))
  /\ (forall x, Dict.get "Albums" Built.music_tables = Some x ->
        (exists row, In row Built.music_table_rows
                     /\ TableSchema.table_name row = "Albums"
                     /\ TableData.parent_table x = TableSchema.parent_table_name row)
        /\ ((forall row, In row Built.music_columns ->
                         ColumnSchema.table_name row <> "Albums") ->
            TableData.fields x = Dict.empty)).
Proof.
  exact (tables_keys_from_rows music init_state _ Built.music_tables
           Built.music_columns Built.music_table_rows "Albums"
           eq_refl tables_run eq_refl eq_refl).
Defined.

Lemma tables_fields_fresh_and_unshared_witness :
  let s' := fst (tables music init_state) in
  (forall T x k a,
      Dict.get T Built.music_tables = Some x ->
      Dict.get k (TableData.fields x) = Some a ->
      (length (field_store init_state) <= a < length (field_store s'))%nat)
  /\ (forall T1 x1 k1 T2 x2 k2 a,
         Dict.get T1 Built.music_tables = Some x1 ->
         Dict.get k1 (TableData.fields x1) = Some a ->
         Dict.get T2 Built.music_tables = Some x2 ->
         Dict.get k2 (TableData.fields x2) = Some a ->
         T1 = T2 /\ k1 = k2).
Proof.
  cbv zeta.
  exact (tables_fields_fresh_and_unshared music init_state _ Built.music_tables
           eq_refl tables_run).
Defined.

Lemma tables_completes_iff_witness :
  (exists s' td, tables music init_state = (s', Ok td)) <->
  (exists columns rows,
      ColumnSchema_where music (queries init_state) = Ok columns
      /\ Forall (fun row => exists t, ColumnSchema.field_type row = Ok t) columns
      /\ TableSchema_where music (S (queries init_state)) = Ok rows).
Proof. exact (tables_completes_iff music init_state eq_refl). Defined.

Lemma indexes_entries_from_rows_witness :
  ((exists i, lookup2 "Singers" "by_name" Built.music_indexes = Some i) <->
   (exists row, In row Built.music_index_rows
                /\ IndexSchema.table_name row = "Singers"
                /\ IndexSchema.index_name row = "by_name"))
  /\ (forall i, lookup2 "Singers" "by_name" Built.music_indexes = Some i ->
        Index.name i = "by_name"
        /\ exists row,
            In row Built.music_index_rows
            /\ IndexSchema.table_name row = "Singers"
            /\ IndexSchema.index_name row = "by_name"
            /\ Index.unique i = IndexSchema.is_unique row
            /\ Index.null_filtered i = IndexSchema.is_null_filtered row
            /\ Index.parent i = IndexSchema.parent_table_name row).
Proof.
  exact (indexes_entries_from_rows music init_state _ Built.music_indexes
           Built.music_index_rows "Singers" "by_name" eq_refl indexes_run eq_refl).
Defined.

Lemma models_registry_witness :
  let s' := fst (models PRIMARY_KEY finalize_ok music init_state) in
  exists tables,
    _tables s' = Some tables
    /\ (forall T, (exists c, Dict.get T Built.music_models = Some c) <->
                  (exists td, Dict.get T tables = Some td))
    /\ (forall T1 T2 c, Dict.get T1 Built.music_models = Some c ->
                        Dict.get T2 Built.music_models = Some c -> T1 = T2)
    /\ (forall T c, Dict.get T Built.music_models = Some c ->
          exists meta td,
            class_store s' !! c = Some meta
            /\ Dict.get T tables = Some td
            /\ Metadata.table meta = T
            /\ Metadata.model_class meta = c
            /\ Metadata.fields meta = TableData.fields td).
Proof.
  cbv zeta.
  exact (models_registry PRIMARY_KEY finalize_ok music init_state _ Built.music_models
           (Inv_init_state PRIMARY_KEY) models_music_run).
Defined.

Lemma model_lookup_witness :
  let s' := fst (model PRIMARY_KEY finalize_ok music "Albums" init_state) in
  exists tables,
    _tables s' = Some tables
    /\ (Some 0%nat = None <-> Dict.get "Albums" tables = None)
    /\ (forall c, Some 0%nat = Some c ->
          exists meta, class_store s' !! c = Some meta
                       /\ Metadata.table meta = "Albums").
Proof.
  cbv zeta.
  assert (Hrun : model PRIMARY_KEY finalize_ok music "Albums" init_state
                 = (fst (model PRIMARY_KEY finalize_ok music "Albums" init_state),
                    Ok (Some 0%nat)))
    by (vm_compute; reflexivity).
  exact (model_lookup PRIMARY_KEY finalize_ok music "Albums" init_state _ (Some 0%nat)
           (Inv_init_state PRIMARY_KEY) Hrun).
Defined.

Lemma models_parent_in_catalog_witness :
  exists td', Dict.get "Singers" Built.music_tables = Some td'.
Proof.
  assert (Ht : _tables (fst (models PRIMARY_KEY finalize_ok music init_state))
               = Some Built.music_tables)
    by (vm_compute; reflexivity).
  refine (models_parent_in_catalog PRIMARY_KEY finalize_ok music init_state _
            Built.music_models Built.music_tables "Albums" "Singers"
            {| TableData.parent_table := Some "Singers";
               TableData.fields := [("id", 2%nat); ("album", 3%nat); ("released", 4%nat)] |}
            (Inv_init_state PRIMARY_KEY) models_music_run Ht eq_refl eq_refl _).
  discriminate.
Defined.

Lemma models_raises_without_primary_index_witness :
  exists s', models PRIMARY_KEY finalize_ok no_primary_index
               (after_tables_and_indexes no_primary_index) = (s', Raise KeyError)
             /\ _models s' = None.
Proof.
  assert (Ht : _tables (after_tables_and_indexes no_primary_index)
               = Some [("T1", {| TableData.parent_table := None;
                                 TableData.fields := [("id", 0%nat)] |});
                       ("T2", {| TableData.parent_table := None;
                                 TableData.fields := [("id", 1%nat)] |})])
    by (vm_compute; reflexivity).
  assert (Hi : _indexes (after_tables_and_indexes no_primary_index)
               = Some [("T1", [("PRIMARY_KEY",
                                Index.mk ["id"] "PRIMARY_KEY" None false true [])])])
    by (vm_compute; reflexivity).
  assert (Hm : _models (after_tables_and_indexes no_primary_index) = None)
    by (vm_compute; reflexivity).
  refine (models_raises_without_primary_index PRIMARY_KEY finalize_ok no_primary_index
            _ _ _ "T2" _ Hm Ht Hi eq_refl _).
  intros of_table Hget. vm_compute in Hget. discriminate Hget.
Defined.

Lemma models_assigns_only_primary_key_witness :
  let f := mkField (Some "name") String_ true true 0 false (Some 2%Z) in
  exists f',
    field_store (fst (models PRIMARY_KEY finalize_ok music stale_flags)) !! 1%nat
    = Some f'
    /\ name f' = name f /\ FieldM.field_type f' = FieldM.field_type f
    /\ FieldM.nullable f' = FieldM.nullable f /\ _length f' = _length f
    /\ _allow_commit_timestamp f' = _allow_commit_timestamp f
    /\ position f' = position f.
Proof.
  cbv zeta.
  assert (Hrun : models PRIMARY_KEY finalize_ok music stale_flags
                 = (fst (models PRIMARY_KEY finalize_ok music stale_flags),
                    Ok [("Singers", 0%nat)]))
    by (vm_compute; reflexivity).
  exact (models_assigns_only_primary_key PRIMARY_KEY finalize_ok music stale_flags _ _
           1%nat _ Hrun eq_refl).
Defined.

Lemma models_queries_witness :
  let s := init_state in
  let s' := fst (models PRIMARY_KEY finalize_ok music s) in
  (queries s <= queries s' <= queries s + 4)%nat
  /\ (_tables s <> None -> _indexes s <> None -> queries s' = queries s)
  /\ (forall ms, Ok Built.music_models = Ok ms ->
        _models s = None -> _tables s = None -> _indexes s = None ->
        queries s' = (queries s + 4)%nat).
Proof.
  cbv zeta.
  exact (models_queries PRIMARY_KEY finalize_ok music init_state _ _ models_music_run).
Defined.

End FurtherOnSamples.
